(** * Phytoport: the comparison core

    A shallow embedding of the annotation-comparison code of the
    repository ([compare/domains.py], [compare/ps_sites.py] and
    [compare/msa_ps_sites.py]) and the properties of its matchers,
    coordinate mapper, filters and summariser.

    Conventions of the embedding:
    - Python [int] is [Z]; [str] is [string]; a tuple is a Rocq tuple.
    - A [dict] that is only looked up is a [gmap]; a [dict] whose
      iteration order is used is an insertion-ordered association list.
    - A [set] is a [gset].
    - Loops are left folds over the list they iterate, threading the
      local variables they mutate.
    - A raised exception is the [Raise] branch of [result]. *)

From Stdlib Require Import ZArith String Ascii List Sorted Permutation.
From stdpp Require Import gmap strings list sorting.

#[local] Set Warnings "-clear-no-such-hyp".

Local Open Scope Z_scope.

(** ** Python built-ins used by the three modules *)

(** The exceptions the modules raise themselves, with their message;
    of a formatted message the constant part is kept. *)
Inductive exn : Type :=
  | ValueError (msg : string).

Inductive result (A : Type) : Type :=
  | Ok (a : A)
  | Raise (e : exn).
Arguments Ok {A} a.
Arguments Raise {A} e.

Section Builtins.
Context {A : Type}.

(** [lst.sort(key=...)] : a stable sort by an integer key.  The element
    [x] is put in front of the first element whose key is not smaller,
    so that elements with equal keys keep their relative order. *)
Fixpoint insert_by_key (key : A → Z) (x : A) (l : list A) : list A :=
  match l with
  | [] => [x]
  | y :: l' =>
      if key x <=? key y then x :: y :: l'
      else y :: insert_by_key key x l'
  end.

Fixpoint sort_by_key (key : A → Z) (l : list A) : list A :=
  match l with
  | [] => []
  | x :: l' => insert_by_key key x (sort_by_key key l')
  end.

(** [min(x :: l, key=...)] : the first element with the least key. *)
Fixpoint min_by_key (key : A → Z) (x : A) (l : list A) : A :=
  match l with
  | [] => x
  | y :: l' =>
      if key y <? key x then min_by_key key y l'
      else min_by_key key x l'
  end.

(** [lst.remove(x)] on a list that holds [x]: drops its first
    occurrence. *)
Fixpoint remove_first `{EqDecision A} (x : A) (l : list A) : list A :=
  match l with
  | [] => []
  | y :: l' => if decide (x = y) then l' else y :: remove_first x l'
  end.
End Builtins.

(** [s.split(sep)] for a one-character separator. *)
Fixpoint split (sep : ascii) (s : string) : list string :=
  match s with
  | EmptyString => [EmptyString]
  | String c s' =>
      if Ascii.eqb c sep then EmptyString :: split sep s'
      else match split sep s' with
           | [] => [String c EmptyString]
           | p :: ps => String c p :: ps
           end
  end.

(** [full_header.split("|")[-1]] *)
Definition short_header (full_header : string) : string :=
  List.last (split "|" full_header) EmptyString.

(** [needle in hay] on strings. *)
Fixpoint contains (needle hay : string) : bool :=
  String.prefix needle hay ||
  match hay with
  | EmptyString => false
  | String _ hay' => contains needle hay'
  end.

(** [str.upper()] on ASCII text. *)
Definition upper_ascii (c : ascii) : ascii :=
  let n := N_of_ascii c in
  if ((97 <=? n) && (n <=? 122))%N then ascii_of_N (n - 32) else c.

Fixpoint upper (s : string) : string :=
  match s with
  | EmptyString => EmptyString
  | String c s' => String (upper_ascii c) (upper s')
  end.

(** ** compare/domains.py *)

Module Domains.

(** [Domain = Tuple[str, str, int, int]] : (predictor, domain_name,
    start, end). *)
Abbreviation Domain := (string * string * Z * Z)%type.

(** A paired common domain :
    [(name, (s1, e1), (s2, e2), src1, src2)]. *)
Abbreviation Common := (string * (Z * Z) * (Z * Z) * string * string)%type.

(** [by_name2[name].append(d)] on the [defaultdict(list)]; the keys keep
    their insertion order, which [by_name2.values()] later relies on. *)
Fixpoint bucket_append (name : string) (d : Domain)
    (by_name : list (string * list Domain)) : list (string * list Domain) :=
  match by_name with
  | [] => [(name, [d])]
  | (k, dlist) :: rest =>
      if decide (k = name) then (k, dlist ++ [d]) :: rest
      else (k, dlist) :: bucket_append name d rest
  end.

(** [by_name2[name]] when [name in by_name2], [None] otherwise. *)
Fixpoint bucket_lookup (name : string)
    (by_name : list (string * list Domain)) : option (list Domain) :=
  match by_name with
  | [] => None
  | (k, dlist) :: rest =>
      if decide (k = name) then Some dlist else bucket_lookup name rest
  end.

Definition index_by_name (domains2 : list Domain)
    : list (string * list Domain) :=
  fold_left (λ by_name2 d, bucket_append d.1.1.2 d by_name2) domains2 [].

(** The body of [for d1 in domains1], on the local variables
    [(common, unique1, used_d2)]. *)
Definition match_step (by_name2 : list (string * list Domain))
    (st : list Common * list Domain * gset Domain) (d1 : Domain)
    : list Common * list Domain * gset Domain :=
  let '(common, unique1, used_d2) := st in
  let '(src1, name1, s1, e1) := d1 in
  match bucket_lookup name1 by_name2 with
  | None => (common, unique1 ++ [d1], used_d2)
  | Some bucket =>
      let candidates := filter (λ d2, d2 ∉ used_d2) bucket in
      match candidates with
      | [] => (common, unique1 ++ [d1], used_d2)
      | c :: cs =>
          let d2 := min_by_key (λ x : Domain, Z.abs (x.1.2 - s1)) c cs in
          (common ++ [(name1, (s1, e1), (d2.1.2, d2.2), src1, d2.1.1.1)],
           unique1,
           {[d2]} ∪ used_d2)
      end
  end.

Definition match_loop (domains1 domains2 : list Domain)
    : list Common * list Domain * gset Domain :=
  fold_left (match_step (index_by_name domains2)) domains1 ([], [], ∅).

Definition find_common_domains (domains1 domains2 : list Domain)
    : list Common * list Domain * list Domain :=
  let by_name2 := index_by_name domains2 in
  let '(common, unique1, used_d2) := match_loop domains1 domains2 in
  let unique2 :=
    flat_map (λ kv : string * list Domain,
                filter (λ d, d ∉ used_d2) kv.2) by_name2 in
  (common, unique1, unique2).

(** [summary[name]] on the [defaultdict] : the entry, or the default
    [{"Δstart": 0, "Δend": 0}]. *)
Definition entry (summary : gmap string (Z * Z)) (name : string) : Z * Z :=
  default (0, 0) (summary !! name).

Definition summarize_step (summary : gmap string (Z * Z)) (c : Common)
    : gmap string (Z * Z) :=
  let '(name, (s1, e1), (s2, e2), _, _) := c in
  let ds := Z.abs (s1 - s2) in
  let de := Z.abs (e1 - e2) in
  let summary1 :=
    <[name := (Z.max (entry summary name).1 ds, (entry summary name).2)]>
      summary in
  <[name := ((entry summary1 name).1, Z.max (entry summary1 name).2 de)]>
    summary1.

Definition summarize_distances (common : list Common)
    : gmap string (Z * Z) :=
  fold_left summarize_step common ∅.

(** The two annotations a paired record was built from. *)
Definition first_of (c : Common) : Domain :=
  let '(name, (s1, e1), _, src1, _) := c in (src1, name, s1, e1).

Definition second_of (c : Common) : Domain :=
  let '(name, _, (s2, e2), _, src2) := c in (src2, name, s2, e2).

End Domains.

(** ** compare/ps_sites.py *)

Module PsSites.
Section WithScore.

(** The scores are Python floats.  Nothing but their comparisons is used:
    [==] (inside tuple equality) and [>=].  They are kept abstract: a type
    with a decidable equality and a boolean [>=] of which nothing is
    assumed (the not-a-number, which [==] does not relate to itself, is
    outside the embedding).  [int(...)] and [float(...)] are the two
    Python parsers; a [ValueError] of theirs is [None]. *)
Context {score : Type} `{EqDecision score}.
Variable score_geb : score → score → bool.
Variable int_of_string : string → option Z.
Variable float_of_string : string → option score.

(** A site : [(position, residue, score)]. *)
Abbreviation Site := (Z * string * score)%type.

(** A common site : [(position, residue, score1, score2)]. *)
Abbreviation CommonSite := (Z * string * score * score)%type.

(** The allowed residues, from the base name of the TSV file. *)
Definition allowed_residues (filename : string) : gset string :=
  if contains "_Y" filename then {["Y"]}
  else if contains "_SorT" filename then {["S"; "T"]}
  else {["S"; "T"; "Y"]}.

(** The body of [for row in reader], on [results]. *)
Definition extract_row (headers_set allowed : gset string)
    (results : gmap string (list Site)) (row : list string)
    : gmap string (list Site) :=
  match row with
  | full_header :: position_field :: residue_field :: score_field :: _ =>
      let short := short_header full_header in
      match int_of_string position_field with
      | None => results
      | Some position =>
          let residue := upper residue_field in
          match float_of_string score_field with
          | None => results
          | Some sc =>
              if decide (residue ∉ allowed) then results
              else if decide (short ∈ headers_set) then
                <[short := default [] (results !! short)
                             ++ [(position, residue, sc)]]> results
              else results
          end
      end
  | _ => results
  end.

(** [extract_sites] : [filename] is the base name of the TSV file and
    [rows] what [csv.reader] yields from it; the errors of the file system
    are outside the embedding. *)
Definition extract_sites (filename : string) (rows : list (list string))
    (headers : list string) : result (gmap string (list Site)) :=
  let headers_set : gset string := list_to_set headers in
  let allowed := allowed_residues filename in
  let results := fold_left (extract_row headers_set allowed) rows ∅ in
  if decide (results = ∅) then
    Raise (ValueError "No phosphorylation sites found for: ")
  else Ok results.

Definition filter_sites_by_cutoff (sites : list Site) (cutoff : score)
    : list Site :=
  List.filter (λ s : Site, score_geb s.2 cutoff) sites.

(** The inner [for s2 in sites2] with its [break] : the first entry of
    [sites2] at the position and residue looked for. *)
Fixpoint first_match (pos1 : Z) (res1 : string) (sites2 : list Site)
    : option Site :=
  match sites2 with
  | [] => None
  | s2 :: rest =>
      let '(pos2, res2, score2) := s2 in
      if decide (pos1 = pos2 ∧ res1 = res2) then Some s2
      else first_match pos1 res1 rest
  end.

(** The body of [for pos1, res1, score1 in sites1], on the local variables
    [(common, unique1, unique2)]. *)
Definition site_step (sites2 : list Site)
    (st : list CommonSite * list Site * list Site) (s1 : Site)
    : list CommonSite * list Site * list Site :=
  let '(common, unique1, unique2) := st in
  let '(pos1, res1, score1) := s1 in
  match first_match pos1 res1 sites2 with
  | Some s2 =>
      (common ++ [(pos1, res1, score1, s2.2)],
       unique1,
       if decide (s2 ∈ unique2) then remove_first s2 unique2 else unique2)
  | None => (common, unique1 ++ [(pos1, res1, score1)], unique2)
  end.

Definition site_loop (sites1 sites2 : list Site)
    : list CommonSite * list Site * list Site :=
  fold_left (site_step sites2) sites1 ([], [], sites2).

Definition find_common_sites (sites1 sites2 : list Site)
    : list CommonSite * list Site * list Site :=
  let '(common, unique1, unique2) := site_loop sites1 sites2 in
  (sort_by_key (λ x : CommonSite, x.1.1.1) common,
   sort_by_key (λ x : Site, x.1.1) unique1,
   sort_by_key (λ x : Site, x.1.1) unique2).

(** [compare_phospho_sites] : the value is what [save_to_tsv] is given to
    write, the three collections of the report. *)
Definition compare_phospho_sites (filename : string)
    (rows : list (list string)) (headers : list string) (cutoff : score)
    : result (list CommonSite * list Site * list Site) :=
  match headers with
  | [header1; header2] =>
      match extract_sites filename rows headers with
      | Raise e => Raise e
      | Ok site_dict =>
          let sites1 :=
            filter_sites_by_cutoff (default [] (site_dict !! header1)) cutoff in
          let sites2 :=
            filter_sites_by_cutoff (default [] (site_dict !! header2)) cutoff in
          Ok (find_common_sites sites1 sites2)
      end
  | _ => Raise (ValueError "Please provide exactly two sequence headers for comparison.")
  end.

(** The two annotations a common record was built from. *)
Definition first_of (c : CommonSite) : Site :=
  let '(pos, res, score1, _) := c in (pos, res, score1).

Definition second_of (c : CommonSite) : Site :=
  let '(pos, res, _, score2) := c in (pos, res, score2).

End WithScore.
End PsSites.

(** ** compare/msa_ps_sites.py *)

Module MsaPsSites.

(** [aa not in ("-", ".")] *)
Definition is_gap (aa : ascii) : bool :=
  Ascii.eqb aa "-" || Ascii.eqb aa ".".

(** [for msa_idx, aa in enumerate(aligned_seq, start=1)], on the local
    variables [mapping] and [raw_pos]. *)
Fixpoint map_loop (aligned_seq : string) (msa_idx : Z)
    (mapping : gmap Z Z) (raw_pos : Z) : gmap Z Z :=
  match aligned_seq with
  | EmptyString => mapping
  | String aa rest =>
      if is_gap aa then map_loop rest (msa_idx + 1) mapping raw_pos
      else map_loop rest (msa_idx + 1)
             (<[raw_pos + 1 := msa_idx]> mapping) (raw_pos + 1)
  end.

Definition map_seq_to_msa_positions (aligned_seq : string) : gmap Z Z :=
  map_loop aligned_seq 1 ∅ 0.

Section WithScore.
Context {score : Type} `{EqDecision score}.
Variable score_geb : score → score → bool.
Variable int_of_string : string → option Z.
Variable float_of_string : string → option score.

(** [Site = Tuple[int, str, float]] : (raw_pos, residue, score). *)
Abbreviation Site := (Z * string * score)%type.

(** [MappedSite = Tuple[int, int, str, float]] :
    (msa_col, raw_pos, residue, score). *)
Abbreviation MappedSite := (Z * Z * string * score)%type.

(** A common site :
    [(msa_col, raw_pos1, raw_pos2, residue, score1, score2)]. *)
Abbreviation CommonSite := (Z * Z * Z * string * score * score)%type.

Definition allowed_residues (filename : string) : gset string :=
  if contains "_Y" filename then {["Y"]}
  else if contains "_SorT" filename then {["S"; "T"]}
  else {["S"; "T"; "Y"]}.

Definition extract_row (headers_set allowed : gset string)
    (results : gmap string (list Site)) (row : list string)
    : gmap string (list Site) :=
  match row with
  | full_header :: position_field :: residue_field :: score_field :: _ =>
      let short := short_header full_header in
      match int_of_string position_field with
      | None => results
      | Some position =>
          let residue := upper residue_field in
          match float_of_string score_field with
          | None => results
          | Some sc =>
              if decide (residue ∉ allowed) then results
              else if decide (short ∈ headers_set) then
                <[short := default [] (results !! short)
                             ++ [(position, residue, sc)]]> results
              else results
          end
      end
  | _ => results
  end.

(** [results.setdefault(h, [])] *)
Definition setdefault (results : gmap string (list Site)) (h : string)
    : gmap string (list Site) :=
  match results !! h with
  | Some _ => results
  | None => <[h := []]> results
  end.

Definition extract_sites (filename : string) (rows : list (list string))
    (headers : list string) : gmap string (list Site) :=
  let headers_set : gset string := list_to_set headers in
  let allowed := allowed_residues filename in
  let results := fold_left (extract_row headers_set allowed) rows ∅ in
  fold_left setdefault headers results.

(** The body of [for raw_pos, residue, score in sites], on [converted]. *)
Definition convert_step (pos_map : gmap Z Z) (converted : list MappedSite)
    (s : Site) : list MappedSite :=
  let '(raw_pos, residue, sc) := s in
  match pos_map !! raw_pos with
  | None => converted
  | Some msa_col => converted ++ [(msa_col, raw_pos, residue, sc)]
  end.

Definition convert_sites_to_msa (sites : list Site) (pos_map : gmap Z Z)
    : list MappedSite :=
  fold_left (convert_step pos_map) sites [].

Definition filter_sites_by_cutoff (sites : list Site) (cutoff : score)
    : list Site :=
  List.filter (λ s : Site, score_geb s.2 cutoff) sites.

(** The dict comprehension building [index2] : a later entry of [mapped2]
    overwrites an earlier one at the same key. *)
Definition build_index (mapped2 : list MappedSite)
    : gmap (Z * string) (Z * score) :=
  fold_left
    (λ index2 (s : MappedSite),
       let '(msa_col, raw_pos, residue, sc) := s in
       <[(msa_col, residue) := (raw_pos, sc)]> index2)
    mapped2 ∅.

(** The body of [for msa_col, raw_pos1, residue1, score1 in mapped1], on
    the local variables [(common, unique1, matched_msa_keys)]. *)
Definition msa_step (index2 : gmap (Z * string) (Z * score))
    (st : list CommonSite * list MappedSite * gset (Z * string))
    (s1 : MappedSite)
    : list CommonSite * list MappedSite * gset (Z * string) :=
  let '(common, unique1, matched_msa_keys) := st in
  let '(msa_col, raw_pos1, residue1, score1) := s1 in
  let key := (msa_col, residue1) in
  match index2 !! key with
  | Some (raw_pos2, score2) =>
      (common ++ [(msa_col, raw_pos1, raw_pos2, residue1, score1, score2)],
       unique1,
       {[key]} ∪ matched_msa_keys)
  | None =>
      (common, unique1 ++ [(msa_col, raw_pos1, residue1, score1)],
       matched_msa_keys)
  end.

Definition msa_loop (mapped1 mapped2 : list MappedSite)
    : list CommonSite * list MappedSite * gset (Z * string) :=
  fold_left (msa_step (build_index mapped2)) mapped1 ([], [], ∅).

Definition find_common_sites_msa (mapped1 mapped2 : list MappedSite)
    : list CommonSite * list MappedSite * list MappedSite :=
  let '(common, unique1, matched_msa_keys) := msa_loop mapped1 mapped2 in
  let unique2 :=
    filter (λ s : MappedSite, (s.1.1.1, s.1.2) ∉ matched_msa_keys) mapped2 in
  (sort_by_key (λ x : CommonSite, x.1.1.1.1.1) common,
   sort_by_key (λ x : MappedSite, x.1.1.1) unique1,
   sort_by_key (λ x : MappedSite, x.1.1.1) unique2).

(** [compare_phospho_sites] : [msa] is what [parse_fasta] returned; the
    value is what [save_to_tsv] is given to write. *)
Definition compare_phospho_sites (filename : string)
    (rows : list (list string)) (msa : gmap string string)
    (headers : list string) (cutoff : score)
    : result (list CommonSite * list MappedSite * list MappedSite) :=
  match headers with
  | [header1; header2] =>
      match msa !! header1, msa !! header2 with
      | Some aligned1, Some aligned2 =>
          let pos_map1 := map_seq_to_msa_positions aligned1 in
          let pos_map2 := map_seq_to_msa_positions aligned2 in
          let site_dict := extract_sites filename rows headers in
          let found1 := default [] (site_dict !! header1) in
          let found2 := default [] (site_dict !! header2) in
          if bool_decide (found1 = [] ∧ found2 = []) then
            Raise (ValueError "No phosphorylation sites             found for either header in the TSV.")
          else
            let raw_sites1 := filter_sites_by_cutoff found1 cutoff in
            let raw_sites2 := filter_sites_by_cutoff found2 cutoff in
            let mapped1 := convert_sites_to_msa raw_sites1 pos_map1 in
            let mapped2 := convert_sites_to_msa raw_sites2 pos_map2 in
            if bool_decide (mapped1 = [] ∧ mapped2 = []) then
              Raise (ValueError "After mapping to the MSA         and applying the cutoff no sites remain.")
            else Ok (find_common_sites_msa mapped1 mapped2)
      | _, _ =>
          Raise (ValueError "The following headers             were not found in the MSA: ")
      end
  | _ => Raise (ValueError "Please provide exactly             two sequence headers for comparison.")
  end.

(** The two annotations a common record was built from. *)
Definition first_of (c : CommonSite) : MappedSite :=
  let '(msa_col, raw1, _, residue, score1, _) := c in
  (msa_col, raw1, residue, score1).

Definition second_of (c : CommonSite) : MappedSite :=
  let '(msa_col, _, raw2, residue, _, score2) := c in
  (msa_col, raw2, residue, score2).

End WithScore.
End MsaPsSites.

(** ** The rest of the three modules

    The functions of the three files that read the alignment, extract the
    domains and write the reports.  They reuse the definitions above. *)

(** [line.rstrip("\n")] : the line without its trailing newlines. *)
Definition newline : ascii := "010"%char.

Fixpoint rstrip_newlines (s : string) : string :=
  match s with
  | EmptyString => EmptyString
  | String c s' =>
      match rstrip_newlines s' with
      | EmptyString =>
          if Ascii.eqb c newline then EmptyString else String c EmptyString
      | r => String c r
      end
  end.

(** [c.isspace()] on ASCII : tab, line feed, vertical tab, form feed,
    carriage return, the four separators 28..31 and the space. *)
Definition is_space (c : ascii) : bool :=
  let n := N_of_ascii c in
  (((9 <=? n) && (n <=? 13)) || ((28 <=? n) && (n <=? 32)))%N.

Fixpoint lstrip (s : string) : string :=
  match s with
  | EmptyString => EmptyString
  | String c s' => if is_space c then lstrip s' else s
  end.

Fixpoint rstrip (s : string) : string :=
  match s with
  | EmptyString => EmptyString
  | String c s' =>
      match rstrip s' with
      | EmptyString => if is_space c then EmptyString else String c EmptyString
      | r => String c r
      end
  end.

(** [s.strip()] on ASCII text. *)
Definition strip (s : string) : string := rstrip (lstrip s).

(** A value handed to [csv.writer.writerow] : a string, an integer or a
    float; the writer turns each into text. *)
Inductive cell (score : Type) : Type :=
  | CStr (s : string)
  | CInt (z : Z)
  | CFloat (x : score).
Arguments CStr {score} s.
Arguments CInt {score} z.
Arguments CFloat {score} x.

Module DomainsRest.
Section WithParsers.
Variable int_of_string : string → option Z.

Abbreviation Domain := (string * string * Z * Z)%type.
Abbreviation Common := (string * (Z * Z) * (Z * Z) * string * string)%type.

(** The body of [for row in reader] of [extract_headers], on [results]. *)
Definition extract_row (headers_set : gset string)
    (results : gmap string (list Domain)) (row : list string)
    : gmap string (list Domain) :=
  match row with
  | full_header :: _ :: _ :: predictor :: _ :: domain
      :: start_field :: end_field :: _ =>
      let short := short_header full_header in
      if decide (short ∉ headers_set) then results
      else
        match int_of_string start_field, int_of_string end_field with
        | Some start, Some end_ =>
            <[short := default [] (results !! short)
                         ++ [(predictor, domain, start, end_)]]> results
        | _, _ => results
        end
  | _ => results
  end.

(** [extract_headers] : [rows] is what [csv.reader] yields; the errors of
    the file system are outside the embedding. *)
Definition extract_headers (rows : list (list string))
    (headers : list string) : result (gmap string (list Domain)) :=
  let headers_set : gset string := list_to_set headers in
  let results := fold_left (extract_row headers_set) rows ∅ in
  if decide (results = ∅) then
    Raise (ValueError "No domains found for headers: ")
  else Ok results.

(** [summarize_distances] with the iteration order of its result : the
    [defaultdict] as an insertion-ordered association list.  A label is
    inserted, with the default entry, the first time it is read. *)
Fixpoint update_entry (name : string) (f : Z * Z → Z * Z)
    (summary : list (string * (Z * Z))) : list (string * (Z * Z)) :=
  match summary with
  | [] => [(name, f (0, 0))]
  | (k, v) :: rest =>
      if decide (k = name) then (k, f v) :: rest
      else (k, v) :: update_entry name f rest
  end.

Definition summarize_step (summary : list (string * (Z * Z))) (c : Common)
    : list (string * (Z * Z)) :=
  let '(name, (s1, e1), (s2, e2), _, _) := c in
  let ds := Z.abs (s1 - s2) in
  let de := Z.abs (e1 - e2) in
  let summary1 :=
    update_entry name (λ v, (Z.max v.1 ds, v.2)) summary in
  update_entry name (λ v, (v.1, Z.max v.2 de)) summary1.

Definition summarize_distances (common : list Common)
    : list (string * (Z * Z)) :=
  fold_left summarize_step common [].

(** [save_to_tsv] : the rows given to the writer, in order. *)
Definition header_row : list (cell Empty_set) :=
  [CStr "Category"; CStr "Domain"; CStr "Protein1_Source";
   CStr "Protein1_Start"; CStr "Protein1_End"; CStr "Protein2_Source";
   CStr "Protein2_Start"; CStr "Protein2_End"; CStr "Delta_Start";
   CStr "Delta_End"].

Definition common_row (c : Common) : list (cell Empty_set) :=
  let '(name, (s1, e1), (s2, e2), src1, src2) := c in
  [CStr "Common"; CStr name; CStr src1; CInt s1; CInt e1;
   CStr src2; CInt s2; CInt e2;
   CInt (Z.abs (s1 - s2)); CInt (Z.abs (e1 - e2))].

Definition unique1_row (header1 : string) (d : Domain)
    : list (cell Empty_set) :=
  let '(predictor, domain, start, end_) := d in
  [CStr ("Unique_to_" ++ header1); CStr domain; CStr predictor;
   CInt start; CInt end_; CStr ""; CStr ""; CStr ""; CStr ""; CStr ""].

Definition unique2_row (header2 : string) (d : Domain)
    : list (cell Empty_set) :=
  let '(predictor, domain, start, end_) := d in
  [CStr ("Unique_to_" ++ header2); CStr domain; CStr ""; CStr ""; CStr "";
   CStr predictor; CInt start; CInt end_; CStr ""; CStr ""].

Definition summary_row (kv : string * (Z * Z)) : list (cell Empty_set) :=
  [CStr "Summary"; CStr kv.1; CStr ""; CStr ""; CStr "";
   CStr ""; CStr ""; CStr ""; CInt kv.2.1; CInt kv.2.2].

Definition save_to_tsv (header1 header2 : string) (common : list Common)
    (unique1 unique2 : list Domain) (summary : list (string * (Z * Z)))
    : list (list (cell Empty_set)) :=
  header_row
  :: map common_row common
  ++ map (unique1_row header1) unique1
  ++ map (unique2_row header2) unique2
  ++ map summary_row summary.

(** [compare_domains] : the value is the list of rows written. *)
Definition compare_domains (rows : list (list string))
    (headers : list string) : result (list (list (cell Empty_set))) :=
  match headers with
  | [header1; header2] =>
      match extract_headers rows headers with
      | Raise e => Raise e
      | Ok domain_dict =>
          let domains1 := default [] (domain_dict !! header1) in
          let domains2 := default [] (domain_dict !! header2) in
          let '(common, only1, only2) :=
            Domains.find_common_domains domains1 domains2 in
          let summary := summarize_distances common in
          Ok (save_to_tsv header1 header2 common only1 only2 summary)
      end
  | _ => Raise (ValueError "Provide exactly two sequence headers.")
  end.

End WithParsers.
End DomainsRest.

Module PsSitesRest.
Section WithScore.
Context {score : Type} `{EqDecision score}.
Variable score_geb : score → score → bool.
Variable int_of_string : string → option Z.
Variable float_of_string : string → option score.

Abbreviation Site := (Z * string * score)%type.
Abbreviation CommonSite := (Z * string * score * score)%type.

(** [save_to_tsv] : the rows given to the writer, in order. *)
Definition header_row (header1 header2 : string) : list (cell score) :=
  [CStr "Category"; CStr "Position"; CStr "Residue";
   CStr (header1 ++ "_Score"); CStr (header2 ++ "_Score")].

Definition common_row (c : CommonSite) : list (cell score) :=
  let '(pos, res, score1, score2) := c in
  [CStr "Common"; CInt pos; CStr res; CFloat score1; CFloat score2].

Definition unique1_row (header1 : string) (s : Site) : list (cell score) :=
  let '(pos, res, sc) := s in
  [CStr ("Unique_to_" ++ header1); CInt pos; CStr res; CFloat sc; CStr ""].

Definition unique2_row (header2 : string) (s : Site) : list (cell score) :=
  let '(pos, res, sc) := s in
  [CStr ("Unique_to_" ++ header2); CInt pos; CStr res; CStr ""; CFloat sc].

Definition save_to_tsv (header1 header2 : string) (common : list CommonSite)
    (unique1 unique2 : list Site) : list (list (cell score)) :=
  header_row header1 header2
  :: map common_row common
  ++ map (unique1_row header1) unique1
  ++ map (unique2_row header2) unique2.

(** [compare_phospho_sites], down to the rows written. *)
Definition compare_phospho_sites (filename : string)
    (rows : list (list string)) (headers : list string) (cutoff : score)
    : result (list (list (cell score))) :=
  match headers with
  | [header1; header2] =>
      match PsSites.compare_phospho_sites score_geb int_of_string
              float_of_string filename rows headers cutoff with
      | Raise e => Raise e
      | Ok (common, unique1, unique2) =>
          Ok (save_to_tsv header1 header2 common unique1 unique2)
      end
  | _ => Raise (ValueError "Please provide exactly two sequence headers for comparison.")
  end.

End WithScore.
End PsSitesRest.

Module MsaPsSitesRest.

(** [parse_fasta] : [lines] are the lines of the file as the iteration
    over the file object yields them, each with its line end.  The local
    variables are [records] and, once a header line was read, the
    [short_header] of the last one ([header is None] before that). *)
Definition duplicate_header_message (short : string) : string :=
  "Duplicate FASTA                             header found: " ++ short.

(** The message of the other [ValueError] is the value of a comparison
    of two string literals, [True]. *)
Definition no_header_message : string := "True".

Fixpoint parse_loop (lines : list string)
    (records : gmap string (list string)) (current : option string)
    : result (gmap string (list string)) :=
  match lines with
  | [] => Ok records
  | raw_line :: rest =>
      match rstrip_newlines raw_line with
      | EmptyString => parse_loop rest records current
      | String c tail as line =>
          if Ascii.eqb c ">" then
            let header := strip tail in
            let short := short_header header in
            match records !! short with
            | Some _ => Raise (ValueError (duplicate_header_message short))
            | None => parse_loop rest (<[short := []]> records) (Some short)
            end
          else
            match current with
            | None => Raise (ValueError no_header_message)
            | Some short =>
                parse_loop rest
                  (<[short := default [] (records !! short) ++ [strip line]]>
                     records)
                  current
            end
      end
  end.

Definition parse_fasta (lines : list string) : result (gmap string string) :=
  match parse_loop lines ∅ None with
  | Raise e => Raise e
  | Ok records => Ok (String.concat "" <$> records)
  end.

Section WithScore.
Context {score : Type} `{EqDecision score}.
Variable score_geb : score → score → bool.
Variable int_of_string : string → option Z.
Variable float_of_string : string → option score.

Abbreviation MappedSite := (Z * Z * string * score)%type.
Abbreviation CommonSite := (Z * Z * Z * string * score * score)%type.

(** [save_to_tsv] : the rows given to the writer, in order. *)
Definition header_row (header1 header2 : string) : list (cell score) :=
  [CStr "Category"; CStr "MSA_col"; CStr "Residue";
   CStr (header1 ++ "_RawPos"); CStr (header1 ++ "_Score");
   CStr (header2 ++ "_RawPos"); CStr (header2 ++ "_Score")].

Definition common_row (c : CommonSite) : list (cell score) :=
  let '(msa_col, raw1, raw2, residue, score1, score2) := c in
  [CStr "Common"; CInt msa_col; CStr residue;
   CInt raw1; CFloat score1; CInt raw2; CFloat score2].

Definition unique1_row (header1 : string) (s : MappedSite)
    : list (cell score) :=
  let '(msa_col, raw, residue, sc) := s in
  [CStr ("Unique_to_" ++ header1); CInt msa_col; CStr residue;
   CInt raw; CFloat sc; CStr ""; CStr ""].

Definition unique2_row (header2 : string) (s : MappedSite)
    : list (cell score) :=
  let '(msa_col, raw, residue, sc) := s in
  [CStr ("Unique_to_" ++ header2); CInt msa_col; CStr residue;
   CStr ""; CStr ""; CInt raw; CFloat sc].

Definition save_to_tsv (header1 header2 : string) (common : list CommonSite)
    (unique1 unique2 : list MappedSite) : list (list (cell score)) :=
  header_row header1 header2
  :: map common_row common
  ++ map (unique1_row header1) unique1
  ++ map (unique2_row header2) unique2.

(** [compare_phospho_sites], from the lines of the alignment file down to
    the rows written. *)
Definition compare_phospho_sites (filename : string)
    (rows : list (list string)) (msa_lines : list string)
    (headers : list string) (cutoff : score)
    : result (list (list (cell score))) :=
  match headers with
  | [header1; header2] =>
      match parse_fasta msa_lines with
      | Raise e => Raise e
      | Ok msa =>
          match MsaPsSites.compare_phospho_sites score_geb int_of_string
                  float_of_string filename rows msa headers cutoff with
          | Raise e => Raise e
          | Ok (common, unique1, unique2) =>
              Ok (save_to_tsv header1 header2 common unique1 unique2)
          end
      end
  | _ => Raise (ValueError "Please provide exactly             two sequence headers for comparison.")
  end.

End WithScore.
End MsaPsSitesRest.

(** ** Vocabulary of the statements *)

(** Ascending order of the sort keys. *)
Definition key_le {A} (key : A → Z) (x y : A) : Prop := key x ≤ key y.

(** The number of characters of an aligned string that are not gaps. *)
Fixpoint count_non_gap (aligned_seq : string) : Z :=
  match aligned_seq with
  | EmptyString => 0
  | String aa rest =>
      if MsaPsSites.is_gap aa then count_non_gap rest
      else 1 + count_non_gap rest
  end.

(** Raw positions in increasing order sit in increasing columns. *)
Definition increasing (mapping : gmap Z Z) : Prop :=
  ∀ p1 p2 c1 c2,
    mapping !! p1 = Some c1 → mapping !! p2 = Some c2 → p1 < p2 → c1 < c2.

(** The label of a paired domain record and its two disagreements. *)
Definition label (c : Domains.Common) : string := c.1.1.1.1.

Definition delta_start (c : Domains.Common) : Z :=
  Z.abs (c.1.1.1.2.1 - c.1.1.2.1).

Definition delta_end (c : Domains.Common) : Z :=
  Z.abs (c.1.1.1.2.2 - c.1.1.2.2).

(** [d] is the greatest value of [delta] over the records of [common]
    labelled [name]. *)
Definition is_max_over (delta : Domains.Common → Z) (name : string)
    (common : list Domains.Common) (d : Z) : Prop :=
  (∃ c, c ∈ common ∧ label c = name ∧ delta c = d)
  ∧ (∀ c, c ∈ common → label c = name → delta c ≤ d).

(** The key of a mapped site in alignment mode : column and residue. *)
Definition msa_key {score : Type} (s : Z * Z * string * score)
    : Z * string :=
  (s.1.1.1, s.1.2).

(** The column of a mapped site and of a common record. *)
Definition msa_col_of {score : Type} (s : Z * Z * string * score) : Z :=
  s.1.1.1.

Definition common_col_of {score : Type}
    (c : Z * Z * Z * string * score * score) : Z :=
  c.1.1.1.1.1.

(** The key of a raw site : position and residue. *)
Definition site_key {score : Type} (s : Z * string * score) : Z * string :=
  (s.1.1, s.1.2).

(** The fields of a domain annotation. *)
Definition domain_source (d : Domains.Domain) : string := d.1.1.1.
Definition domain_label (d : Domains.Domain) : string := d.1.1.2.
Definition domain_start (d : Domains.Domain) : Z := d.1.2.
Definition domain_end (d : Domains.Domain) : Z := d.2.

(** The record pairing [d1] of the first list with [d2] of the second. *)
Definition pair_record (d1 d2 : Domains.Domain) : Domains.Common :=
  (domain_label d1, (domain_start d1, domain_end d1),
   (domain_start d2, domain_end d2), domain_source d1, domain_source d2).

(** The entries of the second list consumed while the entries [pre] of
    the first list were scanned : the set [used_d2] at that point.  It is
    a set of tuples, so consumption is by value. *)
Definition consumed (pre domains2 : list Domains.Domain)
    : gset Domains.Domain :=
  (Domains.match_loop pre domains2).2.

(** The entries of the second list that carry the label of [d1] and are
    not consumed yet, in the order of that list. *)
Definition candidates_for (d1 : Domains.Domain)
    (pre domains2 : list Domains.Domain) : list Domains.Domain :=
  filter (λ d2, domain_label d2 = domain_label d1
                ∧ d2 ∉ consumed pre domains2) domains2.

(** [d2] is the first entry of [candidates] whose start is nearest to
    that of [d1] : the entries before it are strictly farther, those
    after it are not nearer. *)
Definition nearest_first (d1 : Domains.Domain)
    (candidates : list Domains.Domain) (d2 : Domains.Domain) : Prop :=
  ∃ before after,
    candidates = before ++ d2 :: after
    ∧ (∀ y, y ∈ before →
         Z.abs (domain_start d2 - domain_start d1)
         < Z.abs (domain_start y - domain_start d1))
    ∧ (∀ y, y ∈ after →
         Z.abs (domain_start d2 - domain_start d1)
         ≤ Z.abs (domain_start y - domain_start d1)).

(** Fewer records carry the label of [d1] after the entries [pre] than the
    second list has entries with that label : as every record consumes
    one entry, an entry with the label of [d1] is still to be consumed. *)
Definition entries_left (d1 : Domains.Domain)
    (pre domains2 : list Domains.Domain) : Prop :=
  (length (filter (λ c, label c = domain_label d1)
             (Domains.find_common_domains pre domains2).1.1)
   < length (filter (λ d2, domain_label d2 = domain_label d1) domains2))%nat.

(** [d1], scanned after [pre], is paired whenever an entry is left. *)
Definition paired_when_entries_left (d1 : Domains.Domain)
    (pre domains2 : list Domains.Domain) : Prop :=
  entries_left d1 pre domains2 →
  ∃ d2,
    (Domains.find_common_domains (pre ++ [d1]) domains2).1.1
    = (Domains.find_common_domains pre domains2).1.1 ++ [pair_record d1 d2].

(** Two intervals that share no position. *)
Definition disjoint_intervals (d1 d2 : Domains.Domain) : Prop :=
  domain_end d1 < domain_start d2 ∨ domain_end d2 < domain_start d1.

(** The conservation law of a matcher result [(common, unique_A,
    unique_B)] for the inputs [list_A] and [list_B] : the count, and the
    two halves of the common records together with the unique entries
    giving back each input, every annotation once. *)
Definition conservation_count {A C : Type}
    (result : list C * list A * list A) (list_A list_B : list A) : Prop :=
  (length result.1.1 * 2 + length result.1.2 + length result.2
   = length list_A + length list_B)%nat.

Definition conserved {A C : Type} (first_of second_of : C → A)
    (result : list C * list A * list A) (list_A list_B : list A) : Prop :=
  conservation_count result list_A list_B
  ∧ map first_of result.1.1 ++ result.1.2 ≡ₚ list_A
  ∧ map second_of result.1.1 ++ result.2 ≡ₚ list_B.

(** How many common records have the entry [b] of the second list as
    their second half, and how many times [b] occurs in a list. *)
Definition uses_of {score : Type} `{EqDecision score}
    (b : Z * string * score) (common : list (Z * string * score * score))
    : nat :=
  length (filter (λ c, PsSites.second_of c = b) common).

Definition occurrences {score : Type} `{EqDecision score}
    (b : Z * string * score) (sites : list (Z * string * score)) : nat :=
  length (filter (λ x, x = b) sites).

(** Every entry of the second list is consumed by at most one match. *)
Definition consumed_at_most_once {score : Type} `{EqDecision score}
    (sites1 sites2 : list (Z * string * score)) : Prop :=
  ∀ b, (uses_of b (PsSites.find_common_sites sites1 sites2).1.1
        ≤ occurrences b sites2)%nat.

(** A parser of unsigned decimal numerals.  It stands for [int(...)] and,
    with integral scores, for [float(...)] when the examples are run. *)
Fixpoint parse_digits (s : string) (acc : Z) : option Z :=
  match s with
  | EmptyString => Some acc
  | String c s' =>
      let n := N_of_ascii c in
      if ((48 <=? n) && (n <=? 57))%N
      then parse_digits s' (10 * acc + Z.of_N (n - 48))
      else None
  end.

Definition numeral (s : string) : option Z :=
  match s with
  | EmptyString => None
  | _ => parse_digits s 0
  end.

(** The residues of the records of a report. *)
Definition raw_report_residues {score : Type}
    (report : list (Z * string * score * score)
              * list (Z * string * score) * list (Z * string * score))
    : list string :=
  map (λ c, c.1.1.2) report.1.1
  ++ map (λ s, s.1.2) report.1.2 ++ map (λ s, s.1.2) report.2.

Definition msa_report_residues {score : Type}
    (report : list (Z * Z * Z * string * score * score)
              * list (Z * Z * string * score) * list (Z * Z * string * score))
    : list string :=
  map (λ c, c.1.1.2) report.1.1
  ++ map (λ s, s.1.2) report.1.2 ++ map (λ s, s.1.2) report.2.

(** Every residue stored in [results] is an allowed one. *)
Definition residues_in {score : Type} (allowed : gset string)
    (results : gmap string (list (Z * string * score))) : Prop :=
  ∀ h sites s, results !! h = Some sites → s ∈ sites → s.1.2 ∈ allowed.


(** What one row of a domain file contributes to [extract_headers]. *)
Definition row_domain (int_of_string : string → option Z)
    (headers_set : gset string) (row : list string)
    : option (string * Domains.Domain) :=
  match row with
  | full_header :: _ :: _ :: predictor :: _ :: domain
      :: start_field :: end_field :: _ =>
      match int_of_string start_field, int_of_string end_field with
      | Some start, Some end_ =>
          if decide (short_header full_header ∈ headers_set)
          then Some (short_header full_header,
                     (predictor, domain, start, end_))
          else None
      | _, _ => None
      end
  | _ => None
  end.

(** The contributions to one header, in the order of the rows. *)
Definition for_header {A : Type} (h : string)
    (contributions : list (string * A)) : list A :=
  omap (λ hv : string * A, if decide (hv.1 = h) then Some hv.2 else None)
    contributions.

(** A loop body that appends the contribution of a row, if any, to the
    list of its header. *)
Definition appends {A : Type}
    (contribution : list string → option (string * A))
    (body : gmap string (list A) → list string → gmap string (list A))
    : Prop :=
  ∀ results row,
    body results row
    = match contribution row with
      | Some (h, x) => <[h := default [] (results !! h) ++ [x]]> results
      | None => results
      end.


Definition domain_contributions (int_of_string : string → option Z)
    (rows : list (list string)) (headers : list string)
    : list (string * Domains.Domain) :=
  omap (row_domain int_of_string (list_to_set headers)) rows.

(** The names of a list, each once, in the order of first occurrence :
    the order of the keys of a [dict] filled in the order of the list. *)
Fixpoint first_seen (names : list string) : list string :=
  match names with
  | [] => []
  | name :: rest => name :: filter (λ n, n ≠ name) (first_seen rest)
  end.

(** A paired record read from the side of the second protein. *)
Definition swap_record (c : Domains.Common) : Domains.Common :=
  let '(name, (s1, e1), (s2, e2), src1, src2) := c in
  (name, (s2, e2), (s1, e1), src2, src1).

(** The first cell of a row of a report. *)
Definition category {score : Type} (row : list (cell score))
    : option (cell score) :=
  head row.

(** The three kinds of lines of an alignment file, as [parse_fasta] tells
    them apart : a line that is empty once its line end is removed, a
    header line with its canonical header, any other line with its text
    stripped. *)
Inductive fasta_line : Type :=
  | Blank
  | Header (short : string)
  | Sequence (text : string).

Definition classify (raw_line : string) : fasta_line :=
  match rstrip_newlines raw_line with
  | EmptyString => Blank
  | String c tail as line =>
      if Ascii.eqb c ">" then Header (short_header (strip tail))
      else Sequence (strip line)
  end.

(** The canonical headers of the header lines, in the order of the file. *)
Definition header_names (lines : list string) : list string :=
  omap (λ raw_line,
          match classify raw_line with Header h => Some h | _ => None end)
    lines.

(** The sequence lines that come before the next header line. *)
Fixpoint block (lines : list string) : list string :=
  match lines with
  | [] => []
  | raw_line :: rest =>
      match classify raw_line with
      | Blank => block rest
      | Header _ => []
      | Sequence text => text :: block rest
      end
  end.

(** The sequence lines below the first header line named [h]. *)
Fixpoint body_of (h : string) (lines : list string) : option (list string) :=
  match lines with
  | [] => None
  | raw_line :: rest =>
      match classify raw_line with
      | Header s => if decide (s = h) then Some (block rest)
                    else body_of h rest
      | _ => body_of h rest
      end
  end.


(** * Properties *)

(** ** Facts on the built-ins *)

Section BuiltinFacts.
Context {A : Type}.
Implicit Types (key : A → Z) (l : list A).

Lemma insert_by_key_perm key x l : insert_by_key key x l ≡ₚ x :: l.
Proof.
  induction l as [|y l IH]; simpl; [done|].
  destruct (key x <=? key y); [done|].
  rewrite IH. apply Permutation_swap.
Qed.

Lemma sort_by_key_perm key l : sort_by_key key l ≡ₚ l.
Proof.
  induction l as [|x l IH]; simpl; [done|].
  by rewrite insert_by_key_perm, IH.
Qed.

Lemma sort_by_key_length key l : length (sort_by_key key l) = length l.
Proof. apply Permutation_length, sort_by_key_perm. Qed.

Lemma sort_by_key_elem_of key l x : x ∈ sort_by_key key l ↔ x ∈ l.
Proof. by rewrite sort_by_key_perm. Qed.

Lemma insert_by_key_sorted key x l :
  Sorted (key_le key) l → Sorted (key_le key) (insert_by_key key x l).
Proof.
  induction 1 as [|y l Hl IH Hy]; simpl.
  - repeat constructor.
  - destruct (Z.leb_spec (key x) (key y)) as [Hxy|Hxy].
    + constructor; [by constructor|]. by constructor.
    + constructor; [done|].
      destruct Hy as [|z l Hz]; simpl.
      * constructor. unfold key_le. lia.
      * destruct (key x <=? key z); constructor; unfold key_le in *; lia.
Qed.

Lemma sort_by_key_sorted key l : Sorted (key_le key) (sort_by_key key l).
Proof.
  induction l as [|x l IH]; simpl; [constructor|].
  by apply insert_by_key_sorted.
Qed.

Lemma fold_left_snoc {B} (f : B → A → B) l x b :
  fold_left f (l ++ [x]) b = f (fold_left f l b) x.
Proof. by rewrite fold_left_app. Qed.

Lemma list_filter_split (f : A → bool) l1 x l2 :
  List.filter f (l1 ++ x :: l2)
  = List.filter f l1 ++ (if f x then [x] else []) ++ List.filter f l2.
Proof.
  rewrite List.filter_app. simpl. by destruct (f x).
Qed.

Lemma list_filter_sublist (f : A → bool) l : sublist (List.filter f l) l.
Proof.
  induction l as [|x l IH]; simpl; [constructor|].
  destruct (f x); by constructor.
Qed.

Lemma list_filter_idem (f : A → bool) l :
  List.filter f (List.filter f l) = List.filter f l.
Proof.
  induction l as [|x l IH]; simpl; [done|].
  destruct (f x) eqn:Hx; simpl; rewrite ?Hx, IH; done.
Qed.

End BuiltinFacts.

(** ** The cutoff filter *)

(** C7.  [filter_sites_by_cutoff] (in both modules, which hold the same
    function) keeps a site exactly when its score is [>=] the cutoff: an
    entry of the input contributes itself when its score passes and
    nothing otherwise, the entries before and after it being filtered
    independently, so the input order is kept and the result is a
    sub-list of the input; every kept site passes the cutoff; filtering a
    second time with the same cutoff changes nothing. *)
Theorem filter_sites_by_cutoff_exact {score : Type}
    (score_geb : score → score → bool)
    (sites : list (Z * string * score)) (cutoff : score) :
  MsaPsSites.filter_sites_by_cutoff score_geb sites cutoff
  = PsSites.filter_sites_by_cutoff score_geb sites cutoff
  ∧ (∀ s, s ∈ PsSites.filter_sites_by_cutoff score_geb sites cutoff
          ↔ s ∈ sites ∧ score_geb s.2 cutoff = true)
  ∧ (∀ l1 s l2, sites = l1 ++ s :: l2 →
       PsSites.filter_sites_by_cutoff score_geb sites cutoff
       = PsSites.filter_sites_by_cutoff score_geb l1 cutoff
         ++ (if score_geb s.2 cutoff then [s] else [])
         ++ PsSites.filter_sites_by_cutoff score_geb l2 cutoff)
  ∧ sublist (PsSites.filter_sites_by_cutoff score_geb sites cutoff) sites
  ∧ PsSites.filter_sites_by_cutoff score_geb
      (PsSites.filter_sites_by_cutoff score_geb sites cutoff) cutoff
    = PsSites.filter_sites_by_cutoff score_geb sites cutoff.
Proof.
  unfold MsaPsSites.filter_sites_by_cutoff, PsSites.filter_sites_by_cutoff.
  split; [done|]. split; [|split; [|split]].
  - intros s. rewrite !list_elem_of_In, filter_In. done.
  - intros l1 s l2 ->.
    apply (list_filter_split (λ s : Z * string * score, score_geb s.2 cutoff)).
  - apply list_filter_sublist.
  - apply list_filter_idem.
Qed.

(** The cutoff example of the specification, with the scores in tenths. *)
Example filter_sites_by_cutoff_example :
  PsSites.filter_sites_by_cutoff Z.geb
    [(5, "S"%string, 3); (6, "T"%string, 9)] 5
  = [(6, "T"%string, 9)].
Proof. reflexivity. Qed.

(** ** Conversion to alignment coordinates *)

Section Convert.
Context {score : Type}.
Implicit Types (sites : list (Z * string * score)) (pos_map : gmap Z Z).

Lemma convert_fold_acc pos_map sites acc :
  fold_left (MsaPsSites.convert_step pos_map) sites acc
  = acc ++ MsaPsSites.convert_sites_to_msa sites pos_map.
Proof.
  unfold MsaPsSites.convert_sites_to_msa.
  revert acc. induction sites as [|[[p r] sc] sites IH]; intros acc.
  - simpl. by rewrite app_nil_r.
  - cbn [fold_left].
    rewrite (IH (MsaPsSites.convert_step pos_map acc (p, r, sc))).
    rewrite (IH (MsaPsSites.convert_step pos_map [] (p, r, sc))).
    unfold MsaPsSites.convert_step. destruct (pos_map !! p); simpl.
    + by rewrite <- app_assoc.
    + done.
Qed.

Lemma convert_cons pos_map raw_pos residue sc sites :
  MsaPsSites.convert_sites_to_msa ((raw_pos, residue, sc) :: sites) pos_map
  = match pos_map !! raw_pos with
    | None => []
    | Some msa_col => [(msa_col, raw_pos, residue, sc)]
    end ++ MsaPsSites.convert_sites_to_msa sites pos_map.
Proof.
  unfold MsaPsSites.convert_sites_to_msa at 1. simpl.
  rewrite convert_fold_acc. by destruct (pos_map !! raw_pos).
Qed.

Lemma convert_app pos_map sites1 sites2 :
  MsaPsSites.convert_sites_to_msa (sites1 ++ sites2) pos_map
  = MsaPsSites.convert_sites_to_msa sites1 pos_map
    ++ MsaPsSites.convert_sites_to_msa sites2 pos_map.
Proof.
  unfold MsaPsSites.convert_sites_to_msa at 1.
  rewrite fold_left_app. fold (MsaPsSites.convert_sites_to_msa sites1 pos_map).
  apply convert_fold_acc.
Qed.

Lemma convert_elem_of pos_map sites msa_col raw_pos residue sc :
  (msa_col, raw_pos, residue, sc) ∈ MsaPsSites.convert_sites_to_msa sites pos_map
  ↔ (raw_pos, residue, sc) ∈ sites ∧ pos_map !! raw_pos = Some msa_col.
Proof.
  induction sites as [|[[p r] v] sites IH].
  - split; [by intros ?%elem_of_nil | by intros [?%elem_of_nil _]].
  - rewrite convert_cons, elem_of_app, IH, elem_of_cons.
    destruct (pos_map !! p) as [c|] eqn:Hp.
    + rewrite list_elem_of_singleton. naive_solver.
    + rewrite elem_of_nil. naive_solver.
Qed.

End Convert.

(** C8.  [convert_sites_to_msa] looks every site up in the coordinate
    map.  An entry [(raw_pos, residue, score)] of the input contributes
    [(msa_col, raw_pos, residue, score)] when the map sends [raw_pos] to
    [msa_col] and nothing when [raw_pos] is absent, the entries before and
    after it being converted independently (so the input order is kept);
    a site at an absent position can be deleted from the input without
    changing the output; the output holds exactly the mapped sites.  The
    function is total: no input makes it raise. *)
Theorem convert_sites_to_msa_drops_unmapped {score : Type}
    (sites : list (Z * string * score)) (pos_map : gmap Z Z) :
  (∀ l1 raw_pos residue sc l2,
     sites = l1 ++ (raw_pos, residue, sc) :: l2 →
     MsaPsSites.convert_sites_to_msa sites pos_map
     = MsaPsSites.convert_sites_to_msa l1 pos_map
       ++ match pos_map !! raw_pos with
          | None => []
          | Some msa_col => [(msa_col, raw_pos, residue, sc)]
          end
       ++ MsaPsSites.convert_sites_to_msa l2 pos_map)
  ∧ (∀ l1 s l2,
     sites = l1 ++ s :: l2 → pos_map !! s.1.1 = None →
     MsaPsSites.convert_sites_to_msa sites pos_map
     = MsaPsSites.convert_sites_to_msa (l1 ++ l2) pos_map)
  ∧ (∀ msa_col raw_pos residue sc,
     (msa_col, raw_pos, residue, sc)
       ∈ MsaPsSites.convert_sites_to_msa sites pos_map
     ↔ (raw_pos, residue, sc) ∈ sites ∧ pos_map !! raw_pos = Some msa_col)
  ∧ sublist
      (map (λ m : Z * Z * string * score, (m.1.1.2, m.1.2, m.2))
           (MsaPsSites.convert_sites_to_msa sites pos_map))
      sites.
Proof.
  split; [|split; [|split]].
  - intros l1 p r v l2 ->. by rewrite convert_app, convert_cons.
  - intros l1 [[p r] v] l2 -> Hp. simpl in Hp.
    by rewrite !convert_app, convert_cons, Hp.
  - intros. apply convert_elem_of.
  - induction sites as [|[[p r] v] sites IH]; [constructor|].
    rewrite convert_cons. destruct (pos_map !! p); simpl.
    + by apply sublist_skip.
    + by apply sublist_cons.
Qed.

(** The example of the specification: the map covers the raw positions
    1..10 and a site sits at raw position 99. *)
Example convert_unmappable_site :
  MsaPsSites.convert_sites_to_msa
    [(99, "S"%string, 1); (3, "T"%string, 2)]
    (MsaPsSites.map_seq_to_msa_positions "MK-TYAAAAAAA")
  = [(4, 3, "T"%string, 2)].
Proof. vm_compute. reflexivity. Qed.

(** ** The coordinate mapper *)

Section CoordinateMap.
Implicit Types (mapping : gmap Z Z) (aligned_seq : string).

Lemma is_gap_iff aa : MsaPsSites.is_gap aa = true ↔ aa = "-"%char ∨ aa = "."%char.
Proof.
  unfold MsaPsSites.is_gap. rewrite orb_true_iff, !Ascii.eqb_eq. done.
Qed.

Lemma count_non_gap_nonneg aligned_seq : 0 ≤ count_non_gap aligned_seq.
Proof.
  induction aligned_seq as [|aa rest IH]; simpl; [done|].
  destruct (MsaPsSites.is_gap aa); lia.
Qed.

Lemma count_non_gap_all_gaps aligned_seq :
  (∀ aa, In aa (list_ascii_of_string aligned_seq) → MsaPsSites.is_gap aa = true) →
  count_non_gap aligned_seq = 0.
Proof.
  induction aligned_seq as [|aa rest IH]; simpl; [done|].
  intros Hall. rewrite (Hall aa) by auto. apply IH. auto.
Qed.

(** The invariant of the loop: when [raw_pos] non-gap characters have been
    seen, [mapping] is defined on [1..raw_pos], increasing, and all its
    columns are behind the current one. *)
Lemma map_loop_inv aligned_seq : ∀ msa_idx mapping raw_pos,
  0 ≤ raw_pos →
  (∀ p, is_Some (mapping !! p) ↔ 1 ≤ p ≤ raw_pos) →
  (∀ p c, mapping !! p = Some c → c < msa_idx) →
  increasing mapping →
  (∀ p, is_Some (MsaPsSites.map_loop aligned_seq msa_idx mapping raw_pos !! p)
        ↔ 1 ≤ p ≤ raw_pos + count_non_gap aligned_seq)
  ∧ increasing (MsaPsSites.map_loop aligned_seq msa_idx mapping raw_pos).
Proof.
  induction aligned_seq as [|aa rest IH]; intros msa_idx mapping raw_pos Hr Hdom Hlt Hinc.
  - simpl. split; [|done]. intros p. rewrite Hdom. lia.
  - simpl. destruct (MsaPsSites.is_gap aa).
    + apply IH; [done|done| |done]. intros p c Hp. specialize (Hlt p c Hp). lia.
    + replace (raw_pos + (1 + count_non_gap rest))
        with ((raw_pos + 1) + count_non_gap rest) by lia.
      apply IH.
      * lia.
      * intros p. rewrite lookup_insert. case_decide as Hp.
        -- subst p. split; [intros _; lia | intros _; eauto].
        -- rewrite Hdom. lia.
      * intros p c. rewrite lookup_insert. case_decide as Hp.
        -- intros [= <-]. lia.
        -- intros Hc. specialize (Hlt p c Hc). lia.
      * intros p1 p2 c1 c2. rewrite !lookup_insert.
        case_decide as H1; case_decide as H2.
        -- intros _ _ Hp. lia.
        -- intros _ H2c Hp. assert (is_Some (mapping !! p2)) as Hs by eauto.
           apply Hdom in Hs. lia.
        -- intros H1c [= <-] _. apply (Hlt p1 c1 H1c).
        -- apply Hinc.
Qed.

End CoordinateMap.

(** C5.  For every aligned string, [map_seq_to_msa_positions] (a total
    function: it cannot fail) returns a mapping whose keys are exactly
    [1..n], [n] being the number of characters that are neither ['-'] nor
    ['.']; raw positions in increasing order have increasing columns; the
    mapping of the empty string and of a string of gaps is empty. *)
Theorem map_seq_to_msa_positions_monotonic (aligned_seq : string) :
  (∀ aa, MsaPsSites.is_gap aa = true ↔ aa = "-"%char ∨ aa = "."%char)
  ∧ (∀ p, is_Some (MsaPsSites.map_seq_to_msa_positions aligned_seq !! p)
          ↔ 1 ≤ p ≤ count_non_gap aligned_seq)
  ∧ (∀ p1 p2 c1 c2,
       MsaPsSites.map_seq_to_msa_positions aligned_seq !! p1 = Some c1 →
       MsaPsSites.map_seq_to_msa_positions aligned_seq !! p2 = Some c2 →
       p1 < p2 → c1 < c2)
  ∧ MsaPsSites.map_seq_to_msa_positions "" = ∅
  ∧ ((∀ aa, In aa (list_ascii_of_string aligned_seq) →
            aa = "-"%char ∨ aa = "."%char) →
     MsaPsSites.map_seq_to_msa_positions aligned_seq = ∅).
Proof.
  destruct (map_loop_inv aligned_seq 1 ∅ 0) as [Hdom Hinc]; [done| | | |].
  { intros p. rewrite lookup_empty. split; [by intros [? ?] | lia]. }
  { intros p c. by rewrite lookup_empty. }
  { intros p1 p2 c1 c2. by rewrite lookup_empty. }
  split; [apply is_gap_iff|]. split; [|split; [|split]].
  - intros p. unfold MsaPsSites.map_seq_to_msa_positions. rewrite Hdom. lia.
  - apply Hinc.
  - done.
  - intros Hall. apply map_empty. intros p.
    apply eq_None_not_Some. unfold MsaPsSites.map_seq_to_msa_positions.
    rewrite Hdom, count_non_gap_all_gaps; [lia|].
    intros aa Haa. apply is_gap_iff. auto.
Qed.

(** The alignment of the specification's example. *)
Example map_seq_to_msa_positions_example :
  MsaPsSites.map_seq_to_msa_positions "MK-TY"
  = {[ 1 := 1; 2 := 2; 3 := 4; 4 := 5 ]}.
Proof. vm_compute. reflexivity. Qed.

(** ** The delta summariser *)

Section Summarize.
Implicit Types (summary : gmap string (Z * Z)) (common : list Domains.Common).

Lemma entry_insert summary name v :
  Domains.entry (<[name := v]> summary) name = v.
Proof. unfold Domains.entry. by rewrite lookup_insert_eq. Qed.

Lemma summarize_step_lookup summary c name :
  Domains.summarize_step summary c !! name
  = if decide (label c = name) then
      Some (Z.max (Domains.entry summary (label c)).1 (delta_start c),
            Z.max (Domains.entry summary (label c)).2 (delta_end c))
    else summary !! name.
Proof.
  destruct c as [[[[n [s1 e1]] [s2 e2]] src1] src2].
  unfold Domains.summarize_step, label, delta_start, delta_end; simpl.
  rewrite !entry_insert. simpl.
  rewrite !lookup_insert. case_decide; done.
Qed.

Lemma is_max_over_snoc_other delta name common c d :
  label c ≠ name →
  is_max_over delta name common d → is_max_over delta name (common ++ [c]) d.
Proof.
  intros Hne [(c0 & Hc0 & Hl & Hd) Hub]. split.
  - exists c0. rewrite elem_of_app. auto.
  - intros c' [Hc'| ->%list_elem_of_singleton]%elem_of_app Hl'; [auto|done].
Qed.

Lemma is_max_over_snoc_same delta common c d :
  is_max_over delta (label c) common d →
  is_max_over delta (label c) (common ++ [c]) (Z.max d (delta c)).
Proof.
  intros [(c0 & Hc0 & Hl & Hd) Hub]. split.
  - destruct (Z.max_spec d (delta c)) as [[_ ->]|[_ ->]].
    + exists c. rewrite elem_of_app, list_elem_of_singleton. auto.
    + exists c0. rewrite elem_of_app. auto.
  - intros c' [Hc'| ->%list_elem_of_singleton]%elem_of_app Hl'.
    + specialize (Hub c' Hc' Hl'). lia.
    + lia.
Qed.

Lemma is_max_over_first delta common c :
  0 ≤ delta c →
  (∀ c', c' ∈ common → label c' ≠ label c) →
  is_max_over delta (label c) (common ++ [c]) (Z.max 0 (delta c)).
Proof.
  intros Hpos Hnone. rewrite Z.max_r by done. split.
  - exists c. rewrite elem_of_app, list_elem_of_singleton. auto.
  - intros c' [Hc'| ->%list_elem_of_singleton]%elem_of_app Hl'; [|done].
    by destruct (Hnone c' Hc').
Qed.

(** The invariant of the loop of [summarize_distances]. *)
Lemma summarize_distances_inv common name :
  match Domains.summarize_distances common !! name with
  | None => ∀ c, c ∈ common → label c ≠ name
  | Some (ds, de) =>
      is_max_over delta_start name common ds
      ∧ is_max_over delta_end name common de
  end.
Proof.
  unfold Domains.summarize_distances.
  induction common as [|c common IH] using rev_ind.
  - simpl. rewrite lookup_empty. by intros c ?%elem_of_nil.
  - rewrite fold_left_snoc, summarize_step_lookup. case_decide as Hl.
    + subst name. unfold Domains.entry.
      destruct (fold_left Domains.summarize_step common ∅ !! label c)
        as [[ds de]|]; simpl.
      * destruct IH. split; by apply is_max_over_snoc_same.
      * split; apply is_max_over_first; try done; unfold delta_start, delta_end; lia.
    + destruct (fold_left Domains.summarize_step common ∅ !! name)
        as [[ds de]|]; simpl.
      * destruct IH. split; by apply is_max_over_snoc_other.
      * intros c' [Hc'| ->%list_elem_of_singleton]%elem_of_app; [auto|done].
Qed.

End Summarize.

(** C9.  [summarize_distances] has an entry for a label exactly when some
    paired record carries that label, and the entry holds the greatest
    [|start_A - start_B|] and the greatest [|end_A - end_B|] over the
    records with that label: each is reached by one of them and is not
    exceeded by any of them. *)
Theorem summarize_distances_max (common : list Domains.Common)
    (name : string) :
  (Domains.summarize_distances common !! name = None
   ↔ ∀ c, c ∈ common → label c ≠ name)
  ∧ (∀ ds de, Domains.summarize_distances common !! name = Some (ds, de) →
       is_max_over delta_start name common ds
       ∧ is_max_over delta_end name common de).
Proof.
  pose proof (summarize_distances_inv common name) as Hinv.
  destruct (Domains.summarize_distances common !! name) as [[ds de]|].
  - split.
    + split; [done|]. intros Hnone.
      destruct Hinv as [[(c & Hc & Hl & _) _] _]. by destruct (Hnone c Hc).
    + by intros ? ? [= <- <-].
  - split; [done|]. by intros ? ?.
Qed.

(** The summary of the specification's example. *)
Example summarize_distances_example :
  Domains.summarize_distances
    [("Kinase"%string, (10, 50), (12, 55), "tool1"%string, "tool2"%string)]
  = {[ "Kinase"%string := (2, 5) ]}.
Proof. vm_compute. reflexivity. Qed.

(** ** The matcher in alignment coordinates *)

Section MsaMatcher.
Context {score : Type} `{EqDecision score}.
Implicit Types (mapped : list (Z * Z * string * score)).

Lemma build_index_snoc mapped b :
  MsaPsSites.build_index (mapped ++ [b])
  = <[msa_key b := (b.1.1.2, b.2)]> (MsaPsSites.build_index mapped).
Proof.
  unfold MsaPsSites.build_index. rewrite fold_left_snoc.
  by destruct b as [[[col raw] res] sc].
Qed.

Lemma build_index_None mapped k :
  MsaPsSites.build_index mapped !! k = None
  ↔ ∀ b, b ∈ mapped → msa_key b ≠ k.
Proof.
  induction mapped as [|b mapped IH] using rev_ind.
  - split; [by intros _ b ?%elem_of_nil | by intros _].
  - rewrite build_index_snoc, lookup_insert_None, IH. split.
    + intros [Hm Hb] b' [?| ->%list_elem_of_singleton]%elem_of_app; auto.
    + intros Hall. split.
      * intros b' Hb'. apply Hall, elem_of_app. auto.
      * apply Hall, elem_of_app. right. by apply list_elem_of_singleton.
Qed.

Lemma build_index_Some mapped col res raw sc :
  MsaPsSites.build_index mapped !! (col, res) = Some (raw, sc) →
  (col, raw, res, sc) ∈ mapped.
Proof.
  induction mapped as [|b mapped IH] using rev_ind.
  - unfold MsaPsSites.build_index. simpl. by rewrite lookup_empty.
  - rewrite build_index_snoc, lookup_insert, elem_of_app. case_decide as Hk.
    + intros [= <- <-]. right. apply list_elem_of_singleton.
      destruct b as [[[c r] re] v]. unfold msa_key in Hk; simpl in *. congruence.
    + auto.
Qed.

(** The invariant of the loop over [mapped1]. *)
Lemma msa_loop_inv (index2 : gmap (Z * string) (Z * score))
    mapped1 common unique1 matched :
  fold_left (MsaPsSites.msa_step index2) mapped1 ([], [], ∅)
  = (common, unique1, matched) →
  (∀ col raw1 raw2 res sc1 sc2,
     (col, raw1, raw2, res, sc1, sc2) ∈ common
     ↔ (col, raw1, res, sc1) ∈ mapped1
       ∧ index2 !! (col, res) = Some (raw2, sc2))
  ∧ (∀ a, a ∈ unique1 ↔ a ∈ mapped1 ∧ index2 !! msa_key a = None)
  ∧ (∀ k, k ∈ matched
          ↔ ∃ a, a ∈ mapped1 ∧ msa_key a = k ∧ is_Some (index2 !! k))
  ∧ map MsaPsSites.first_of common ++ unique1 ≡ₚ mapped1.
Proof.
  revert common unique1 matched.
  induction mapped1 as [|a mapped1 IH] using rev_ind;
    intros common unique1 matched.
  - simpl. intros [= <- <- <-]. repeat split; set_solver.
  - rewrite fold_left_snoc.
    destruct (fold_left _ mapped1 _) as [[common0 unique0] matched0].
    destruct (IH _ _ _ eq_refl) as (Hc & Hu & Hk & Hp). clear IH.
    destruct a as [[[col raw] res] sc]. unfold MsaPsSites.msa_step.
    destruct (index2 !! (col, res)) as [[raw2 sc2]|] eqn:Hidx;
      intros [= <- <- <-].
    + split; [|split; [|split]].
      * intros col' raw1' raw2' res' sc1' sc2'.
        rewrite !elem_of_app, !list_elem_of_singleton, Hc. split.
        -- intros [[? ?]|[= -> -> -> -> -> ->]]; auto.
        -- intros [[?|[= -> -> -> ->]] Hi]; [auto|]. right. congruence.
      * intros a. rewrite Hu, elem_of_app, list_elem_of_singleton. split.
        -- intros [? ?]; auto.
        -- intros [[?| ->] Hi]; [auto|]. unfold msa_key in Hi; simpl in Hi.
           congruence.
      * intros k. rewrite elem_of_union, elem_of_singleton, Hk. split.
        -- intros [->|(a & Ha & Hka & Hs)].
           ++ exists (col, raw, res, sc). rewrite elem_of_app, list_elem_of_singleton.
              rewrite Hidx. eauto.
           ++ exists a. rewrite elem_of_app. auto.
        -- intros (a & [Ha| ->%list_elem_of_singleton]%elem_of_app & Hka & Hs).
           ++ right. eauto.
           ++ left. done.
      * rewrite map_app. simpl. rewrite <- Hp.
        rewrite <- !app_assoc. apply Permutation_app_head.
        simpl. apply Permutation_cons_append.
    + split; [|split; [|split]].
      * intros col' raw1' raw2' res' sc1' sc2'.
        rewrite !elem_of_app, !list_elem_of_singleton, Hc. split.
        -- intros [? ?]; auto.
        -- intros [[?|[= -> -> -> ->]] Hi]; [auto|]. congruence.
      * intros a. rewrite !elem_of_app, list_elem_of_singleton, Hu. split.
        -- intros [[? ?]| ->]; auto.
        -- intros [[?| ->] Hi]; auto.
      * intros k. rewrite Hk. split.
        -- intros (a & Ha & Hka & Hs). exists a. rewrite elem_of_app. auto.
        -- intros (a & [Ha| ->%list_elem_of_singleton]%elem_of_app & Hka & Hs).
           ++ eauto.
           ++ unfold msa_key in Hka; simpl in Hka. subst k.
              rewrite Hidx in Hs. by destruct Hs.
      * rewrite app_assoc. by rewrite Hp.
Qed.

End MsaMatcher.

(** C6.  In [find_common_sites_msa] an entry of [mapped1] is the first
    half of a common record exactly when some entry of [mapped2] has its
    alignment column and its residue, whatever the raw positions; both
    halves of a common record are entries of the inputs, at one column
    and one residue; the entries of [mapped1] without such a partner are
    the unique sites of the first sequence; the entries of [mapped2]
    whose (column, residue) is the key of no entry of [mapped1] are the
    unique sites of the second; and each of the three collections is in
    ascending order of the alignment column, for any order of the
    inputs. *)
Theorem find_common_sites_msa_by_column_and_residue
    {score : Type} `{EqDecision score}
    (mapped1 mapped2 : list (Z * Z * string * score)) :
  (∀ a, (∃ c, c ∈ (MsaPsSites.find_common_sites_msa mapped1 mapped2).1.1
              ∧ MsaPsSites.first_of c = a)
        ↔ a ∈ mapped1 ∧ ∃ b, b ∈ mapped2 ∧ msa_key b = msa_key a)
  ∧ (∀ c, c ∈ (MsaPsSites.find_common_sites_msa mapped1 mapped2).1.1 →
          MsaPsSites.first_of c ∈ mapped1
          ∧ MsaPsSites.second_of c ∈ mapped2
          ∧ msa_key (MsaPsSites.second_of c) = msa_key (MsaPsSites.first_of c))
  ∧ (∀ a, a ∈ (MsaPsSites.find_common_sites_msa mapped1 mapped2).1.2
          ↔ a ∈ mapped1 ∧ ∀ b, b ∈ mapped2 → msa_key b ≠ msa_key a)
  ∧ (∀ b, b ∈ (MsaPsSites.find_common_sites_msa mapped1 mapped2).2
          ↔ b ∈ mapped2 ∧ ∀ a, a ∈ mapped1 → msa_key a ≠ msa_key b)
  ∧ Sorted (key_le common_col_of)
      (MsaPsSites.find_common_sites_msa mapped1 mapped2).1.1
  ∧ Sorted (key_le msa_col_of)
      (MsaPsSites.find_common_sites_msa mapped1 mapped2).1.2
  ∧ Sorted (key_le msa_col_of)
      (MsaPsSites.find_common_sites_msa mapped1 mapped2).2.
Proof.
  unfold MsaPsSites.find_common_sites_msa, MsaPsSites.msa_loop.
  destruct (fold_left _ mapped1 _) as [[common unique1] matched] eqn:Hloop.
  apply msa_loop_inv in Hloop as (Hc & Hu & Hk & _). simpl.
  split; [|split; [|split; [|split; [|split; [|split]]]]].
  - intros [[[col raw1] res] sc1]. split.
    + intros ([[[[[col' raw1'] raw2] res'] sc1'] sc2] & Hin & [= -> -> -> ->]).
      apply sort_by_key_elem_of, Hc in Hin as [Hin Hidx].
      split; [done|]. exists (col, raw2, res, sc2).
      split; [by apply build_index_Some|done].
    + intros (Ha & b & Hb & Hkey).
      destruct (MsaPsSites.build_index mapped2 !! (col, res))
        as [[raw2 sc2]|] eqn:Hidx.
      * exists (col, raw1, raw2, res, sc1, sc2).
        split; [|done]. apply sort_by_key_elem_of, Hc. done.
      * pose proof (proj1 (build_index_None _ _) Hidx) as Hnone.
        by destruct (Hnone b Hb).
  - intros [[[[[col raw1] raw2] res] sc1] sc2] Hin.
    apply sort_by_key_elem_of, Hc in Hin as [Hin Hidx]. simpl.
    split; [done|]. split; [by apply build_index_Some|done].
  - intros a. rewrite sort_by_key_elem_of, Hu, build_index_None. done.
  - intros b. rewrite sort_by_key_elem_of, list_elem_of_filter, Hk. split.
    + intros [Hnot Hb]. split; [done|]. intros a Ha Hkey.
      apply Hnot. exists a. split; [done|]. split; [done|].
      destruct (MsaPsSites.build_index mapped2 !! msa_key b) eqn:Hidx; [eauto|].
      pose proof (proj1 (build_index_None _ _) Hidx) as Hnone.
      by destruct (Hnone b Hb).
    + intros [Hb Hnone]. split; [|done].
      intros (a & Ha & Hkey & _). by destruct (Hnone a Ha).
  - apply sort_by_key_sorted.
  - apply sort_by_key_sorted.
  - apply sort_by_key_sorted.
Qed.

(** The alignment-mode example of the specification: the sequences are
    aligned as "MK-TY" and "MKSTY"; the site of the first at raw position
    3 and the site of the second at raw position 4 fall in column 4. *)
Example find_common_sites_msa_example :
  MsaPsSites.find_common_sites_msa
    (MsaPsSites.convert_sites_to_msa [(3, "T"%string, 9)]
       (MsaPsSites.map_seq_to_msa_positions "MK-TY"))
    (MsaPsSites.convert_sites_to_msa [(4, "T"%string, 8)]
       (MsaPsSites.map_seq_to_msa_positions "MKSTY"))
  = ([(4, 3, 4, "T"%string, 9, 8)], [], []).
Proof. vm_compute. reflexivity. Qed.

(** ** The domain matcher *)

Section MinByKey.
Context {A : Type}.

(** [min] returns the first of the elements with the least key. *)
Lemma min_by_key_first (key : A → Z) (x : A) (l : list A) :
  ∃ before after,
    x :: l = before ++ min_by_key key x l :: after
    ∧ (∀ y, y ∈ before → key (min_by_key key x l) < key y)
    ∧ (∀ y, y ∈ after → key (min_by_key key x l) ≤ key y).
Proof.
  revert x. induction l as [|y l IH]; intros x; simpl.
  - exists [], []. split; [done|]. split; intros ? ?%elem_of_nil; done.
  - destruct (Z.ltb_spec (key y) (key x)) as [Hlt|Hge].
    + destruct (IH y) as (before & after & Heq & Hb & Ha).
      remember (min_by_key key y l) as m eqn:Hm. clear Hm.
      exists (x :: before), after. split; [simpl; by rewrite Heq|].
      split; [|done].
      intros z [->|Hz]%elem_of_cons; [|auto].
      assert (y ∈ before ++ m :: after) as Hy by (rewrite <- Heq; left).
      apply elem_of_app in Hy as [Hy|[->|Hy]%elem_of_cons].
      * specialize (Hb y Hy). lia.
      * done.
      * specialize (Ha y Hy). lia.
    + destruct (IH x) as (before & after & Heq & Hb & Ha).
      remember (min_by_key key x l) as m eqn:Hm. clear Hm.
      destruct before as [|b before]; simpl in Heq; injection Heq as Hx Hl.
      * subst m after. exists [], (y :: l). split; [done|].
        split; [by intros ? ?%elem_of_nil|].
        intros z [->|Hz]%elem_of_cons; [lia|auto].
      * subst b l. exists (x :: y :: before), after. split; [done|].
        split; [|done].
        intros z [->|[->|Hz]%elem_of_cons]%elem_of_cons.
        -- apply Hb. left.
        -- pose proof (Hb x ltac:(left)). lia.
        -- apply Hb. by right.
Qed.

Lemma min_by_key_elem_of (key : A → Z) (x : A) (l : list A) :
  min_by_key key x l ∈ x :: l.
Proof.
  destruct (min_by_key_first key x l) as (before & after & -> & _).
  rewrite elem_of_app, elem_of_cons. auto.
Qed.

End MinByKey.

Section DomainIndex.
Implicit Types (d : Domains.Domain) (by_name : list (string * list Domains.Domain)).
Implicit Types (domains : list Domains.Domain) (name : string).

Lemma bucket_lookup_append name d by_name n :
  Domains.bucket_lookup n (Domains.bucket_append name d by_name)
  = if decide (name = n) then
      Some (default [] (Domains.bucket_lookup n by_name) ++ [d])
    else Domains.bucket_lookup n by_name.
Proof.
  induction by_name as [|[k dlist] by_name IH]; simpl.
  - destruct (decide (name = n)); done.
  - destruct (decide (k = name)) as [->|Hk]; simpl.
    + destruct (decide (name = n)); done.
    + rewrite IH. destruct (decide (k = n)) as [->|Hn]; [|done].
      destruct (decide (name = n)); [congruence|done].
Qed.

Lemma index_by_name_snoc domains d :
  Domains.index_by_name (domains ++ [d])
  = Domains.bucket_append (domain_label d) d (Domains.index_by_name domains).
Proof. unfold Domains.index_by_name. by rewrite fold_left_snoc. Qed.

(** The bucket of a label holds the entries carrying it, in the order of
    the list; a label that no entry carries has no bucket. *)
Lemma index_by_name_lookup domains name :
  Domains.bucket_lookup name (Domains.index_by_name domains)
  = match filter (λ d, domain_label d = name) domains with
    | [] => None
    | bucket => Some bucket
    end.
Proof.
  induction domains as [|d domains IH] using rev_ind; [done|].
  rewrite index_by_name_snoc, bucket_lookup_append, IH, filter_app.
  rewrite filter_cons, filter_nil.
  destruct (decide (domain_label d = name)) as [Hl|Hl].
  - by destruct (filter _ domains).
  - by rewrite app_nil_r.
Qed.

(** Read bucket after bucket, the index holds the entries of the list. *)
Lemma bucket_append_flat (P : Domains.Domain → Prop) `{∀ x, Decision (P x)}
    name d by_name :
  flat_map (λ kv : string * list Domains.Domain, filter P kv.2)
    (Domains.bucket_append name d by_name)
  ≡ₚ flat_map (λ kv : string * list Domains.Domain, filter P kv.2) by_name
     ++ filter P [d].
Proof.
  induction by_name as [|[k dlist] by_name IH]; simpl.
  - by rewrite app_nil_r.
  - case_decide; simpl.
    + rewrite filter_app, <- !app_assoc. apply Permutation_app_head.
      apply Permutation_app_comm.
    + by rewrite IH, app_assoc.
Qed.

Lemma index_by_name_flat (P : Domains.Domain → Prop) `{∀ x, Decision (P x)}
    domains :
  flat_map (λ kv : string * list Domains.Domain, filter P kv.2)
    (Domains.index_by_name domains)
  ≡ₚ filter P domains.
Proof.
  induction domains as [|d domains IH] using rev_ind; [done|].
  by rewrite index_by_name_snoc, bucket_append_flat, IH, filter_app.
Qed.

(** One turn of the loop, read on the second list itself. *)
Lemma match_step_cases domains2 (common : list Domains.Common)
    (unique1 : list Domains.Domain) (used : gset Domains.Domain) d1 :
  Domains.match_step (Domains.index_by_name domains2) (common, unique1, used) d1
  = match filter (λ d2, domain_label d2 = domain_label d1 ∧ d2 ∉ used)
            domains2 with
    | [] => (common, unique1 ++ [d1], used)
    | c :: cs =>
        let d2 :=
          min_by_key
            (λ x, Z.abs (domain_start x - domain_start d1)) c cs in
        (common ++ [pair_record d1 d2], unique1, {[d2]} ∪ used)
    end.
Proof.
  assert (filter (λ d2, domain_label d2 = domain_label d1 ∧ d2 ∉ used) domains2
          = filter (λ d2, d2 ∉ used)
              (filter (λ d2, domain_label d2 = domain_label d1) domains2)) as ->.
  { rewrite list_filter_filter. apply list_filter_iff. intros ?. tauto. }
  destruct d1 as [[[src1 name1] s1] e1].
  unfold Domains.match_step. rewrite index_by_name_lookup.
  change (domain_label (src1, name1, s1, e1)) with name1.
  destruct (filter (λ d2, domain_label d2 = name1) domains2) as [|b bucket] eqn:Hb.
  - done.
  - destruct (filter _ (b :: bucket)); done.
Qed.

End DomainIndex.

Section DomainLoop.
Implicit Types (d : Domains.Domain) (domains pre post : list Domains.Domain).

Lemma match_loop_snoc pre d1 domains2 :
  Domains.match_loop (pre ++ [d1]) domains2
  = Domains.match_step (Domains.index_by_name domains2)
      (Domains.match_loop pre domains2) d1.
Proof. unfold Domains.match_loop. by rewrite fold_left_snoc. Qed.

Lemma find_common_domains_loop domains1 domains2 :
  (Domains.find_common_domains domains1 domains2).1
  = (Domains.match_loop domains1 domains2).1.
Proof.
  unfold Domains.find_common_domains.
  by destruct (Domains.match_loop domains1 domains2) as [[common unique1] used].
Qed.

(** One more entry of the first list, read on the result for the entries
    before it. *)
Lemma match_loop_snoc_cases pre d1 domains2 :
  Domains.match_loop (pre ++ [d1]) domains2
  = match candidates_for d1 pre domains2 with
    | [] =>
        ((Domains.match_loop pre domains2).1.1,
         (Domains.match_loop pre domains2).1.2 ++ [d1],
         consumed pre domains2)
    | c :: cs =>
        let d2 :=
          min_by_key
            (λ x, Z.abs (domain_start x - domain_start d1)) c cs in
        ((Domains.match_loop pre domains2).1.1 ++ [pair_record d1 d2],
         (Domains.match_loop pre domains2).1.2,
         {[d2]} ∪ consumed pre domains2)
    end.
Proof.
  rewrite match_loop_snoc. unfold candidates_for, consumed.
  destruct (Domains.match_loop pre domains2) as [[common unique1] used].
  apply match_step_cases.
Qed.

Lemma match_loop_snoc_none pre d1 domains2 :
  candidates_for d1 pre domains2 = [] →
  Domains.match_loop (pre ++ [d1]) domains2
  = ((Domains.match_loop pre domains2).1.1,
     (Domains.match_loop pre domains2).1.2 ++ [d1],
     consumed pre domains2).
Proof. intros Hnil. by rewrite match_loop_snoc_cases, Hnil. Qed.

Lemma match_loop_snoc_some pre d1 domains2 :
  candidates_for d1 pre domains2 ≠ [] →
  ∃ d2,
    nearest_first d1 (candidates_for d1 pre domains2) d2
    ∧ Domains.match_loop (pre ++ [d1]) domains2
      = ((Domains.match_loop pre domains2).1.1 ++ [pair_record d1 d2],
         (Domains.match_loop pre domains2).1.2,
         {[d2]} ∪ consumed pre domains2).
Proof.
  intros Hsome. rewrite match_loop_snoc_cases.
  destruct (candidates_for d1 pre domains2) as [|c cs]; [done|].
  eexists. split; [|reflexivity].
  destruct (min_by_key_first
              (λ x, Z.abs (domain_start x - domain_start d1)) c cs)
    as (before & after & Heq & Hb & Ha).
  by exists before, after.
Qed.

(** A turn of the loop only appends to [common] and to [unique1]. *)
Lemma match_step_extends by_name2 st d1 :
  ∃ rest_c rest_u,
    (Domains.match_step by_name2 st d1).1.1 = st.1.1 ++ rest_c
    ∧ (Domains.match_step by_name2 st d1).1.2 = st.1.2 ++ rest_u.
Proof.
  destruct st as [[common unique1] used], d1 as [[[src1 name1] s1] e1].
  unfold Domains.match_step.
  destruct (Domains.bucket_lookup name1 by_name2) as [bucket|]; simpl.
  - destruct (filter _ bucket); simpl.
    + exists [], [(src1, name1, s1, e1)]. by rewrite app_nil_r.
    + eexists _, []. split; [reflexivity | by rewrite app_nil_r].
  - exists [], [(src1, name1, s1, e1)]. by rewrite app_nil_r.
Qed.

Lemma match_fold_extends by_name2 post st :
  ∃ rest_c rest_u,
    (fold_left (Domains.match_step by_name2) post st).1.1 = st.1.1 ++ rest_c
    ∧ (fold_left (Domains.match_step by_name2) post st).1.2 = st.1.2 ++ rest_u.
Proof.
  revert st. induction post as [|d1 post IH]; intros st; simpl.
  - exists [], []. by rewrite !app_nil_r.
  - destruct (IH (Domains.match_step by_name2 st d1)) as (c2 & u2 & -> & ->).
    destruct (match_step_extends by_name2 st d1) as (c1 & u1 & -> & ->).
    exists (c1 ++ c2), (u1 ++ u2). by rewrite !app_assoc.
Qed.

Lemma match_loop_extends pre post domains2 :
  ∃ rest_c rest_u,
    (Domains.match_loop (pre ++ post) domains2).1.1
    = (Domains.match_loop pre domains2).1.1 ++ rest_c
    ∧ (Domains.match_loop (pre ++ post) domains2).1.2
      = (Domains.match_loop pre domains2).1.2 ++ rest_u.
Proof.
  unfold Domains.match_loop. rewrite fold_left_app. apply match_fold_extends.
Qed.

End DomainLoop.

(** ** Conservation *)

Section ListFacts.
Context {A B : Type}.

Lemma NoDup_map_inj (f : A → B) (l : list A) x y :
  NoDup (map f l) → x ∈ l → y ∈ l → f x = f y → x = y.
Proof.
  induction l as [|z l IH]; simpl; [by intros _ ?%elem_of_nil|].
  rewrite NoDup_cons, !elem_of_cons. intros [Hz Hl] [->|Hx] [->|Hy] Hf.
  - done.
  - destruct Hz. rewrite Hf. apply list_elem_of_In, in_map, list_elem_of_In, Hy.
  - destruct Hz. rewrite <- Hf. apply list_elem_of_In, in_map, list_elem_of_In, Hx.
  - by apply IH.
Qed.

Lemma NoDup_map_NoDup (f : A → B) (l : list A) : NoDup (map f l) → NoDup l.
Proof. apply (NoDup_fmap_1 f). Qed.

Lemma elem_of_map_iff (f : A → B) (l : list A) y :
  y ∈ map f l ↔ ∃ x, x ∈ l ∧ f x = y.
Proof.
  rewrite list_elem_of_In, in_map_iff. split.
  - intros (x & <- & Hx). exists x. by rewrite list_elem_of_In.
  - intros (x & Hx & <-). exists x. by rewrite <- list_elem_of_In.
Qed.

End ListFacts.

(** From the two permutations to the count. *)
Lemma conserved_intro {A C : Type} (first_of second_of : C → A)
    (result : list C * list A * list A) (list_A list_B : list A) :
  map first_of result.1.1 ++ result.1.2 ≡ₚ list_A →
  map second_of result.1.1 ++ result.2 ≡ₚ list_B →
  conserved first_of second_of result list_A list_B.
Proof.
  intros H1 H2. split; [|done]. unfold conservation_count.
  apply Permutation_length in H1, H2.
  rewrite length_app, length_map in H1, H2. lia.
Qed.

Section DomainConservation.
Implicit Types (d : Domains.Domain) (domains pre post : list Domains.Domain).

Lemma first_of_pair_record d1 d2 :
  Domains.first_of (pair_record d1 d2) = d1.
Proof. by destruct d1 as [[[src1 name1] s1] e1]. Qed.

Lemma second_of_pair_record d1 d2 :
  domain_label d2 = domain_label d1 →
  Domains.second_of (pair_record d1 d2) = d2.
Proof.
  destruct d1 as [[[src1 name1] s1] e1], d2 as [[[src2 name2] s2] e2].
  unfold domain_label. simpl. by intros ->.
Qed.

(** The invariant of the loop over the first list. *)
Lemma match_loop_inv domains1 domains2 :
  map Domains.first_of (Domains.match_loop domains1 domains2).1.1
    ++ (Domains.match_loop domains1 domains2).1.2 ≡ₚ domains1
  ∧ NoDup (map Domains.second_of (Domains.match_loop domains1 domains2).1.1)
  ∧ (∀ d, d ∈ map Domains.second_of (Domains.match_loop domains1 domains2).1.1
          ↔ d ∈ consumed domains1 domains2)
  ∧ (∀ d, d ∈ consumed domains1 domains2 → d ∈ domains2).
Proof.
  induction domains1 as [|d1 pre IH] using rev_ind.
  - unfold consumed, Domains.match_loop. simpl.
    split; [done|]. split; [constructor|]. split; set_solver.
  - destruct IH as (Hp & Hnd & Hin & Hsub).
    unfold consumed at 1 2. rewrite match_loop_snoc_cases.
    destruct (candidates_for d1 pre domains2) as [|c cs] eqn:Hcands.
    + cbn [fst snd]. split; [|done].
      by rewrite app_assoc, Hp.
    + cbn [fst snd].
      pose proof (min_by_key_elem_of
                    (λ x, Z.abs (domain_start x - domain_start d1)) c cs) as Hd2.
      rewrite <- Hcands in Hd2. unfold candidates_for in Hd2.
      apply list_elem_of_filter in Hd2 as [[Hlabel Hfresh] Hd2].
      remember (min_by_key _ c cs) as d2 eqn:Hmin. clear Hmin.
      rewrite !map_app. cbn [map].
      rewrite first_of_pair_record, second_of_pair_record by done.
      split; [|split; [|split]].
      * etrans; [|apply Permutation_app_tail, Hp].
        rewrite <- !app_assoc. apply Permutation_app_head.
        apply Permutation_app_comm.
      * apply NoDup_app. split; [done|]. split; [|apply NoDup_singleton].
        intros d Hd ->%list_elem_of_singleton. by apply Hfresh, Hin.
      * intros d. rewrite elem_of_app, list_elem_of_singleton, Hin. set_solver.
      * intros d [->%elem_of_singleton|Hd]%elem_of_union; auto.
Qed.

Lemma find_common_domains_unique2 domains1 domains2 :
  (Domains.find_common_domains domains1 domains2).2
  ≡ₚ filter (λ d, d ∉ consumed domains1 domains2) domains2.
Proof.
  unfold Domains.find_common_domains, consumed.
  destruct (Domains.match_loop domains1 domains2) as [[common unique1] used].
  simpl. apply index_by_name_flat.
Qed.

Lemma domains_conserved domains1 domains2 :
  NoDup domains2 →
  map Domains.first_of (Domains.find_common_domains domains1 domains2).1.1
    ++ (Domains.find_common_domains domains1 domains2).1.2 ≡ₚ domains1
  ∧ map Domains.second_of (Domains.find_common_domains domains1 domains2).1.1
      ++ (Domains.find_common_domains domains1 domains2).2 ≡ₚ domains2.
Proof.
  intros Hnd2.
  destruct (match_loop_inv domains1 domains2) as (Hp & Hnd & Hin & Hsub).
  rewrite find_common_domains_unique2, find_common_domains_loop.
  split; [done|].
  etrans; [|apply (filter_app_complement
                     (λ d, d ∈ consumed domains1 domains2) domains2)].
  apply Permutation_app; [|done]. apply NoDup_Permutation.
  - done.
  - by apply NoDup_filter.
  - intros d. rewrite Hin, list_elem_of_filter. naive_solver.
Qed.

Lemma label_second_of (c : Domains.Common) :
  domain_label (Domains.second_of c) = label c.
Proof. by destruct c as [[[[n [s1 e1]] [s2 e2]] src1] src2]. Qed.

(** Without duplicates in the second list, the consumed entries are as
    many as the records: an entry that is left is a candidate. *)
Lemma entries_left_candidates d1 pre domains2 :
  NoDup domains2 →
  entries_left d1 pre domains2 →
  candidates_for d1 pre domains2 ≠ [].
Proof.
  intros Hnd Hleft Hnil. unfold entries_left in Hleft.
  rewrite find_common_domains_loop in Hleft.
  destruct (match_loop_inv pre domains2) as (_ & _ & Hin & _).
  assert (filter (λ d2, domain_label d2 = domain_label d1) domains2
          ⊆+ map Domains.second_of
               (filter (λ c, label c = domain_label d1)
                  (Domains.match_loop pre domains2).1.1)) as Hsub.
  { apply NoDup_submseteq; [by apply NoDup_filter|].
    intros d [Hl Hd]%list_elem_of_filter.
    assert (d ∈ consumed pre domains2) as Hc.
    { destruct (decide (d ∈ consumed pre domains2)) as [|Hfresh]; [done|].
      assert (d ∈ candidates_for d1 pre domains2) as Hcand
        by (by apply list_elem_of_filter).
      rewrite Hnil in Hcand. by apply elem_of_nil in Hcand. }
    apply Hin, elem_of_map_iff in Hc as (c & Hc & <-).
    apply elem_of_map_iff. exists c. split; [|done].
    apply list_elem_of_filter. by rewrite <- label_second_of. }
  apply submseteq_length in Hsub. rewrite length_map in Hsub. lia.
Qed.

End DomainConservation.

(** ** The matcher on raw positions *)

Section RemoveFirst.
Context {A : Type} `{EqDecision A}.
Implicit Types (x y : A) (l : list A).

Lemma remove_first_perm x l : x ∈ l → x :: remove_first x l ≡ₚ l.
Proof.
  induction l as [|y l IH]; simpl; [by intros ?%elem_of_nil|].
  destruct (decide (x = y)) as [->|Hne]; [done|].
  intros [->|Hx]%elem_of_cons; [done|].
  rewrite Permutation_swap. by rewrite IH.
Qed.

Lemma remove_first_elem_of x y l : y ∈ remove_first x l → y ∈ l.
Proof.
  induction l as [|z l IH]; simpl; [done|].
  destruct (decide (x = z)) as [->|Hne]; rewrite !elem_of_cons; intuition.
Qed.

Lemma remove_first_elem_of_ne x y l :
  x ≠ y → y ∈ l → y ∈ remove_first x l.
Proof.
  intros Hne. induction l as [|z l IH]; simpl; [done|].
  destruct (decide (x = z)) as [->|Hz]; rewrite !elem_of_cons.
  - intros [->|Hy]; [done|done].
  - intros [->|Hy]; auto.
Qed.

End RemoveFirst.

Section RawMatcher.
Context {score : Type} `{EqDecision score}.
Implicit Types (sites : list (Z * string * score)) (p : Z) (r : string).

(** [first_match] returns the first entry at the position and residue
    looked for. *)
Lemma first_match_Some p r sites b :
  PsSites.first_match p r sites = Some b →
  ∃ before after,
    sites = before ++ b :: after
    ∧ site_key b = (p, r)
    ∧ ∀ y, y ∈ before → site_key y ≠ (p, r).
Proof.
  induction sites as [|[[p2 r2] sc2] sites IH]; simpl; [done|].
  case_decide as Hk.
  - intros [= <-]. exists [], sites. destruct Hk as [-> ->].
    split; [done|]. split; [done|]. by intros ? ?%elem_of_nil.
  - intros (before & after & -> & Hb & Hnone)%IH.
    exists ((p2, r2, sc2) :: before), after. split; [done|]. split; [done|].
    intros y [->|Hy]%elem_of_cons; [|auto].
    unfold site_key; simpl. intros [= -> ->]. by apply Hk.
Qed.

Lemma first_match_None p r sites :
  PsSites.first_match p r sites = None
  ↔ ∀ y, y ∈ sites → site_key y ≠ (p, r).
Proof.
  induction sites as [|[[p2 r2] sc2] sites IH]; simpl.
  - split; [by intros _ ? ?%elem_of_nil|done].
  - case_decide as Hk.
    + split; [done|]. intros Hall. destruct Hk as [-> ->].
      by destruct (Hall (p2, r2, sc2) ltac:(left)).
    + rewrite IH. split.
      * intros Hall y [->|Hy]%elem_of_cons; [|auto].
        unfold site_key; simpl. intros [= -> ->]. by apply Hk.
      * intros Hall y Hy. apply Hall. by right.
Qed.

Lemma first_match_elem_of p r sites b :
  PsSites.first_match p r sites = Some b → b ∈ sites ∧ site_key b = (p, r).
Proof.
  intros (before & after & -> & Hk & _)%first_match_Some.
  split; [|done]. rewrite elem_of_app, elem_of_cons. auto.
Qed.

(** The invariant of the loop over [sites1]. *)
Lemma site_loop_inv sites1 sites2 common unique1 unique2 :
  fold_left (PsSites.site_step sites2) sites1 ([], [], sites2)
  = (common, unique1, unique2) →
  (∀ p r sc1 sc2,
     (p, r, sc1, sc2) ∈ common
     ↔ (p, r, sc1) ∈ sites1
       ∧ ∃ b, PsSites.first_match p r sites2 = Some b ∧ b.2 = sc2)
  ∧ (∀ a, a ∈ unique1
          ↔ a ∈ sites1 ∧ PsSites.first_match a.1.1 a.1.2 sites2 = None)
  ∧ map PsSites.first_of common ++ unique1 ≡ₚ sites1
  ∧ (∀ b, b ∈ unique2 → b ∈ sites2)
  ∧ (∀ b, b ∈ sites2 → (∀ a, a ∈ sites1 → site_key a ≠ site_key b) →
          b ∈ unique2).
Proof.
  revert common unique1 unique2.
  induction sites1 as [|a sites1 IH] using rev_ind;
    intros common unique1 unique2.
  - simpl. intros [= <- <- <-]. repeat split; set_solver.
  - rewrite fold_left_snoc.
    destruct (fold_left _ sites1 _) as [[common0 unique0] rest0].
    destruct (IH _ _ _ eq_refl) as (Hc & Hu & Hp & Hsub & Hkeep). clear IH.
    destruct a as [[p r] sc]. unfold PsSites.site_step.
    destruct (PsSites.first_match p r sites2) as [s2|] eqn:Hfm;
      intros [= <- <- <-].
    + split; [|split; [|split; [|split]]].
      * intros p' r' sc1' sc2'.
        rewrite !elem_of_app, !list_elem_of_singleton, Hc. split.
        -- intros [[? ?]|[= -> -> -> ->]]; eauto.
        -- intros [[?|[= -> -> ->]] (b & Hb & Hsc)]; [eauto|].
           right. rewrite Hfm in Hb. by simplify_eq.
      * intros a. rewrite Hu, elem_of_app, list_elem_of_singleton. split.
        -- intros [? ?]; auto.
        -- intros [[?| ->] Hn]; [auto|]. simpl in Hn. congruence.
      * rewrite map_app. cbn [map PsSites.first_of].
        etrans; [|apply Permutation_app_tail, Hp].
        rewrite <- !app_assoc. apply Permutation_app_head.
        apply Permutation_app_comm.
      * intros b Hb. apply Hsub. case_decide; [|done].
        by apply remove_first_elem_of in Hb.
      * intros b Hb Hnone.
        assert (b ∈ rest0) as Hb0.
        { apply Hkeep; [done|]. intros a Ha. apply Hnone, elem_of_app. auto. }
        case_decide; [|done]. apply remove_first_elem_of_ne; [|done].
        intros ->. apply first_match_elem_of in Hfm as [_ Hk].
        apply (Hnone (p, r, sc)); [|by rewrite Hk].
        apply elem_of_app. right. by apply list_elem_of_singleton.
    + split; [|split; [|split; [|split]]].
      * intros p' r' sc1' sc2'. rewrite Hc, elem_of_app, list_elem_of_singleton.
        split.
        -- intros [? ?]; auto.
        -- intros [[?|[= -> -> ->]] (b & Hb & Hsc)]; [eauto|]. congruence.
      * intros a. rewrite !elem_of_app, list_elem_of_singleton, Hu. split.
        -- intros [[? ?]| ->]; auto.
        -- intros [[?| ->] Hn]; auto.
      * rewrite app_assoc. by rewrite Hp.
      * done.
      * intros b Hb Hnone. apply Hkeep; [done|].
        intros a Ha. apply Hnone, elem_of_app. auto.
Qed.

(** When no two entries of [sites1] share position and residue, every
    match consumes an entry of [sites2] that is still there. *)
Lemma site_loop_inv_distinct sites1 sites2 common unique1 unique2 :
  NoDup (map site_key sites1) →
  fold_left (PsSites.site_step sites2) sites1 ([], [], sites2)
  = (common, unique1, unique2) →
  map PsSites.second_of common ++ unique2 ≡ₚ sites2
  ∧ (∀ p r b, PsSites.first_match p r sites2 = Some b →
              (p, r) ∉ map site_key sites1 → b ∈ unique2).
Proof.
  revert common unique1 unique2.
  induction sites1 as [|a sites1 IH] using rev_ind;
    intros common unique1 unique2.
  - simpl. intros _ [= <- <- <-]. split; [done|].
    intros p r b Hb _. by apply first_match_elem_of in Hb as [? _].
  - rewrite map_app, NoDup_app, fold_left_snoc.
    intros (Hnd & Hfresh & _).
    destruct (fold_left _ sites1 _) as [[common0 unique0] rest0].
    destruct (IH _ _ _ Hnd eq_refl) as (Hp & Hin). clear IH.
    destruct a as [[p r] sc]. unfold PsSites.site_step.
    assert ((p, r) ∉ map site_key sites1) as Hpr.
    { intros Hin'. apply (Hfresh _ Hin'). simpl. left. }
    destruct (PsSites.first_match p r sites2) as [s2|] eqn:Hfm;
      intros [= <- <- <-].
    + pose proof (Hin p r s2 Hfm Hpr) as Hs2.
      rewrite decide_True by done.
      apply first_match_elem_of in Hfm as [_ Hk].
      split.
      * rewrite map_app. cbn [map PsSites.second_of].
        assert ((p, r, s2.2) = s2) as ->.
        { destruct s2 as [[p2 r2] sc2]. unfold site_key in Hk. simpl in *.
          congruence. }
        rewrite <- Hp, <- !app_assoc. apply Permutation_app_head.
        simpl. by apply remove_first_perm.
      * intros p' r' b Hb Hnot.
        apply remove_first_elem_of_ne.
        -- intros ->. apply first_match_elem_of in Hb as [_ Hk'].
           apply Hnot. rewrite elem_of_app. right. simpl.
           apply list_elem_of_singleton. unfold site_key at 1. simpl. congruence.
        -- apply (Hin p' r' b Hb). intros Hin'. apply Hnot.
           rewrite elem_of_app. auto.
    + split; [done|]. intros p' r' b Hb Hnot.
      apply (Hin p' r' b Hb). intros Hin'. apply Hnot.
      rewrite elem_of_app. auto.
Qed.

End RawMatcher.

(** C4, as the code has it.  [find_common_domains] scans the first list
    in input order, and what it does with an entry [d1] is decided by the
    entries [pre] before it alone.  Consumption is by value: the consumed
    tuples are those that are the second half of a record made so far,
    and the candidates for [d1] are the entries of the second list
    carrying its label that are not equal to a consumed tuple.  Without a
    candidate [d1] is unique to the first list and nothing is consumed.
    Otherwise [d1] is paired with the candidate whose start is nearest to
    its own, the first such candidate in the order of the second list when
    several are equally near, and that candidate is consumed.  Entries
    scanned later only append to the two collections.  The intervals play
    no part: two annotations with one label are paired whether their
    intervals overlap or not.  When no tuple occurs twice in the second
    list, [d1] is paired as long as an entry with its label is left. *)
Theorem find_common_domains_nearest_start
    (pre : list Domains.Domain) (d1 : Domains.Domain)
    (domains2 : list Domains.Domain) :
  (candidates_for d1 pre domains2 = [] →
     (Domains.find_common_domains (pre ++ [d1]) domains2).1.1
     = (Domains.find_common_domains pre domains2).1.1
     ∧ (Domains.find_common_domains (pre ++ [d1]) domains2).1.2
       = (Domains.find_common_domains pre domains2).1.2 ++ [d1]
     ∧ consumed (pre ++ [d1]) domains2 = consumed pre domains2)
  ∧ (candidates_for d1 pre domains2 ≠ [] →
     ∃ d2,
       nearest_first d1 (candidates_for d1 pre domains2) d2
       ∧ (Domains.find_common_domains (pre ++ [d1]) domains2).1.1
         = (Domains.find_common_domains pre domains2).1.1
           ++ [pair_record d1 d2]
       ∧ (Domains.find_common_domains (pre ++ [d1]) domains2).1.2
         = (Domains.find_common_domains pre domains2).1.2
       ∧ consumed (pre ++ [d1]) domains2
         = {[d2]} ∪ consumed pre domains2)
  ∧ (∀ post, ∃ rest_c rest_u,
       (Domains.find_common_domains (pre ++ post) domains2).1.1
       = (Domains.find_common_domains pre domains2).1.1 ++ rest_c
       ∧ (Domains.find_common_domains (pre ++ post) domains2).1.2
         = (Domains.find_common_domains pre domains2).1.2 ++ rest_u)
  ∧ (∀ d2, domain_label d2 = domain_label d1 →
       Domains.find_common_domains [d1] [d2] = ([pair_record d1 d2], [], []))
  ∧ (∀ d, d ∈ consumed pre domains2
          ↔ ∃ c, c ∈ (Domains.find_common_domains pre domains2).1.1
                 ∧ Domains.second_of c = d)
  ∧ (NoDup domains2 → paired_when_entries_left d1 pre domains2).
Proof.
  change (consumed (pre ++ [d1]) domains2)
    with (Domains.match_loop (pre ++ [d1]) domains2).2.
  rewrite !find_common_domains_loop.
  split; [|split; [|split; [|split; [|split]]]].
  - intros Hnil. by rewrite (match_loop_snoc_none _ _ _ Hnil).
  - intros Hsome.
    destruct (match_loop_snoc_some _ _ _ Hsome) as (d2 & Hnear & ->).
    by exists d2.
  - intros post. setoid_rewrite find_common_domains_loop.
    apply match_loop_extends.
  - intros d2 Hl. unfold Domains.find_common_domains.
    change [d1] with ([] ++ [d1]). rewrite match_loop_snoc_cases.
    unfold candidates_for, consumed.
    change (Domains.match_loop [] [d2]) with
      (@nil Domains.Common, @nil Domains.Domain, (∅ : gset Domains.Domain)).
    cbn [fst snd].
    rewrite filter_cons_True by (split; [done|set_solver]).
    rewrite filter_nil. cbn [min_by_key app].
    change (Domains.index_by_name [d2]) with [(d2.1.1.2, [d2])].
    cbn [flat_map snd]. rewrite filter_cons_False by set_solver.
    by rewrite filter_nil.
  - intros d. destruct (match_loop_inv pre domains2) as (_ & _ & Hin & _).
    by rewrite <- Hin, elem_of_map_iff.
  - intros Hnd Hleft. unfold paired_when_entries_left.
    rewrite !find_common_domains_loop.
    pose proof (entries_left_candidates _ _ _ Hnd Hleft) as Hsome.
    destruct (match_loop_snoc_some _ _ _ Hsome) as (d2 & _ & ->).
    by exists d2.
Qed.

(** C4, as stated, fails on an exact duplicate in the second list: after
    the first of two equal tuples is consumed, an entry with the label is
    left, yet the next entry of the first list is not paired. *)
Lemma find_common_domains_skips_duplicate :
  Domains.find_common_domains
    [("a", "Kinase", 10, 50)%string; ("a", "Kinase", 20, 60)%string]
    [("b", "Kinase", 12, 55)%string; ("b", "Kinase", 12, 55)%string]
  = ([("Kinase"%string, (10, 50), (12, 55), "a"%string, "b"%string)],
     [("a", "Kinase", 20, 60)%string],
     [])
  ∧ ¬ paired_when_entries_left
        ("a", "Kinase", 20, 60)%string
        [("a", "Kinase", 10, 50)%string]
        [("b", "Kinase", 12, 55)%string; ("b", "Kinase", 12, 55)%string].
Proof.
  split; [vm_compute; reflexivity|].
  intros Hclaim. destruct Hclaim as [d2 Hd2].
  - unfold entries_left. vm_compute. lia.
  - vm_compute in Hd2. discriminate.
Qed.

(** The domain example of the specification. *)
Example find_common_domains_example :
  Domains.find_common_domains
    [("tool1", "Kinase", 10, 50)%string]
    [("tool2", "Kinase", 12, 55)%string; ("tool2", "SH2", 100, 130)%string]
  = ([("Kinase"%string, (10, 50), (12, 55), "tool1"%string, "tool2"%string)],
     [],
     [("tool2", "SH2", 100, 130)%string]).
Proof. vm_compute. reflexivity. Qed.

(** Two annotations with one label and disjoint intervals are paired. *)
Example find_common_domains_disjoint_intervals :
  disjoint_intervals ("a", "Kinase", 10, 50)%string ("b", "Kinase", 400, 450)%string
  ∧ Domains.find_common_domains
      [("a", "Kinase", 10, 50)%string] [("b", "Kinase", 400, 450)%string]
    = ([("Kinase"%string, (10, 50), (400, 450), "a"%string, "b"%string)], [], []).
Proof. split; [left; reflexivity | vm_compute; reflexivity]. Qed.

(** Equally near candidates: the first one in the second list is taken. *)
Example find_common_domains_tie :
  Domains.find_common_domains
    [("a", "Kinase", 10, 50)%string]
    [("b", "Kinase", 12, 60)%string; ("c", "Kinase", 8, 40)%string]
  = ([("Kinase"%string, (10, 50), (12, 60), "a"%string, "b"%string)],
     [],
     [("c", "Kinase", 8, 40)%string]).
Proof. vm_compute. reflexivity. Qed.

Section SiteConservation.
Context {score : Type} `{EqDecision score}.

Lemma sites_conserved (sites1 sites2 : list (Z * string * score)) :
  NoDup (map site_key sites1) →
  conserved PsSites.first_of PsSites.second_of
    (PsSites.find_common_sites sites1 sites2) sites1 sites2.
Proof.
  intros Hnd. unfold PsSites.find_common_sites, PsSites.site_loop.
  destruct (fold_left _ sites1 _) as [[common unique1] unique2] eqn:Hloop.
  destruct (site_loop_inv _ _ _ _ _ Hloop) as (_ & _ & Hp1 & _).
  destruct (site_loop_inv_distinct _ _ _ _ _ Hnd Hloop) as (Hp2 & _).
  apply conserved_intro; simpl.
  - rewrite <- Hp1.
    apply Permutation_app; [apply Permutation_map|]; apply sort_by_key_perm.
  - rewrite <- Hp2.
    apply Permutation_app; [apply Permutation_map|]; apply sort_by_key_perm.
Qed.

Lemma msa_key_halves (c : Z * Z * Z * string * score * score) :
  msa_key (MsaPsSites.second_of c) = msa_key (MsaPsSites.first_of c).
Proof. by destruct c as [[[[[col raw1] raw2] res] sc1] sc2]. Qed.

Lemma msa_sites_conserved (mapped1 mapped2 : list (Z * Z * string * score)) :
  NoDup (map msa_key mapped1) →
  NoDup (map msa_key mapped2) →
  conserved MsaPsSites.first_of MsaPsSites.second_of
    (MsaPsSites.find_common_sites_msa mapped1 mapped2) mapped1 mapped2.
Proof.
  intros Hnd1 Hnd2.
  unfold MsaPsSites.find_common_sites_msa, MsaPsSites.msa_loop.
  destruct (fold_left _ mapped1 _) as [[common unique1] matched] eqn:Hloop.
  destruct (msa_loop_inv _ _ _ _ _ Hloop) as (Hc & Hu & Hk & Hp1).
  apply conserved_intro; simpl.
  - rewrite <- Hp1.
    apply Permutation_app; [apply Permutation_map|]; apply sort_by_key_perm.
  - etrans; [|apply (filter_app_complement
                       (λ b, msa_key b ∈ matched) mapped2)].
    apply Permutation_app; [|by rewrite sort_by_key_perm].
    etrans; [apply Permutation_map, sort_by_key_perm|].
    apply NoDup_Permutation.
    + apply (NoDup_map_NoDup msa_key). rewrite map_map.
      rewrite (map_ext _ (λ c, msa_key (MsaPsSites.first_of c)))
        by apply msa_key_halves.
      rewrite <- map_map.
      assert (NoDup (map msa_key (map MsaPsSites.first_of common ++ unique1)))
        as Hnd by (by rewrite Hp1).
      rewrite map_app in Hnd. by apply NoDup_app in Hnd as [? _].
    + apply NoDup_filter. by apply (NoDup_map_NoDup msa_key).
    + intros [[[col raw2] res] sc2].
      rewrite elem_of_map_iff, list_elem_of_filter, Hk. split.
      * intros ([[[[[col' raw1] raw2'] res'] sc1] sc2'] & Hin & [= -> -> -> ->]).
        apply Hc in Hin as [Hin Hidx]. split.
        -- exists (col, raw1, res, sc1).
           change (msa_key (col, raw2, res, sc2)) with (col, res).
           rewrite Hidx. eauto.
        -- by apply build_index_Some.
      * intros [([[[col' raw1] res'] sc1] & Ha & [= -> ->] & [[raw2' sc2'] Hidx])
                  Hb].
        simpl in Hidx.
        assert ((col, raw2', res, sc2') = (col, raw2, res, sc2)) as [= -> ->].
        { apply (NoDup_map_inj msa_key mapped2); try done.
          by apply build_index_Some. }
        exists (col, raw1, raw2, res, sc1, sc2). split; [|done].
        apply Hc. done.
Qed.

End SiteConservation.

(** C1, as the code has it.  The conservation law holds for inputs
    without duplicates: for [find_common_domains] when no tuple occurs
    twice in the second list, for [find_common_sites] when no two entries
    of the first list share position and residue, and for
    [find_common_sites_msa] when, in each list, no two entries share
    column and residue.  Then
    [len(common)*2 + len(unique_A) + len(unique_B) = len(list_A) +
    len(list_B)], the first halves of the common records together with
    [unique_A] are the entries of [list_A], each once, and the second
    halves together with [unique_B] are the entries of [list_B], each
    once. *)
Theorem conservation_without_duplicates {score : Type} `{EqDecision score}
    (domains1 domains2 : list Domains.Domain)
    (sites1 sites2 : list (Z * string * score))
    (mapped1 mapped2 : list (Z * Z * string * score)) :
  NoDup domains2 →
  NoDup (map site_key sites1) →
  NoDup (map msa_key mapped1) →
  NoDup (map msa_key mapped2) →
  conserved Domains.first_of Domains.second_of
    (Domains.find_common_domains domains1 domains2) domains1 domains2
  ∧ conserved PsSites.first_of PsSites.second_of
      (PsSites.find_common_sites sites1 sites2) sites1 sites2
  ∧ conserved MsaPsSites.first_of MsaPsSites.second_of
      (MsaPsSites.find_common_sites_msa mapped1 mapped2) mapped1 mapped2.
Proof.
  intros Hd Hs Hm1 Hm2. split; [|split].
  - destruct (domains_conserved domains1 domains2 Hd) as [H1 H2].
    by apply conserved_intro.
  - by apply sites_conserved.
  - by apply msa_sites_conserved.
Qed.

Lemma conservation_without_duplicates_witness :
  NoDup [("tool2", "Kinase", 12, 55)%string; ("tool2", "SH2", 100, 130)%string]
  ∧ NoDup (map site_key [(5, "S"%string, 9); (6, "T"%string, 8)])
  ∧ conserved Domains.first_of Domains.second_of
      (Domains.find_common_domains
         [("tool1", "Kinase", 10, 50)%string]
         [("tool2", "Kinase", 12, 55)%string; ("tool2", "SH2", 100, 130)%string])
      [("tool1", "Kinase", 10, 50)%string]
      [("tool2", "Kinase", 12, 55)%string; ("tool2", "SH2", 100, 130)%string]
  ∧ conserved PsSites.first_of PsSites.second_of
      (PsSites.find_common_sites
         [(5, "S"%string, 9); (6, "T"%string, 8)] [(5, "S"%string, 7)])
      [(5, "S"%string, 9); (6, "T"%string, 8)] [(5, "S"%string, 7)]
  ∧ conserved MsaPsSites.first_of MsaPsSites.second_of
      (MsaPsSites.find_common_sites_msa
         [(4, 3, "T"%string, 9)] [(4, 4, "T"%string, 8); (2, 2, "S"%string, 7)])
      [(4, 3, "T"%string, 9)] [(4, 4, "T"%string, 8); (2, 2, "S"%string, 7)].
Proof.
  assert (NoDup [("tool2", "Kinase", 12, 55)%string;
                 ("tool2", "SH2", 100, 130)%string]) as Hd
    by compute_done.
  assert (NoDup (map site_key [(5, "S"%string, 9); (6, "T"%string, 8)])) as Hs
    by compute_done.
  split; [exact Hd|]. split; [exact Hs|].
  apply (conservation_without_duplicates (score := Z)); try done.
  - compute_done.
  - compute_done.
Defined.

(** C1, as stated, fails on duplicates.  An exact duplicate in the second
    list of domains is dropped with its matched twin; two sites of the
    first list at one position and residue are both paired with the same
    site of the second list; two mapped sites of the second list at one
    column and residue are both dropped when one is matched, and two
    mapped sites of the first list at one column and residue are both
    paired with the same site of the second. *)
Lemma conservation_fails_on_duplicates :
  ¬ conservation_count
      (Domains.find_common_domains
         [("tool1", "Kinase", 10, 50)%string]
         [("tool2", "Kinase", 12, 55)%string; ("tool2", "Kinase", 12, 55)%string])
      [("tool1", "Kinase", 10, 50)%string]
      [("tool2", "Kinase", 12, 55)%string; ("tool2", "Kinase", 12, 55)%string]
  ∧ ¬ conservation_count
      (PsSites.find_common_sites
         [(5, "S"%string, 9); (5, "S"%string, 8)] [(5, "S"%string, 7)])
      [(5, "S"%string, 9); (5, "S"%string, 8)] [(5, "S"%string, 7)]
  ∧ ¬ conservation_count
      (MsaPsSites.find_common_sites_msa
         [(4, 3, "T"%string, 9)] [(4, 4, "T"%string, 8); (4, 4, "T"%string, 7)])
      [(4, 3, "T"%string, 9)] [(4, 4, "T"%string, 8); (4, 4, "T"%string, 7)]
  ∧ ¬ conservation_count
      (MsaPsSites.find_common_sites_msa
         [(4, 3, "T"%string, 9); (4, 3, "T"%string, 8)] [(4, 4, "T"%string, 7)])
      [(4, 3, "T"%string, 9); (4, 3, "T"%string, 8)] [(4, 4, "T"%string, 7)].
Proof.
  unfold conservation_count.
  split; [|split; [|split]]; vm_compute; discriminate.
Qed.

Section RawMatcherRule.
Context {score : Type} `{EqDecision score}.
Implicit Types (sites : list (Z * string * score)) (p : Z) (r : string).

Lemma first_match_first p r (before : list (Z * string * score)) b after :
  site_key b = (p, r) →
  (∀ y, y ∈ before → site_key y ≠ (p, r)) →
  PsSites.first_match p r (before ++ b :: after) = Some b.
Proof.
  intros Hb. induction before as [|[[p2 r2] sc2] before IH]; intros Hnone; simpl.
  - destruct b as [[pb rb] scb]. unfold site_key in Hb. simpl in Hb.
    injection Hb as -> ->. by rewrite decide_True.
  - rewrite decide_False.
    + apply IH. intros y Hy. apply Hnone. by right.
    + intros [-> ->]. by apply (Hnone (p2, r2, sc2) ltac:(left)).
Qed.

Lemma uses_of_map (b : Z * string * score)
    (common : list (Z * string * score * score)) :
  uses_of b common = occurrences b (map PsSites.second_of common).
Proof.
  unfold uses_of, occurrences.
  induction common as [|c common IH]; [done|]. cbn [map].
  rewrite !filter_cons. destruct (decide (PsSites.second_of c = b)); simpl;
    by rewrite IH.
Qed.

(** With distinct keys in the first list no entry of the second list is
    consumed twice. *)
Lemma distinct_keys_consume_once sites1 sites2 :
  NoDup (map site_key sites1) → consumed_at_most_once sites1 sites2.
Proof.
  intros Hnd b. destruct (sites_conserved sites1 sites2 Hnd) as (_ & _ & Hp).
  rewrite uses_of_map. unfold occurrences.
  assert (filter (λ x, x = b)
            (map PsSites.second_of
               (PsSites.find_common_sites sites1 sites2).1.1
             ++ (PsSites.find_common_sites sites1 sites2).2)
          ≡ₚ filter (λ x, x = b) sites2) as Hf by (by rewrite Hp).
  apply Permutation_length in Hf. rewrite filter_app, length_app in Hf. lia.
Qed.

End RawMatcherRule.

(** C2, as the code has it.  In [find_common_sites] an entry of the
    first list is matched exactly when some entry of the second list has
    its position and its residue, and it is then paired with the first
    such entry in the order of the second list, whether an earlier entry
    of the first list was paired with it already or not; an entry of the
    first list without a partner is unique to the first list, so that
    each entry of the first list is in exactly one of the two
    collections; the unique sites of the second list are entries of the
    second list, among them every entry that shares position and residue
    with no entry of the first; and when no two entries of the first list
    share position and residue, no entry of the second list is consumed
    by more than one match. *)
Theorem find_common_sites_first_occurrence {score : Type} `{EqDecision score}
    (sites1 sites2 : list (Z * string * score)) :
  (∀ p r sc1 sc2,
     (p, r, sc1, sc2) ∈ (PsSites.find_common_sites sites1 sites2).1.1
     ↔ (p, r, sc1) ∈ sites1
       ∧ ∃ before after,
           sites2 = before ++ (p, r, sc2) :: after
           ∧ ∀ y, y ∈ before → site_key y ≠ (p, r))
  ∧ (∀ a, a ∈ (PsSites.find_common_sites sites1 sites2).1.2
          ↔ a ∈ sites1 ∧ ∀ b, b ∈ sites2 → site_key b ≠ site_key a)
  ∧ map PsSites.first_of (PsSites.find_common_sites sites1 sites2).1.1
      ++ (PsSites.find_common_sites sites1 sites2).1.2 ≡ₚ sites1
  ∧ (∀ b, b ∈ (PsSites.find_common_sites sites1 sites2).2 → b ∈ sites2)
  ∧ (∀ b, b ∈ sites2 → (∀ a, a ∈ sites1 → site_key a ≠ site_key b) →
          b ∈ (PsSites.find_common_sites sites1 sites2).2)
  ∧ (NoDup (map site_key sites1) → consumed_at_most_once sites1 sites2).
Proof.
  split; [|split; [|split; [|split; [|split]]]];
    [| | | | |apply distinct_keys_consume_once].
  all: unfold PsSites.find_common_sites, PsSites.site_loop;
    destruct (fold_left _ sites1 _) as [[common unique1] unique2] eqn:Hloop;
    apply site_loop_inv in Hloop as (Hc & Hu & Hp & Hsub & Hkeep); simpl.
  - intros p r sc1 sc2. rewrite sort_by_key_elem_of, Hc. split.
    + intros (Ha & b & Hb & <-). split; [done|].
      apply first_match_Some in Hb as (before & after & -> & Hk & Hnone).
      exists before, after. split; [|done].
      destruct b as [[pb rb] scb]. unfold site_key in Hk. simpl in *.
      congruence.
    + intros (Ha & before & after & -> & Hnone). split; [done|].
      exists (p, r, sc2). split; [|done]. by apply first_match_first.
  - intros [[p r] sc]. rewrite sort_by_key_elem_of, Hu. simpl.
    by rewrite first_match_None.
  - rewrite <- Hp.
    apply Permutation_app; [apply Permutation_map|]; apply sort_by_key_perm.
  - intros b Hb%sort_by_key_elem_of. auto.
  - intros b Hb Hnone. apply sort_by_key_elem_of. auto.
Qed.

(** C2, as stated, fails: two entries of the first list at one position
    and residue are both paired with the first matching entry of the
    second list, which is thereby consumed twice, while the matching
    entry behind it, never consumed, is reported as unique. *)
Lemma find_common_sites_consumes_twice :
  PsSites.find_common_sites
    [(5, "S"%string, 9); (5, "S"%string, 8)]
    [(5, "S"%string, 7); (5, "S"%string, 6)]
  = ([(5, "S"%string, 9, 7); (5, "S"%string, 8, 7)],
     [],
     [(5, "S"%string, 6)])
  ∧ ¬ consumed_at_most_once
        [(5, "S"%string, 9); (5, "S"%string, 8)]
        [(5, "S"%string, 7); (5, "S"%string, 6)].
Proof.
  split; [vm_compute; reflexivity|].
  intros Hclaim. specialize (Hclaim (5, "S"%string, 7)).
  vm_compute in Hclaim. lia.
Qed.

(** ** Extraction of the sites *)

Lemma allowed_residues_letters filename r :
  r ∈ PsSites.allowed_residues filename →
  r = "S"%string ∨ r = "T"%string ∨ r = "Y"%string.
Proof.
  unfold PsSites.allowed_residues.
  destruct (contains "_Y" filename); [set_solver|].
  destruct (contains "_SorT" filename); set_solver.
Qed.

Section RowLoop.
Context {score : Type} `{EqDecision score}.
Variable int_of_string : string → option Z.
Variable float_of_string : string → option score.
Implicit Types (results : gmap string (list (Z * string * score))).
Implicit Types (headers_set allowed : gset string) (row : list string).

Lemma extract_row_same headers_set allowed results row :
  MsaPsSites.extract_row int_of_string float_of_string
    headers_set allowed results row
  = PsSites.extract_row int_of_string float_of_string
      headers_set allowed results row.
Proof. done. Qed.

Lemma extract_row_residues headers_set allowed results row :
  residues_in allowed results →
  residues_in allowed
    (PsSites.extract_row int_of_string float_of_string
       headers_set allowed results row).
Proof.
  intros Hres. unfold PsSites.extract_row.
  destruct row as [|fh [|pf [|rf [|sf extra]]]]; try done.
  destruct (int_of_string pf) as [pos|]; [|done].
  destruct (float_of_string sf) as [v|]; [|done].
  destruct (decide (upper rf ∉ allowed)) as [|Hallowed]; [done|].
  destruct (decide (short_header fh ∈ headers_set)); [|done].
  intros h sites s. rewrite lookup_insert. case_decide as Hh; [|apply Hres].
  intros [= <-] [Hs| ->%list_elem_of_singleton]%elem_of_app.
  - destruct (results !! short_header fh) as [old|] eqn:Hold; simpl in Hs.
    + by apply (Hres _ _ _ Hold).
    + by apply elem_of_nil in Hs.
  - simpl. by apply dec_stable.
Qed.

Lemma extract_rows_residues headers_set allowed rows results :
  residues_in allowed results →
  residues_in allowed
    (fold_left (PsSites.extract_row int_of_string float_of_string
                  headers_set allowed) rows results).
Proof.
  revert results. induction rows as [|row rows IH]; intros results Hres; simpl.
  - done.
  - by apply IH, extract_row_residues.
Qed.

(** A turn of the loop keeps what [results] holds. *)
Lemma extract_row_keeps headers_set allowed results row h s :
  s ∈ default [] (results !! h) →
  s ∈ default []
        (PsSites.extract_row int_of_string float_of_string
           headers_set allowed results row !! h).
Proof.
  intros Hs. unfold PsSites.extract_row.
  destruct row as [|fh [|pf [|rf [|sf extra]]]]; try done.
  destruct (int_of_string pf) as [pos|]; [|done].
  destruct (float_of_string sf) as [v|]; [|done].
  destruct (decide (upper rf ∉ allowed)); [done|].
  destruct (decide (short_header fh ∈ headers_set)); [|done].
  rewrite lookup_insert. case_decide as Hh; [|done].
  subst h. simpl. apply elem_of_app. by left.
Qed.

Lemma extract_rows_keep headers_set allowed rows results h s :
  s ∈ default [] (results !! h) →
  s ∈ default []
        (fold_left (PsSites.extract_row int_of_string float_of_string
                      headers_set allowed) rows results !! h).
Proof.
  revert results. induction rows as [|row rows IH]; intros results Hs; simpl.
  - done.
  - by apply IH, extract_row_keeps.
Qed.

(** A well-formed row for a requested header with an allowed residue,
    in whatever case, is stored. *)
Lemma extract_row_stores headers_set allowed results
    fh pf rf sf extra pos v :
  int_of_string pf = Some pos →
  float_of_string sf = Some v →
  upper rf ∈ allowed →
  short_header fh ∈ headers_set →
  (pos, upper rf, v)
    ∈ default []
        (PsSites.extract_row int_of_string float_of_string headers_set allowed
           results (fh :: pf :: rf :: sf :: extra) !! short_header fh).
Proof.
  intros Hpos Hv Hallowed Hh. unfold PsSites.extract_row.
  rewrite Hpos, Hv, decide_False, decide_True by auto.
  rewrite lookup_insert_eq. simpl.
  apply elem_of_app. right. by apply list_elem_of_singleton.
Qed.

Lemma extract_rows_store headers_set allowed before after
    fh pf rf sf extra pos v :
  int_of_string pf = Some pos →
  float_of_string sf = Some v →
  upper rf ∈ allowed →
  short_header fh ∈ headers_set →
  (pos, upper rf, v)
    ∈ default []
        (fold_left (PsSites.extract_row int_of_string float_of_string
                      headers_set allowed)
           (before ++ (fh :: pf :: rf :: sf :: extra) :: after) ∅
         !! short_header fh).
Proof.
  intros Hpos Hv Hallowed Hh. rewrite fold_left_app. cbn [fold_left].
  apply extract_rows_keep. by apply extract_row_stores.
Qed.

Lemma setdefault_lookup results h h' :
  default [] (MsaPsSites.setdefault results h !! h')
  = default [] (results !! h').
Proof.
  unfold MsaPsSites.setdefault.
  destruct (results !! h) eqn:Hh; [done|].
  rewrite lookup_insert. case_decide; [|done]. subst. by rewrite Hh.
Qed.

Lemma setdefaults_lookup headers results h' :
  default [] (fold_left MsaPsSites.setdefault headers results !! h')
  = default [] (results !! h').
Proof.
  revert results. induction headers as [|h headers IH]; intros results; simpl.
  - done.
  - by rewrite IH, setdefault_lookup.
Qed.

Lemma default_elem_of results h s :
  s ∈ default [] (results !! h)
  ↔ ∃ sites, results !! h = Some sites ∧ s ∈ sites.
Proof.
  destruct (results !! h) as [sites|]; simpl.
  - split; [eauto|]. by intros (? & [= <-] & ?).
  - split; [by intros ?%elem_of_nil|]. by intros (? & [=] & _).
Qed.

Lemma residues_in_default allowed results h s :
  residues_in allowed results → s ∈ default [] (results !! h) →
  s.1.2 ∈ allowed.
Proof. intros Hres (sites & Hs & Hin)%default_elem_of. eauto. Qed.

End RowLoop.

Section ResidueInvariant.
Context {score : Type} `{EqDecision score}.
Variable score_geb : score → score → bool.
Variable int_of_string : string → option Z.
Variable float_of_string : string → option score.

Lemma raw_extract_sites_residues filename rows headers results :
  PsSites.extract_sites int_of_string float_of_string filename rows headers
  = Ok results →
  residues_in (PsSites.allowed_residues filename) results.
Proof.
  unfold PsSites.extract_sites. case_decide; [done|]. intros [= <-].
  apply extract_rows_residues. intros h sites s. by rewrite lookup_empty.
Qed.

Lemma msa_extract_sites_residues filename rows headers :
  residues_in (PsSites.allowed_residues filename)
    (MsaPsSites.extract_sites int_of_string float_of_string
       filename rows headers).
Proof.
  unfold MsaPsSites.extract_sites. intros h sites s Hh Hs.
  assert (s ∈ default []
            (fold_left MsaPsSites.setdefault headers
               (fold_left
                  (MsaPsSites.extract_row int_of_string float_of_string
                     (list_to_set headers)
                     (MsaPsSites.allowed_residues filename)) rows ∅) !! h))
    as Hin by (by rewrite Hh).
  rewrite setdefaults_lookup in Hin. revert Hin.
  apply residues_in_default.
  apply (extract_rows_residues int_of_string float_of_string).
  intros h' sites' s'. by rewrite lookup_empty.
Qed.

Lemma filter_sites_by_cutoff_elem_of (sites : list (Z * string * score))
    cutoff s :
  s ∈ PsSites.filter_sites_by_cutoff score_geb sites cutoff → s ∈ sites.
Proof.
  unfold PsSites.filter_sites_by_cutoff.
  rewrite !list_elem_of_In, filter_In. tauto.
Qed.

Lemma raw_report_residues_allowed (allowed : gset string)
    (sites1 sites2 : list (Z * string * score)) r :
  (∀ s, s ∈ sites1 → s.1.2 ∈ allowed) →
  (∀ s, s ∈ sites2 → s.1.2 ∈ allowed) →
  r ∈ raw_report_residues (PsSites.find_common_sites sites1 sites2) →
  r ∈ allowed.
Proof.
  intros H1 H2. unfold PsSites.find_common_sites, PsSites.site_loop.
  destruct (fold_left _ sites1 _) as [[common unique1] unique2] eqn:Hloop.
  apply site_loop_inv in Hloop as (Hc & Hu & _ & Hsub & _).
  unfold raw_report_residues. cbn [fst snd].
  rewrite !elem_of_app, !elem_of_map_iff.
  intros [([[[p r'] sc1] sc2] & Hin & <-)|[(s & Hin & <-)|(s & Hin & <-)]];
    apply sort_by_key_elem_of in Hin.
  - apply Hc in Hin as [Hin _]. apply (H1 _ Hin).
  - apply Hu in Hin as [Hin _]. by apply H1.
  - by apply H2, Hsub.
Qed.

Lemma msa_report_residues_allowed (allowed : gset string)
    (mapped1 mapped2 : list (Z * Z * string * score)) r :
  (∀ s, s ∈ mapped1 → s.1.2 ∈ allowed) →
  (∀ s, s ∈ mapped2 → s.1.2 ∈ allowed) →
  r ∈ msa_report_residues (MsaPsSites.find_common_sites_msa mapped1 mapped2) →
  r ∈ allowed.
Proof.
  intros H1 H2. unfold MsaPsSites.find_common_sites_msa, MsaPsSites.msa_loop.
  destruct (fold_left _ mapped1 _) as [[common unique1] matched] eqn:Hloop.
  apply msa_loop_inv in Hloop as (Hc & Hu & _ & _).
  unfold msa_report_residues. cbn [fst snd].
  rewrite !elem_of_app, !elem_of_map_iff.
  intros [([[[[[col raw1] raw2] r'] sc1] sc2] & Hin & <-)
         |[(s & Hin & <-)|(s & Hin & <-)]];
    apply sort_by_key_elem_of in Hin.
  - apply Hc in Hin as [Hin _]. apply (H1 _ Hin).
  - apply Hu in Hin as [Hin _]. by apply H1.
  - apply list_elem_of_filter in Hin as [_ Hin]. by apply H2.
Qed.

Lemma converted_residues_allowed (allowed : gset string)
    (sites : list (Z * string * score)) (pos_map : gmap Z Z) cutoff s :
  (∀ x, x ∈ sites → x.1.2 ∈ allowed) →
  s ∈ MsaPsSites.convert_sites_to_msa
        (MsaPsSites.filter_sites_by_cutoff score_geb sites cutoff) pos_map →
  s.1.2 ∈ allowed.
Proof.
  intros Hall. destruct s as [[[col raw] res] sc].
  intros [Hin _]%convert_elem_of.
  apply filter_sites_by_cutoff_elem_of in Hin. apply (Hall _ Hin).
Qed.

End ResidueInvariant.

(** C10.  [extract_sites] (in both modules) applies [upper()] to the
    residue field before it tests the residue against the allowed set.
    The allowed set, fixed by the file name, is made of the one-letter
    uppercase strings "S", "T" and "Y".  Every residue in the output of
    [extract_sites] is in the allowed set.  A row with a numeric position
    and score for a requested header whose residue is allowed once
    uppercased (a lowercase "s", "t" or "y" becomes "S", "T" or "Y") is
    kept, with the uppercased residue.  And every residue in a report of
    [compare_phospho_sites], raw or aligned, is in the allowed set. *)
Theorem extract_sites_residues_uppercase {score : Type} `{EqDecision score}
    (score_geb : score → score → bool)
    (int_of_string : string → option Z)
    (float_of_string : string → option score)
    (filename : string) (rows : list (list string)) (headers : list string)
    (cutoff : score) :
  (∀ r, r ∈ PsSites.allowed_residues filename →
        r = "S"%string ∨ r = "T"%string ∨ r = "Y"%string)
  ∧ MsaPsSites.allowed_residues filename = PsSites.allowed_residues filename
  ∧ (upper "s" = "S" ∧ upper "t" = "T" ∧ upper "y" = "Y")%string
  ∧ (∀ results,
       PsSites.extract_sites int_of_string float_of_string
         filename rows headers = Ok results →
       residues_in (PsSites.allowed_residues filename) results)
  ∧ residues_in (PsSites.allowed_residues filename)
      (MsaPsSites.extract_sites int_of_string float_of_string
         filename rows headers)
  ∧ (∀ before after fh pf rf sf extra pos v,
       rows = before ++ (fh :: pf :: rf :: sf :: extra) :: after →
       int_of_string pf = Some pos →
       float_of_string sf = Some v →
       upper rf ∈ PsSites.allowed_residues filename →
       short_header fh ∈ headers →
       (∃ results sites,
          PsSites.extract_sites int_of_string float_of_string
            filename rows headers = Ok results
          ∧ results !! short_header fh = Some sites
          ∧ (pos, upper rf, v) ∈ sites)
       ∧ (∃ sites,
            MsaPsSites.extract_sites int_of_string float_of_string
              filename rows headers !! short_header fh = Some sites
            ∧ (pos, upper rf, v) ∈ sites))
  ∧ (∀ report r,
       PsSites.compare_phospho_sites score_geb int_of_string float_of_string
         filename rows headers cutoff = Ok report →
       r ∈ raw_report_residues report →
       r ∈ PsSites.allowed_residues filename)
  ∧ (∀ msa report r,
       MsaPsSites.compare_phospho_sites score_geb int_of_string
         float_of_string filename rows msa headers cutoff = Ok report →
       r ∈ msa_report_residues report →
       r ∈ PsSites.allowed_residues filename).
Proof.
  split; [apply allowed_residues_letters|]. split; [done|]. split; [done|].
  split; [apply raw_extract_sites_residues|].
  split; [apply msa_extract_sites_residues|].
  split; [|split].
  - intros before after fh pf rf sf extra pos v -> Hpos Hv Hallowed Hh.
    assert (short_header fh ∈ (list_to_set headers : gset string)) as Hset
      by (by apply elem_of_list_to_set).
    pose proof (extract_rows_store int_of_string float_of_string
                  (list_to_set headers) (PsSites.allowed_residues filename)
                  before after fh pf rf sf extra pos v Hpos Hv Hallowed Hset)
      as Hstored.
    split.
    + unfold PsSites.extract_sites. case_decide as Hempty.
      * rewrite Hempty, lookup_empty in Hstored. by apply elem_of_nil in Hstored.
      * apply default_elem_of in Hstored as (sites & Hs & Hin). eauto.
    + apply default_elem_of. unfold MsaPsSites.extract_sites.
      by rewrite setdefaults_lookup.
  - intros report r. unfold PsSites.compare_phospho_sites.
    destruct headers as [|header1 [|header2 [|? ?]]]; try done.
    destruct (PsSites.extract_sites _ _ _ _ _) as [site_dict|] eqn:Hex; [|done].
    apply raw_extract_sites_residues in Hex. intros [= <-].
    apply raw_report_residues_allowed; intros s Hs;
      apply filter_sites_by_cutoff_elem_of in Hs;
      by apply (residues_in_default _ _ _ _ Hex Hs).
  - intros msa report r. unfold MsaPsSites.compare_phospho_sites.
    destruct headers as [|header1 [|header2 [|? ?]]]; try done.
    destruct (msa !! header1) as [aligned1|]; [|done].
    destruct (msa !! header2) as [aligned2|]; [|done].
    case_bool_decide; [done|]. case_bool_decide; [done|]. intros [= <-].
    pose proof (msa_extract_sites_residues int_of_string float_of_string
                  filename rows [header1; header2]) as Hex.
    apply msa_report_residues_allowed; intros s Hs;
      apply (converted_residues_allowed score_geb
               (PsSites.allowed_residues filename)) in Hs; try done;
      intros x Hx; by apply (residues_in_default _ _ _ _ Hex Hx).
Qed.

(** A lowercase residue is kept, uppercased. *)
Example extract_sites_lowercase_residue :
  PsSites.extract_sites numeral numeral "predictions_SorT.tsv"
    [["sp|P1|A"; "5"; "s"; "9"]; ["sp|P1|A"; "7"; "y"; "9"]]%string
    ["A"; "B"]%string
  = Ok {[ "A"%string := [(5, "S"%string, 9)] ]}.
Proof. vm_compute. reflexivity. Qed.

(** ** Nothing to compare *)

Section NothingToCompare.
Context {score : Type} `{EqDecision score}.
Variable score_geb : score → score → bool.
Variable int_of_string : string → option Z.
Variable float_of_string : string → option score.

Lemma sort_by_key_nil {A} (key : A → Z) (l : list A) :
  sort_by_key key l = [] → l = [].
Proof.
  intros Hs. apply length_zero_iff_nil.
  by rewrite <- (sort_by_key_length key), Hs.
Qed.

Lemma filter_sites_by_cutoff_none (sites : list (Z * string * score)) cutoff :
  (∀ s, s ∈ sites → score_geb s.2 cutoff = false) →
  PsSites.filter_sites_by_cutoff score_geb sites cutoff = [].
Proof.
  unfold PsSites.filter_sites_by_cutoff.
  induction sites as [|s sites IH]; intros Hall; simpl; [done|].
  rewrite (Hall s) by left. apply IH. intros x Hx. apply Hall. by right.
Qed.

(** The aligned comparison never writes an empty report. *)
Lemma msa_compare_never_empty filename rows msa headers cutoff report :
  MsaPsSites.compare_phospho_sites score_geb int_of_string float_of_string
    filename rows msa headers cutoff = Ok report →
  report ≠ ([], [], []).
Proof.
  unfold MsaPsSites.compare_phospho_sites.
  destruct headers as [|header1 [|header2 [|? ?]]]; try done.
  destruct (msa !! header1) as [aligned1|]; [|done].
  destruct (msa !! header2) as [aligned2|]; [|done].
  case_bool_decide; [done|]. case_bool_decide as Hsome; [done|].
  intros [= <-]. unfold MsaPsSites.find_common_sites_msa, MsaPsSites.msa_loop.
  destruct (fold_left _ _ _) as [[common unique1] matched] eqn:Hloop.
  apply msa_loop_inv in Hloop as (_ & _ & Hk & Hp).
  intros [= Hc%sort_by_key_nil Hu1%sort_by_key_nil Hu2%sort_by_key_nil].
  subst common unique1. simpl in Hp.
  apply Permutation_nil in Hp. apply Hsome. split; [done|].
  destruct (MsaPsSites.convert_sites_to_msa
              (MsaPsSites.filter_sites_by_cutoff score_geb _ cutoff)
              (MsaPsSites.map_seq_to_msa_positions aligned2))
    as [|b mapped2]; [done|].
  rewrite filter_cons_True in Hu2; [done|].
  rewrite Hk. intros (a & Ha & _). rewrite Hp in Ha. by apply elem_of_nil in Ha.
Qed.

End NothingToCompare.

(** C3, on the code.  The comparison on raw positions has no check after
    the cutoff: when [extract_sites] has found sites and the cutoff
    removes them all, [compare_phospho_sites] of [ps_sites.py] returns
    normally and hands an empty report to the writer.  The comparison in
    alignment coordinates, on the same input and any alignment, never
    does: it raises or its report is not empty. *)
Theorem raw_compare_writes_empty_report {score : Type} `{EqDecision score}
    (score_geb : score → score → bool)
    (int_of_string : string → option Z)
    (float_of_string : string → option score)
    (filename : string) (rows : list (list string))
    (header1 header2 : string) (cutoff : score)
    (site_dict : gmap string (list (Z * string * score))) :
  PsSites.extract_sites int_of_string float_of_string
    filename rows [header1; header2] = Ok site_dict →
  (∀ h sites s, site_dict !! h = Some sites → s ∈ sites →
                score_geb s.2 cutoff = false) →
  PsSites.compare_phospho_sites score_geb int_of_string float_of_string
    filename rows [header1; header2] cutoff = Ok ([], [], [])
  ∧ (∀ msa report,
       MsaPsSites.compare_phospho_sites score_geb int_of_string
         float_of_string filename rows msa [header1; header2] cutoff
       = Ok report →
       report ≠ ([], [], [])).
Proof.
  intros Hex Hbelow. split; [|intros msa report; apply msa_compare_never_empty].
  unfold PsSites.compare_phospho_sites. rewrite Hex.
  rewrite !filter_sites_by_cutoff_none; [done| |].
  - intros s (sites & Hs & Hin)%default_elem_of. eauto.
  - intros s (sites & Hs & Hin)%default_elem_of. eauto.
Qed.

Lemma raw_compare_writes_empty_report_witness :
  PsSites.extract_sites numeral numeral "predictions.tsv"
    [["sp|P1|A"; "5"; "S"; "1"]]%string ["A"; "B"]%string
  = Ok {[ "A"%string := [(5, "S"%string, 1)] ]}
  ∧ PsSites.compare_phospho_sites Z.geb numeral numeral "predictions.tsv"
      [["sp|P1|A"; "5"; "S"; "1"]]%string ["A"; "B"]%string 2
    = Ok ([], [], [])
  ∧ MsaPsSites.compare_phospho_sites Z.geb numeral numeral "predictions.tsv"
      [["sp|P1|A"; "5"; "S"; "1"]]%string
      {[ "A"%string := "MKSTS"%string; "B"%string := "MKSTY"%string ]}
      ["A"; "B"]%string 2
    = Raise (ValueError
        "After mapping to the MSA         and applying the cutoff no sites remain.").
Proof.
  assert (PsSites.extract_sites numeral numeral "predictions.tsv"
            [["sp|P1|A"; "5"; "S"; "1"]]%string ["A"; "B"]%string
          = Ok {[ "A"%string := [(5, "S"%string, 1)] ]}) as Hex
    by (vm_compute; reflexivity).
  split; [exact Hex|]. split.
  - apply (raw_compare_writes_empty_report Z.geb numeral numeral
             "predictions.tsv" [["sp|P1|A"; "5"; "S"; "1"]]%string
             "A" "B" 2 _ Hex).
    intros h sites s Hh Hs.
    apply lookup_singleton_Some in Hh as [_ <-].
    apply list_elem_of_singleton in Hs as ->. reflexivity.
  - vm_compute. reflexivity.
Defined.

(** * Further properties of the three modules *)

(** ** The header convention *)

Section ShortHeader.

Lemma split_last (sep : ascii) (s : string) :
  ∃ init lst,
    split sep s = init ++ [lst]
    ∧ (∀ c, In c (list_ascii_of_string lst) → c ≠ sep)
    ∧ (init = [] → s = lst)
    ∧ (init ≠ [] → ∃ prefix, s = (prefix ++ String sep lst)%string).
Proof.
  induction s as [|c s (init & lst & Hsplit & Hno & Hnil & Hcons)]; simpl.
  - exists [], EmptyString. split; [done|]. split; [by intros ? []|].
    split; done.
  - destruct (Ascii.eqb_spec c sep) as [->|Hc].
    + exists (EmptyString :: init), lst. rewrite Hsplit.
      split; [done|]. split; [done|]. split; [done|]. intros _.
      destruct init as [|p ps].
      * exists EmptyString. by rewrite (Hnil eq_refl).
      * destruct Hcons as [prefix ->]; [done|].
        by exists (String sep prefix).
    + rewrite Hsplit. destruct init as [|p ps]; simpl.
      * exists [], (String c lst). split; [done|]. split.
        -- simpl. intros c' [<-|Hin]; [done|auto].
        -- split; [|done]. intros _. by rewrite (Hnil eq_refl).
      * exists (String c p :: ps), lst. split; [done|]. split; [done|].
        split; [done|]. intros _. destruct Hcons as [prefix ->]; [done|].
        by exists (String c prefix).
Qed.

Lemma split_no_sep (sep : ascii) (s : string) :
  (∀ c, In c (list_ascii_of_string s) → c ≠ sep) → split sep s = [s].
Proof.
  induction s as [|c s IH]; simpl; [done|]. intros Hno.
  destruct (Ascii.eqb_spec c sep) as [->|Hc].
  - by destruct (Hno sep (or_introl eq_refl)).
  - rewrite IH; [done|]. intros c' Hc'. apply Hno. by right.
Qed.

End ShortHeader.

(** X1.  The short header of a header is what follows its last ['|']: it
    holds no ['|'], the header ends with it, a ['|'] standing before it
    unless the header holds none and is its own short header, and
    shortening twice is shortening once. *)
Theorem short_header_after_last_pipe (full_header : string) :
  (∀ c, In c (list_ascii_of_string (short_header full_header)) →
        c ≠ "|"%char)
  ∧ (full_header = short_header full_header
     ∨ ∃ prefix,
         full_header = (prefix ++ "|" ++ short_header full_header)%string)
  ∧ ((∀ c, In c (list_ascii_of_string full_header) → c ≠ "|"%char) →
     short_header full_header = full_header)
  ∧ short_header (short_header full_header) = short_header full_header.
Proof.
  unfold short_header.
  destruct (split_last "|" full_header)
    as (init & lst & Hsplit & Hno & Hnil & Hcons).
  rewrite Hsplit, last_last.
  split; [done|]. split; [|split].
  - destruct init as [|p ps]; [left; by apply Hnil|right].
    destruct Hcons as [prefix ->]; [done|]. by exists prefix.
  - intros Hall. rewrite split_no_sep in Hsplit by done.
    destruct init as [|p [|q ps]]; simpl in Hsplit.
    + by injection Hsplit as ->.
    + discriminate.
    + discriminate.
  - by rewrite split_no_sep.
Qed.

(** ** Extraction as a grouping of the rows *)

Section Grouping.
Context {A : Type}.
Implicit Types (results : gmap string (list A)) (h : string).
Implicit Types (contribution : list string → option (string * A)).

Lemma for_header_cons h (hv : string * A) contributions :
  for_header h (hv :: contributions)
  = (if decide (hv.1 = h) then [hv.2] else []) ++ for_header h contributions.
Proof. unfold for_header. simpl. by destruct (decide (hv.1 = h)). Qed.

Lemma grouping_lookup contribution body rows results h :
  appends contribution body →
  default [] (fold_left body rows results !! h)
  = default [] (results !! h) ++ for_header h (omap contribution rows).
Proof.
  intros Hbody. revert results.
  induction rows as [|row rows IH]; intros results; simpl.
  - by rewrite app_nil_r.
  - rewrite IH, Hbody. destruct (contribution row) as [[h' x]|]; [|done].
    rewrite for_header_cons. simpl. rewrite lookup_insert.
    destruct (decide (h' = h)) as [->|Hne]; simpl.
    + by rewrite <- app_assoc.
    + done.
Qed.

Lemma grouping_keys contribution body rows results (P : string → Prop) :
  appends contribution body →
  (∀ row h x, contribution row = Some (h, x) → P h) →
  (∀ h l, results !! h = Some l → P h ∧ l ≠ []) →
  ∀ h l, fold_left body rows results !! h = Some l → P h ∧ l ≠ [].
Proof.
  intros Hbody HP. revert results.
  induction rows as [|row rows IH]; intros results Hres; simpl; [done|].
  apply IH. rewrite Hbody.
  destruct (contribution row) as [[h' x]|] eqn:Hrow; [|done].
  intros h l. rewrite lookup_insert. case_decide as Hh; [|apply Hres].
  subst h'. intros [= <-]. split; [by eapply HP|].
  by destruct (default [] (results !! h)).
Qed.

Lemma grouping_empty contribution body rows :
  appends contribution body →
  fold_left body rows ∅ = ∅ ↔ omap contribution rows = [].
Proof.
  intros Hbody. split.
  - intros Hempty.
    destruct (omap contribution rows) as [|[h x] l] eqn:Hom; [done|].
    pose proof (grouping_lookup contribution body rows ∅ h Hbody) as Hl.
    rewrite Hempty, Hom, lookup_empty, for_header_cons in Hl. simpl in Hl.
    by rewrite decide_True in Hl.
  - intros Hom. apply map_eq. intros h. rewrite lookup_empty.
    destruct (fold_left body rows ∅ !! h) as [l|] eqn:Hl; [|done].
    pose proof (grouping_lookup contribution body rows ∅ h Hbody) as Heq.
    rewrite Hl, Hom in Heq. simpl in Heq. subst l.
    pose proof (grouping_keys contribution body rows ∅ (λ _, True)
                  Hbody) as Hkeys.
    destruct (Hkeys ltac:(done) ltac:(by intros ? ?; rewrite lookup_empty)
                h [] Hl) as [_ Hne].
    done.
Qed.

End Grouping.


Section GroupingSites.
Context {score : Type} `{EqDecision score}.
Variable int_of_string : string → option Z.
Variable float_of_string : string → option score.



End GroupingSites.


Section GroupingDomains.
Variable int_of_string : string → option Z.

Lemma domain_row_appends (headers_set : gset string) :
  appends (row_domain int_of_string headers_set)
    (DomainsRest.extract_row int_of_string headers_set).
Proof.
  intros results row. unfold DomainsRest.extract_row, row_domain.
  destruct row as [|f0 [|f1 [|f2 [|f3 [|f4 [|f5 [|f6 [|f7 extra]]]]]]]];
    try done.
  destruct (decide (short_header f0 ∉ headers_set)) as [Hno|Hyes].
  - destruct (int_of_string f6), (int_of_string f7); try done.
    by rewrite decide_False.
  - apply dec_stable in Hyes.
    destruct (int_of_string f6), (int_of_string f7); try done.
    by rewrite decide_True.
Qed.

Lemma row_domain_header (headers_set : gset string) row h x :
  row_domain int_of_string headers_set row = Some (h, x) → h ∈ headers_set.
Proof.
  unfold row_domain.
  destruct row as [|f0 [|f1 [|f2 [|f3 [|f4 [|f5 [|f6 [|f7 extra]]]]]]]];
    try done.
  destruct (int_of_string f6), (int_of_string f7); try done.
  case_decide; [|done]. by intros [= <- _].
Qed.

End GroupingDomains.

(** X3.  [extract_headers] groups the rows of the domain file by header:
    it raises exactly when no row contributes a domain to a requested
    header; otherwise, for every header, the list it holds is made of
    the domains contributed by the rows of that header, in the order of
    the rows, a key being present exactly when its list is not empty and
    only for a requested header. *)
Theorem extract_headers_groups_rows (int_of_string : string → option Z)
    (rows : list (list string)) (headers : list string) (h : string) :
  (DomainsRest.extract_headers int_of_string rows headers
   = Raise (ValueError "No domains found for headers: ")
   ↔ domain_contributions int_of_string rows headers = [])
  ∧ (∀ results,
       DomainsRest.extract_headers int_of_string rows headers = Ok results →
       default [] (results !! h)
       = for_header h (domain_contributions int_of_string rows headers)
       ∧ (is_Some (results !! h) ↔ default [] (results !! h) ≠ [])
       ∧ (is_Some (results !! h) → h ∈ headers)).
Proof.
  pose proof (domain_row_appends int_of_string (list_to_set headers))
    as Hbody.
  pose proof (grouping_keys _ _ rows ∅ (λ h, h ∈ headers) Hbody) as Hkeys.
  assert (∀ h l,
            fold_left (DomainsRest.extract_row int_of_string
                         (list_to_set headers)) rows ∅ !! h
            = Some l → h ∈ headers ∧ l ≠ []) as Hk.
  { apply Hkeys.
    - intros row h' x Hrow%row_domain_header.
      by apply elem_of_list_to_set in Hrow.
    - intros h' l. by rewrite lookup_empty. }
  clear Hkeys. unfold domain_contributions. split.
  - unfold DomainsRest.extract_headers.
    rewrite <- (grouping_empty _ _ rows Hbody). case_decide; split; done.
  - intros results. unfold DomainsRest.extract_headers. case_decide; [done|].
    intros [= <-]. split; [|split].
    + by rewrite (grouping_lookup _ _ rows ∅ h Hbody), lookup_empty.
    + split.
      * intros [l Hl]. rewrite Hl. simpl. by destruct (Hk h l Hl).
      * destruct (fold_left _ rows ∅ !! h); [eauto|done].
    + intros [l Hl]. by destruct (Hk h l Hl).
Qed.

(** ** Which column a raw position gets *)

Section Columns.
Implicit Types (mapping : gmap Z Z) (aligned_seq : string).

Lemma substring_one a rest :
  substring 0 1 (String a rest) = String a EmptyString.
Proof. by destruct rest. Qed.

Lemma substring_zero rest : substring 0 0 rest = EmptyString.
Proof. by destruct rest. Qed.

Lemma map_loop_old aligned_seq : ∀ msa_idx mapping raw_pos p,
  p ≤ raw_pos →
  MsaPsSites.map_loop aligned_seq msa_idx mapping raw_pos !! p = mapping !! p.
Proof.
  induction aligned_seq as [|aa rest IH]; intros msa_idx mapping raw_pos p Hp;
    simpl; [done|].
  destruct (MsaPsSites.is_gap aa).
  - by apply IH.
  - rewrite IH by lia. apply lookup_insert_ne. lia.
Qed.

Lemma map_loop_column aligned_seq : ∀ msa_idx mapping raw_pos i aa,
  String.get i aligned_seq = Some aa →
  MsaPsSites.is_gap aa = false →
  MsaPsSites.map_loop aligned_seq msa_idx mapping raw_pos
    !! (raw_pos + count_non_gap (substring 0 (S i) aligned_seq))
  = Some (msa_idx + Z.of_nat i).
Proof.
  induction aligned_seq as [|a rest IH];
    intros msa_idx mapping raw_pos i aa Hget Hgap; [done|].
  destruct i as [|j].
  - injection Hget as ->.
    rewrite substring_one.
    cbn [count_non_gap MsaPsSites.map_loop]. rewrite Hgap.
    replace (raw_pos + (1 + 0)) with (raw_pos + 1) by lia.
    replace (msa_idx + Z.of_nat 0) with msa_idx by lia.
    rewrite map_loop_old by lia. apply lookup_insert_eq.
  - cbn [String.get] in Hget.
    change (substring 0 (S (S j)) (String a rest))
      with (String a (substring 0 (S j) rest)).
    cbn [count_non_gap MsaPsSites.map_loop].
    destruct (MsaPsSites.is_gap a).
    + rewrite (IH (msa_idx + 1) mapping raw_pos j aa Hget Hgap). f_equal. lia.
    + replace (raw_pos + (1 + count_non_gap (substring 0 (S j) rest)))
        with ((raw_pos + 1) + count_non_gap (substring 0 (S j) rest)) by lia.
      rewrite (IH (msa_idx + 1) _ (raw_pos + 1) j aa Hget Hgap). f_equal. lia.
Qed.

Lemma map_loop_column_inv aligned_seq : ∀ msa_idx mapping raw_pos p c,
  (∀ q, raw_pos < q → mapping !! q = None) →
  raw_pos < p →
  MsaPsSites.map_loop aligned_seq msa_idx mapping raw_pos !! p = Some c →
  ∃ i aa,
    c = msa_idx + Z.of_nat i
    ∧ String.get i aligned_seq = Some aa
    ∧ MsaPsSites.is_gap aa = false
    ∧ p = raw_pos + count_non_gap (substring 0 (S i) aligned_seq).
Proof.
  induction aligned_seq as [|a rest IH];
    intros msa_idx mapping raw_pos p c Hfree Hp; simpl.
  - intros Hc. by rewrite Hfree in Hc.
  - destruct (MsaPsSites.is_gap a) eqn:Ha.
    + intros (i & aa & -> & Hget & Hgap & ->)%IH; [|done|done].
      exists (S i), aa. split; [lia|]. split; [done|]. split; [done|].
      change (substring 0 (S (S i)) (String a rest))
        with (String a (substring 0 (S i) rest)).
      cbn [count_non_gap]. rewrite ?Ha. done.
    + destruct (decide (p = raw_pos + 1)) as [->|Hne].
      * rewrite map_loop_old, lookup_insert_eq by lia. intros [= <-].
        exists 0%nat, a. split; [lia|]. split; [done|]. split; [done|].
        rewrite ?substring_one, ?substring_zero.
        cbn [count_non_gap]. rewrite ?Ha. lia.
      * intros (i & aa & -> & Hget & Hgap & ->)%IH.
        -- exists (S i), aa. split; [lia|]. split; [done|]. split; [done|].
           change (substring 0 (S (S i)) (String a rest))
             with (String a (substring 0 (S i) rest)).
           cbn [count_non_gap]. rewrite ?Ha. lia.
        -- intros q Hq. rewrite lookup_insert_ne by lia. apply Hfree. lia.
        -- lia.
Qed.

Lemma count_non_gap_gap_free aligned_seq : ∀ i,
  (∀ aa, In aa (list_ascii_of_string aligned_seq) →
         MsaPsSites.is_gap aa = false) →
  (i < String.length aligned_seq)%nat →
  count_non_gap (substring 0 (S i) aligned_seq) = Z.of_nat (S i)
  ∧ ∃ aa, String.get i aligned_seq = Some aa ∧ MsaPsSites.is_gap aa = false.
Proof.
  induction aligned_seq as [|a rest IH]; intros i Hall Hi; simpl in Hi; [lia|].
  assert (MsaPsSites.is_gap a = false) as Ha by (apply Hall; by left).
  destruct i as [|j].
  - split; [|by exists a].
    rewrite substring_one.
    cbn [count_non_gap]. rewrite Ha. lia.
  - destruct (IH j) as [Hcount Hget]; [|lia|].
    { intros aa Haa. apply Hall. by right. }
    split; [|done].
    change (substring 0 (S (S j)) (String a rest))
      with (String a (substring 0 (S j) rest)).
    cbn [count_non_gap]. rewrite Ha, Hcount. lia.
Qed.

End Columns.

(** X4.  [map_seq_to_msa_positions] sends the raw position of every
    character that is not a gap to the column of that character: the
    character at index [i] (from 0), when it is not a gap, has for raw
    position the number of non-gap characters up to and including it,
    and that position is mapped to column [i + 1].  The mapping holds
    nothing else.  On a sequence without gaps every position is its own
    column. *)
Theorem map_seq_to_msa_positions_columns (aligned_seq : string) :
  (∀ i aa,
     String.get i aligned_seq = Some aa →
     MsaPsSites.is_gap aa = false →
     MsaPsSites.map_seq_to_msa_positions aligned_seq
       !! count_non_gap (substring 0 (S i) aligned_seq)
     = Some (Z.of_nat i + 1))
  ∧ (∀ p c,
       MsaPsSites.map_seq_to_msa_positions aligned_seq !! p = Some c →
       ∃ i aa,
         c = Z.of_nat i + 1
         ∧ String.get i aligned_seq = Some aa
         ∧ MsaPsSites.is_gap aa = false
         ∧ p = count_non_gap (substring 0 (S i) aligned_seq))
  ∧ ((∀ aa, In aa (list_ascii_of_string aligned_seq) →
            MsaPsSites.is_gap aa = false) →
     ∀ p, 1 ≤ p ≤ Z.of_nat (String.length aligned_seq) →
          MsaPsSites.map_seq_to_msa_positions aligned_seq !! p = Some p).
Proof.
  unfold MsaPsSites.map_seq_to_msa_positions. split; [|split].
  - intros i aa Hget Hgap.
    pose proof (map_loop_column aligned_seq 1 ∅ 0 i aa Hget Hgap) as Hcol.
    rewrite Z.add_0_l in Hcol. rewrite Hcol. f_equal. lia.
  - intros p c Hc.
    destruct (decide (0 < p)) as [Hp|Hp].
    + destruct (map_loop_column_inv aligned_seq 1 ∅ 0 p c)
        as (i & aa & -> & Hget & Hgap & ->); try done.
      exists i, aa. split; [lia|]. split; [done|]. split; [done|lia].
    + rewrite map_loop_old in Hc by lia. by rewrite lookup_empty in Hc.
  - intros Hall p Hp.
    destruct (count_non_gap_gap_free aligned_seq (Z.to_nat (p - 1)) Hall)
      as (Hcount & aa & Hget & Hgap); [lia|].
    pose proof (map_loop_column aligned_seq 1 ∅ 0 _ aa Hget Hgap) as Hcol.
    rewrite Hcount in Hcol.
    replace (0 + Z.of_nat (S (Z.to_nat (p - 1)))) with p in Hcol by lia.
    rewrite Hcol. f_equal. lia.
Qed.

(** ** Conversion composed with the mapper and with the filter *)

Lemma map_seq_to_msa_positions_increasing (aligned_seq : string) :
  increasing (MsaPsSites.map_seq_to_msa_positions aligned_seq).
Proof.
  destruct (map_loop_inv aligned_seq 1 ∅ 0) as [_ Hinc]; [done| | | |done].
  - intros p. rewrite lookup_empty. split; [by intros [? ?] | lia].
  - intros p c. by rewrite lookup_empty.
  - intros p1 p2 c1 c2. by rewrite lookup_empty.
Qed.

(** X5.  Converted with the map of an aligned sequence, sites keep the
    order of their raw positions: of two converted sites the one with
    the smaller raw position has the smaller column, and two sites share
    a column only if they share the raw position. *)
Theorem convert_sites_to_msa_keeps_order {score : Type}
    (aligned_seq : string) (sites : list (Z * string * score))
    (a b : Z * Z * string * score) :
  a ∈ MsaPsSites.convert_sites_to_msa sites
        (MsaPsSites.map_seq_to_msa_positions aligned_seq) →
  b ∈ MsaPsSites.convert_sites_to_msa sites
        (MsaPsSites.map_seq_to_msa_positions aligned_seq) →
  (a.1.1.2 < b.1.1.2 ↔ msa_col_of a < msa_col_of b)
  ∧ (a.1.1.2 = b.1.1.2 ↔ msa_col_of a = msa_col_of b).
Proof.
  destruct a as [[[ca pa] ra] sa], b as [[[cb pb] rb] sb].
  intros [_ Ha]%convert_elem_of [_ Hb]%convert_elem_of.
  pose proof (map_seq_to_msa_positions_increasing aligned_seq) as Hinc.
  unfold msa_col_of. simpl.
  destruct (Z.lt_trichotomy pa pb) as [Hlt|[->|Hgt]].
  - pose proof (Hinc _ _ _ _ Ha Hb Hlt). lia.
  - rewrite Ha in Hb. injection Hb as ->. lia.
  - pose proof (Hinc _ _ _ _ Hb Ha Hgt). lia.
Qed.

Lemma convert_sites_to_msa_keeps_order_witness :
  (4, 3, "T"%string, 9)
    ∈ MsaPsSites.convert_sites_to_msa
        [(1, "S"%string, 5); (3, "T"%string, 9)]
        (MsaPsSites.map_seq_to_msa_positions "MK-TY")
  ∧ (1, 1, "S"%string, 5)
      ∈ MsaPsSites.convert_sites_to_msa
          [(1, "S"%string, 5); (3, "T"%string, 9)]
          (MsaPsSites.map_seq_to_msa_positions "MK-TY")
  ∧ (1 < 3 ↔ msa_col_of (1, 1, "S"%string, 5) < msa_col_of (4, 3, "T"%string, 9)).
Proof.
  assert ((1, 1, "S"%string, 5)
            ∈ MsaPsSites.convert_sites_to_msa
                [(1, "S"%string, 5); (3, "T"%string, 9)]
                (MsaPsSites.map_seq_to_msa_positions "MK-TY")) as Ha
    by (vm_compute; left).
  assert ((4, 3, "T"%string, 9)
            ∈ MsaPsSites.convert_sites_to_msa
                [(1, "S"%string, 5); (3, "T"%string, 9)]
                (MsaPsSites.map_seq_to_msa_positions "MK-TY")) as Hb
    by (vm_compute; right; left).
  split; [exact Hb|]. split; [exact Ha|].
  exact (proj1 (convert_sites_to_msa_keeps_order "MK-TY" _ _ _ Ha Hb)).
Defined.

(** X6.  The cutoff filter and the conversion commute: filtering the raw
    sites and converting what is left gives the converted sites whose
    score passes the cutoff. *)
Theorem convert_sites_to_msa_after_filter {score : Type}
    (score_geb : score → score → bool)
    (sites : list (Z * string * score)) (pos_map : gmap Z Z)
    (cutoff : score) :
  MsaPsSites.convert_sites_to_msa
    (MsaPsSites.filter_sites_by_cutoff score_geb sites cutoff) pos_map
  = List.filter (λ m : Z * Z * string * score, score_geb m.2 cutoff)
      (MsaPsSites.convert_sites_to_msa sites pos_map).
Proof.
  unfold MsaPsSites.filter_sites_by_cutoff.
  induction sites as [|[[p r] sc] sites IH]; [done|].
  rewrite convert_cons. cbn [List.filter snd].
  destruct (score_geb sc cutoff) eqn:Hsc.
  - rewrite convert_cons, IH, List.filter_app.
    destruct (pos_map !! p); simpl; [by rewrite Hsc|done].
  - rewrite IH, List.filter_app.
    destruct (pos_map !! p); simpl; [by rewrite Hsc|done].
Qed.

(** ** What the three matchers always keep *)

(** X7.  Whatever the inputs, every entry of the first list ends in
    exactly one place: the first halves of the common records together
    with the unique entries of the first list are the entries of the
    first list, each once; so [len(common) + len(unique_A) =
    len(list_A)] for the three matchers. *)
Theorem first_list_always_conserved {score : Type} `{EqDecision score}
    (domains1 domains2 : list Domains.Domain)
    (sites1 sites2 : list (Z * string * score))
    (mapped1 mapped2 : list (Z * Z * string * score)) :
  (map Domains.first_of (Domains.find_common_domains domains1 domains2).1.1
     ++ (Domains.find_common_domains domains1 domains2).1.2 ≡ₚ domains1
   ∧ (length (Domains.find_common_domains domains1 domains2).1.1
      + length (Domains.find_common_domains domains1 domains2).1.2
      = length domains1)%nat)
  ∧ (map PsSites.first_of (PsSites.find_common_sites sites1 sites2).1.1
       ++ (PsSites.find_common_sites sites1 sites2).1.2 ≡ₚ sites1
     ∧ (length (PsSites.find_common_sites sites1 sites2).1.1
        + length (PsSites.find_common_sites sites1 sites2).1.2
        = length sites1)%nat)
  ∧ (map MsaPsSites.first_of
       (MsaPsSites.find_common_sites_msa mapped1 mapped2).1.1
       ++ (MsaPsSites.find_common_sites_msa mapped1 mapped2).1.2 ≡ₚ mapped1
     ∧ (length (MsaPsSites.find_common_sites_msa mapped1 mapped2).1.1
        + length (MsaPsSites.find_common_sites_msa mapped1 mapped2).1.2
        = length mapped1)%nat).
Proof.
  assert (∀ {A C : Type} (f : C → A) (common : list C) (unique1 l : list A),
            map f common ++ unique1 ≡ₚ l →
            map f common ++ unique1 ≡ₚ l
            ∧ (length common + length unique1 = length l)%nat) as Hcount.
  { intros A C f common unique1 l Hp. split; [done|].
    apply Permutation_length in Hp. by rewrite length_app, length_map in Hp. }
  split; [|split]; apply Hcount.
  - rewrite find_common_domains_loop.
    by destruct (match_loop_inv domains1 domains2) as (Hp & _).
  - unfold PsSites.find_common_sites, PsSites.site_loop.
    destruct (fold_left _ sites1 _) as [[common unique1] unique2] eqn:Hloop.
    apply site_loop_inv in Hloop as (_ & _ & Hp & _). simpl. rewrite <- Hp.
    apply Permutation_app; [apply Permutation_map|]; apply sort_by_key_perm.
  - unfold MsaPsSites.find_common_sites_msa, MsaPsSites.msa_loop.
    destruct (fold_left _ mapped1 _) as [[common unique1] matched] eqn:Hloop.
    apply msa_loop_inv in Hloop as (_ & _ & _ & Hp). simpl. rewrite <- Hp.
    apply Permutation_app; [apply Permutation_map|]; apply sort_by_key_perm.
Qed.

Section DomainInvariants.
Implicit Types (d : Domains.Domain) (domains pre post : list Domains.Domain).

Lemma label_first_of (c : Domains.Common) :
  domain_label (Domains.first_of c) = label c.
Proof. by destruct c as [[[[n [s1 e1]] [s2 e2]] src1] src2]. Qed.

Lemma consumed_grows pre d1 domains2 d :
  d ∈ consumed pre domains2 → d ∈ consumed (pre ++ [d1]) domains2.
Proof.
  unfold consumed at 2. rewrite match_loop_snoc_cases.
  destruct (candidates_for d1 pre domains2); simpl; set_solver.
Qed.

(** An entry is left unique only when every entry of the second list
    with its label is consumed. *)
Lemma unique1_exhausted domains1 domains2 a b :
  a ∈ (Domains.match_loop domains1 domains2).1.2 →
  b ∈ domains2 → domain_label b = domain_label a →
  b ∈ consumed domains1 domains2.
Proof.
  induction domains1 as [|d1 pre IH] using rev_ind; [by intros ?%elem_of_nil|].
  destruct (candidates_for d1 pre domains2) as [|c cs] eqn:Hcands.
  - rewrite (match_loop_snoc_none _ _ _ Hcands). cbn [fst snd].
    intros [Ha|Ha]%elem_of_app Hb Hl.
    + apply consumed_grows. by apply IH.
    + apply list_elem_of_singleton in Ha. subst a. apply consumed_grows.
      destruct (decide (b ∈ consumed pre domains2)) as [|Hfresh]; [done|].
      assert (b ∈ candidates_for d1 pre domains2) as Hin
        by (by apply list_elem_of_filter).
      rewrite Hcands in Hin. by apply elem_of_nil in Hin.
  - destruct (match_loop_snoc_some pre d1 domains2) as (d2 & _ & Heq);
      [by rewrite Hcands|].
    rewrite Heq. cbn [fst snd]. intros Ha Hb Hl.
    apply consumed_grows. by apply IH.
Qed.

End DomainInvariants.

(** X8.  [find_common_domains] never uses a tuple of the second list in
    two records: the second halves of the common records are pairwise
    different; each record joins an entry of the first list and an entry
    of the second list that carry the record's label; and there are at
    most as many records as entries in either list. *)
Theorem find_common_domains_pairs_once
    (domains1 domains2 : list Domains.Domain) :
  NoDup (map Domains.second_of
           (Domains.find_common_domains domains1 domains2).1.1)
  ∧ (∀ c, c ∈ (Domains.find_common_domains domains1 domains2).1.1 →
          Domains.first_of c ∈ domains1
          ∧ Domains.second_of c ∈ domains2
          ∧ domain_label (Domains.first_of c) = label c
          ∧ domain_label (Domains.second_of c) = label c)
  ∧ (length (Domains.find_common_domains domains1 domains2).1.1
     ≤ length domains1)%nat
  ∧ (length (Domains.find_common_domains domains1 domains2).1.1
     ≤ length domains2)%nat.
Proof.
  rewrite find_common_domains_loop.
  destruct (match_loop_inv domains1 domains2) as (Hp & Hnd & Hin & Hsub).
  split; [done|]. split; [|split].
  - intros c Hc. split; [|split; [|split]].
    + rewrite <- Hp. apply elem_of_app. left.
      apply elem_of_map_iff. by exists c.
    + apply Hsub, Hin, elem_of_map_iff. by exists c.
    + apply label_first_of.
    + apply label_second_of.
  - apply Permutation_length in Hp.
    rewrite length_app, length_map in Hp. lia.
  - rewrite <- (length_map Domains.second_of).
    apply submseteq_length, NoDup_submseteq; [done|].
    intros d Hd. by apply Hsub, Hin.
Qed.

(** X9.  No matcher leaves a pair it could have matched: a unique entry
    of the first list and a unique entry of the second list never share
    the label (domains), the position and residue (raw sites) or the
    column and residue (aligned sites). *)
Theorem unique_entries_never_match {score : Type} `{EqDecision score}
    (domains1 domains2 : list Domains.Domain)
    (sites1 sites2 : list (Z * string * score))
    (mapped1 mapped2 : list (Z * Z * string * score)) :
  (∀ a b, a ∈ (Domains.find_common_domains domains1 domains2).1.2 →
          b ∈ (Domains.find_common_domains domains1 domains2).2 →
          domain_label a ≠ domain_label b)
  ∧ (∀ a b, a ∈ (PsSites.find_common_sites sites1 sites2).1.2 →
            b ∈ (PsSites.find_common_sites sites1 sites2).2 →
            site_key a ≠ site_key b)
  ∧ (∀ a b, a ∈ (MsaPsSites.find_common_sites_msa mapped1 mapped2).1.2 →
            b ∈ (MsaPsSites.find_common_sites_msa mapped1 mapped2).2 →
            msa_key a ≠ msa_key b).
Proof.
  split; [|split].
  - intros a b. rewrite find_common_domains_unique2, find_common_domains_loop.
    intros Ha [Hfresh Hb]%list_elem_of_filter Hl.
    apply Hfresh. by apply (unique1_exhausted _ _ a).
  - unfold PsSites.find_common_sites, PsSites.site_loop.
    destruct (fold_left _ sites1 _) as [[common unique1] unique2] eqn:Hloop.
    apply site_loop_inv in Hloop as (_ & Hu & _ & Hsub & _). simpl.
    intros [[p r] sc] b [_ Hnone]%sort_by_key_elem_of%Hu
      Hb%sort_by_key_elem_of%Hsub Hk.
    simpl in Hnone. by apply (proj1 (first_match_None _ _ _) Hnone b).
  - unfold MsaPsSites.find_common_sites_msa, MsaPsSites.msa_loop.
    destruct (fold_left _ mapped1 _) as [[common unique1] matched] eqn:Hloop.
    apply msa_loop_inv in Hloop as (_ & Hu & _ & _). simpl.
    intros a b [_ Hnone]%sort_by_key_elem_of%Hu
      [_ Hb]%sort_by_key_elem_of%list_elem_of_filter Hk.
    by apply (proj1 (build_index_None _ _) Hnone b).
Qed.

(** ** Which partner the aligned matcher reports *)

Lemma build_index_last {score : Type}
    (mapped : list (Z * Z * string * score)) col res raw sc :
  MsaPsSites.build_index mapped !! (col, res) = Some (raw, sc) →
  ∃ before after,
    mapped = before ++ (col, raw, res, sc) :: after
    ∧ ∀ y, y ∈ after → msa_key y ≠ (col, res).
Proof.
  induction mapped as [|b mapped IH] using rev_ind.
  - unfold MsaPsSites.build_index. simpl. by rewrite lookup_empty.
  - rewrite build_index_snoc, lookup_insert. case_decide as Hk.
    + intros [= <- <-]. exists mapped, []. split.
      * destruct b as [[[c r] re] v]. unfold msa_key in Hk. simpl in *.
        by injection Hk as -> ->.
      * by intros ? ?%elem_of_nil.
    + intros (before & after & -> & Hlast)%IH.
      exists before, (after ++ [b]). split; [by rewrite <- app_assoc|].
      intros y [Hy| ->%list_elem_of_singleton]%elem_of_app; auto.
Qed.

(** X10.  Where several entries of the second list share column and
    residue, [find_common_sites_msa] reports the last of them as the
    partner: the raw position and score of the second sequence in a
    common record are those of the last entry of [mapped2] at the
    record's column and residue. *)
Theorem find_common_sites_msa_last_partner {score : Type} `{EqDecision score}
    (mapped1 mapped2 : list (Z * Z * string * score))
    (c : Z * Z * Z * string * score * score) :
  c ∈ (MsaPsSites.find_common_sites_msa mapped1 mapped2).1.1 →
  ∃ before after,
    mapped2 = before ++ MsaPsSites.second_of c :: after
    ∧ ∀ y, y ∈ after → msa_key y ≠ msa_key (MsaPsSites.second_of c).
Proof.
  unfold MsaPsSites.find_common_sites_msa, MsaPsSites.msa_loop.
  destruct (fold_left _ mapped1 _) as [[common unique1] matched] eqn:Hloop.
  apply msa_loop_inv in Hloop as (Hc & _). simpl.
  destruct c as [[[[[col raw1] raw2] res] sc1] sc2].
  intros [_ Hidx]%sort_by_key_elem_of%Hc. by apply build_index_last.
Qed.

Lemma find_common_sites_msa_last_partner_witness :
  (4, 3, 4, "T"%string, 9, 7)
    ∈ (MsaPsSites.find_common_sites_msa
         [(4, 3, "T"%string, 9)]
         [(4, 4, "T"%string, 8); (4, 4, "T"%string, 7)]).1.1
  ∧ ∃ before after,
      [(4, 4, "T"%string, 8); (4, 4, "T"%string, 7)]
      = before ++ (4, 4, "T"%string, 7) :: after
      ∧ ∀ y, y ∈ after → msa_key y ≠ (4, "T"%string).
Proof.
  assert ((4, 3, 4, "T"%string, 9, 7)
            ∈ (MsaPsSites.find_common_sites_msa
                 [(4, 3, "T"%string, 9)]
                 [(4, 4, "T"%string, 8); (4, 4, "T"%string, 7)]).1.1) as Hin
    by (vm_compute; left).
  split; [exact Hin|].
  exact (find_common_sites_msa_last_partner _ _ _ Hin).
Defined.

(** ** The order of the raw report *)

Section StableSort.
Context {A : Type}.
Implicit Types (key : A → Z) (l : list A).

Lemma insert_by_key_at key k x l :
  List.filter (λ y, key y =? k) (insert_by_key key x l)
  = List.filter (λ y, key y =? k) (x :: l).
Proof.
  induction l as [|y l IH]; [done|]. cbn [insert_by_key].
  destruct (Z.leb_spec (key x) (key y)) as [Hle|Hgt]; [done|].
  cbn [List.filter] in *. rewrite IH.
  destruct (Z.eqb_spec (key y) k), (Z.eqb_spec (key x) k); try done. lia.
Qed.

(** The sort is stable: the elements with one key keep their order. *)
Lemma sort_by_key_stable key k l :
  List.filter (λ y, key y =? k) (sort_by_key key l)
  = List.filter (λ y, key y =? k) l.
Proof.
  induction l as [|x l IH]; [done|]. cbn [sort_by_key].
  rewrite insert_by_key_at. cbn [List.filter]. by rewrite IH.
Qed.

End StableSort.

Section RawLoopLists.
Context {score : Type} `{EqDecision score}.
Implicit Types (sites : list (Z * string * score)).

(** The loop lists the unmatched entries of the first list in order. *)
Lemma site_loop_unique1 sites1 sites2 :
  (PsSites.site_loop sites1 sites2).1.2
  = List.filter
      (λ a : Z * string * score,
         bool_decide (PsSites.first_match a.1.1 a.1.2 sites2 = None))
      sites1.
Proof.
  unfold PsSites.site_loop.
  induction sites1 as [|[[p r] sc] sites1 IH] using rev_ind; [done|].
  rewrite fold_left_snoc, List.filter_app.
  destruct (fold_left _ sites1 _) as [[common unique1] unique2].
  simpl in IH. subst unique1. unfold PsSites.site_step. cbn [List.filter].
  cbn [fst snd].
  destruct (PsSites.first_match p r sites2) as [s2|]; simpl.
  - by rewrite app_nil_r.
  - done.
Qed.

End RawLoopLists.

(** X11.  The three collections of [find_common_sites] are in ascending
    order of the position, and the sort keeps the order of the input
    among the sites at one position: the unique sites of the first list
    at a position are the unmatched sites of the first list at that
    position, in the order of the first list. *)
Theorem find_common_sites_sorted_stable {score : Type} `{EqDecision score}
    (sites1 sites2 : list (Z * string * score)) (k : Z) :
  Sorted (key_le (λ c : Z * string * score * score, c.1.1.1))
    (PsSites.find_common_sites sites1 sites2).1.1
  ∧ Sorted (key_le (λ s : Z * string * score, s.1.1))
      (PsSites.find_common_sites sites1 sites2).1.2
  ∧ Sorted (key_le (λ s : Z * string * score, s.1.1))
      (PsSites.find_common_sites sites1 sites2).2
  ∧ List.filter (λ s : Z * string * score, s.1.1 =? k)
      (PsSites.find_common_sites sites1 sites2).1.2
    = List.filter
        (λ a : Z * string * score,
           (a.1.1 =? k)
           && bool_decide (Forall (λ b, site_key b ≠ site_key a) sites2))
        sites1.
Proof.
  unfold PsSites.find_common_sites.
  pose proof (site_loop_unique1 sites1 sites2) as Hu.
  destruct (PsSites.site_loop sites1 sites2) as [[common unique1] unique2].
  simpl in *. subst unique1.
  split; [apply sort_by_key_sorted|]. split; [apply sort_by_key_sorted|].
  split; [apply sort_by_key_sorted|].
  rewrite (sort_by_key_stable (λ s : Z * string * score, s.1.1)).
  induction sites1 as [|[[p r] sc] sites1 IH]; [done|].
  cbn [List.filter fst snd]. rewrite <- IH. clear IH.
  assert (bool_decide (PsSites.first_match p r sites2 = None)
          = bool_decide (Forall (λ b, site_key b ≠ site_key (p, r, sc)) sites2))
    as ->.
  { apply bool_decide_ext. rewrite Forall_forall. apply first_match_None. }
  destruct (bool_decide _); cbn [List.filter fst snd];
    destruct (p =? k); done.
Qed.

(** ** A list compared with itself *)

Lemma length_zero_nil {A} (l : list A) : length l = 0%nat → l = [].
Proof. by destruct l. Qed.

(** X12.  Comparing the sites of a sequence with themselves reports no
    unique site of the first list, in raw and in aligned coordinates, and
    as many common records as there are sites.  The aligned matcher
    reports no unique site of the second list either; the raw matcher
    reports none when no two sites share position and residue. *)
Theorem sites_compared_with_themselves {score : Type} `{EqDecision score}
    (sites : list (Z * string * score))
    (mapped : list (Z * Z * string * score)) :
  ((MsaPsSites.find_common_sites_msa mapped mapped).1.2 = []
   ∧ (MsaPsSites.find_common_sites_msa mapped mapped).2 = []
   ∧ length (MsaPsSites.find_common_sites_msa mapped mapped).1.1
     = length mapped)
  ∧ ((PsSites.find_common_sites sites sites).1.2 = []
     ∧ length (PsSites.find_common_sites sites sites).1.1 = length sites
     ∧ (NoDup (map site_key sites) →
        (PsSites.find_common_sites sites sites).2 = [])).
Proof.
  split.
  - unfold MsaPsSites.find_common_sites_msa, MsaPsSites.msa_loop.
    destruct (fold_left _ mapped _) as [[common unique1] matched] eqn:Hloop.
    apply msa_loop_inv in Hloop as (_ & Hu & Hk & Hp). simpl.
    assert (unique1 = []) as ->.
    { apply elem_of_nil_inv. intros a [Ha Hnone]%Hu.
      by apply (proj1 (build_index_None _ _) Hnone a). }
    split; [done|]. split.
    + apply length_zero_nil. rewrite sort_by_key_length.
      apply length_zero_iff_nil, elem_of_nil_inv.
      intros b [Hfresh Hb]%list_elem_of_filter. apply Hfresh, Hk.
      exists b. split; [done|]. split; [done|].
      destruct (MsaPsSites.build_index mapped !! msa_key b) eqn:Hidx; [eauto|].
      by destruct (proj1 (build_index_None _ _) Hidx b Hb).
    + rewrite sort_by_key_length. apply Permutation_length in Hp.
      by rewrite app_nil_r, length_map in Hp.
  - pose proof (sites_conserved sites sites) as Hcons.
    unfold conserved, conservation_count in Hcons.
    unfold PsSites.find_common_sites, PsSites.site_loop in *.
    destruct (fold_left _ sites _) as [[common unique1] unique2] eqn:Hloop.
    apply site_loop_inv in Hloop as (_ & Hu & Hp & _). simpl in *.
    assert (unique1 = []) as ->.
    { apply elem_of_nil_inv. intros [[p r] sc] [Ha Hnone]%Hu. simpl in Hnone.
      by apply (proj1 (first_match_None _ _ _) Hnone (p, r, sc)). }
    apply Permutation_length in Hp. rewrite app_nil_r, length_map in Hp.
    split; [done|]. split; [by rewrite sort_by_key_length|].
    intros Hnd. destruct (Hcons Hnd) as (Hcount & _).
    rewrite !sort_by_key_length in Hcount. simpl in Hcount.
    apply length_zero_nil. rewrite sort_by_key_length. lia.
Qed.

Section DomainSelf.
Implicit Types (d : Domains.Domain) (domains pre post : list Domains.Domain).

Lemma count_label_first_of (common : list Domains.Common) name :
  length (filter (λ c, label c = name) common)
  = length (filter (λ d, domain_label d = name)
              (map Domains.first_of common)).
Proof.
  induction common as [|c common IH]; [done|]. cbn [map].
  rewrite !filter_cons, label_first_of.
  destruct (decide (label c = name)); simpl; by rewrite IH.
Qed.

(** Scanning a list without duplicates against itself leaves no entry
    unique. *)
Lemma self_match_pairs_all pre post :
  NoDup (pre ++ post) →
  (Domains.match_loop pre (pre ++ post)).1.2 = [].
Proof.
  revert post. induction pre as [|d1 pre IH] using rev_ind; intros post Hnd;
    [done|].
  rewrite <- app_assoc in *. cbn [app] in *.
  specialize (IH (d1 :: post) Hnd).
  destruct (match_loop_snoc_some pre d1 (pre ++ d1 :: post))
    as (d2 & _ & ->); [|done].
  apply entries_left_candidates; [done|].
  unfold entries_left. rewrite find_common_domains_loop, count_label_first_of.
  destruct (match_loop_inv pre (pre ++ d1 :: post)) as (Hp & _).
  rewrite IH, app_nil_r in Hp. rewrite Hp.
  rewrite filter_app, filter_cons_True, length_app by done. simpl. lia.
Qed.

End DomainSelf.

(** X13.  Comparing a list of domains without duplicates with itself
    pairs every annotation: no unique domain on either side, and as many
    common records as annotations. *)
Theorem domains_compared_with_themselves (domains : list Domains.Domain) :
  NoDup domains →
  (Domains.find_common_domains domains domains).1.2 = []
  ∧ (Domains.find_common_domains domains domains).2 = []
  ∧ length (Domains.find_common_domains domains domains).1.1
    = length domains.
Proof.
  intros Hnd.
  destruct (domains_conserved domains domains Hnd) as [Hp1 Hp2].
  pose proof (self_match_pairs_all domains []) as Hu.
  rewrite app_nil_r in Hu. specialize (Hu Hnd).
  rewrite <- find_common_domains_loop in Hu.
  rewrite Hu in *. rewrite app_nil_r in Hp1.
  apply Permutation_length in Hp1, Hp2.
  rewrite length_map in Hp1. rewrite length_app, length_map in Hp2.
  split; [done|]. split; [|done]. apply length_zero_nil. lia.
Qed.

Lemma domains_compared_with_themselves_witness :
  NoDup [("a", "Kinase", 10, 50)%string; ("a", "Kinase", 60, 90)%string;
         ("a", "SH2", 100, 130)%string]
  ∧ (Domains.find_common_domains
       [("a", "Kinase", 10, 50)%string; ("a", "Kinase", 60, 90)%string;
        ("a", "SH2", 100, 130)%string]
       [("a", "Kinase", 10, 50)%string; ("a", "Kinase", 60, 90)%string;
        ("a", "SH2", 100, 130)%string]).1.2 = [].
Proof.
  assert (NoDup [("a", "Kinase", 10, 50)%string;
                 ("a", "Kinase", 60, 90)%string;
                 ("a", "SH2", 100, 130)%string]) as Hnd by compute_done.
  split; [exact Hnd|].
  exact (proj1 (domains_compared_with_themselves _ Hnd)).
Defined.

(** ** The order of the unique domains of the second protein *)

Section FirstSeen.
Implicit Types (names : list string) (name : string).

Lemma first_seen_elem_of names name :
  name ∈ first_seen names ↔ name ∈ names.
Proof.
  revert name. induction names as [|n names IH]; intros name; [done|].
  cbn [first_seen]. rewrite !elem_of_cons, list_elem_of_filter, IH.
  destruct (decide (name = n)); naive_solver.
Qed.

Lemma first_seen_NoDup names : NoDup (first_seen names).
Proof.
  induction names as [|n names IH]; [constructor|].
  cbn [first_seen]. constructor.
  - rewrite list_elem_of_filter. naive_solver.
  - by apply NoDup_filter.
Qed.

Lemma first_seen_snoc names name :
  first_seen (names ++ [name])
  = if decide (name ∈ names) then first_seen names
    else first_seen names ++ [name].
Proof.
  induction names as [|n names IH]; [done|].
  cbn [app first_seen]. rewrite IH.
  destruct (decide (name ∈ names)) as [Hin|Hout].
  - rewrite decide_True by (by right). done.
  - rewrite filter_app, filter_cons, filter_nil.
    destruct (decide (name = n)) as [->|Hne].
    + rewrite (decide_True (P := n ∈ n :: names)) by (by left).
      rewrite (decide_False (P := n ≠ n)) by (by intros H; apply H).
      by rewrite app_nil_r.
    + rewrite (decide_True (P := name ≠ n)) by done.
      rewrite decide_False; [done|].
      rewrite elem_of_cons. naive_solver.
Qed.

End FirstSeen.

Section GroupedIndex.
Implicit Types (d : Domains.Domain) (domains : list Domains.Domain).

Lemma bucket_append_grouped (g : string → list Domains.Domain) names name d :
  NoDup names →
  Domains.bucket_append name d (map (λ n, (n, g n)) names)
  = if decide (name ∈ names) then
      map (λ n, (n, g n ++ (if decide (n = name) then [d] else []))) names
    else map (λ n, (n, g n)) names ++ [(name, [d])].
Proof.
  induction names as [|k names IH]; intros Hnd; [done|].
  apply NoDup_cons in Hnd as [Hk Hnd]. specialize (IH Hnd).
  cbn [map Domains.bucket_append].
  destruct (decide (k = name)) as [->|Hne].
  - rewrite decide_True by (by left). f_equal.
    apply map_ext_in. intros n Hn%list_elem_of_In.
    rewrite decide_False by (by intros ->). by rewrite app_nil_r.
  - rewrite IH. destruct (decide (name ∈ names)) as [Hin|Hout].
    + rewrite decide_True by (by right). by rewrite app_nil_r.
    + rewrite decide_False; [done|].
      rewrite elem_of_cons. naive_solver.
Qed.

(** The index of [find_common_domains] : one bucket per label, in the
    order in which the labels first occur, each bucket in the order of
    the list. *)
Lemma index_by_name_grouped domains :
  Domains.index_by_name domains
  = map (λ name, (name, filter (λ d, domain_label d = name) domains))
      (first_seen (map domain_label domains)).
Proof.
  induction domains as [|d domains IH] using rev_ind; [done|].
  rewrite index_by_name_snoc, IH, map_app. cbn [map].
  rewrite first_seen_snoc.
  rewrite (bucket_append_grouped
             (λ name, filter (λ d, domain_label d = name) domains))
    by apply first_seen_NoDup.
  cbn [map].
  destruct (decide (domain_label d ∈ first_seen (map domain_label domains)))
    as [Hin|Hout].
  - rewrite decide_True by (by apply first_seen_elem_of).
    apply map_ext. intros name. f_equal.
    rewrite filter_app, filter_cons, filter_nil.
    by repeat case_decide.
  - rewrite decide_False by (by rewrite <- first_seen_elem_of).
    rewrite map_app. cbn [map]. f_equal.
    + apply map_ext_in. intros name Hname%list_elem_of_In. f_equal.
      rewrite filter_app, filter_cons, filter_nil.
      rewrite decide_False; [by rewrite app_nil_r|].
      by intros <-.
    + f_equal. f_equal.
      rewrite filter_app, filter_cons, filter_nil.
      rewrite decide_True by done.
      replace (filter _ domains) with (@nil Domains.Domain); [done|].
      symmetry. apply elem_of_nil_inv.
      intros x [Hx Hin]%list_elem_of_filter. apply Hout.
      apply first_seen_elem_of, list_elem_of_fmap. exists x. by rewrite <- Hx.
Qed.

End GroupedIndex.

Lemma flat_map_map {A B C} (f : B → list C) (g : A → B) (l : list A) :
  flat_map f (map g l) = flat_map (λ x, f (g x)) l.
Proof. induction l as [|x l IH]; [done|]. simpl. by rewrite IH. Qed.

(** X14.  The unique domains of the second protein are listed label by
    label, the labels in the order in which they first occur in the
    second list, and under each label the entries that were not consumed,
    in the order of that list. *)
Theorem find_common_domains_unique2_grouped
    (domains1 domains2 : list Domains.Domain) :
  (Domains.find_common_domains domains1 domains2).2
  = flat_map
      (λ name,
         filter (λ d, (d ∉ consumed domains1 domains2)
                      ∧ domain_label d = name) domains2)
      (first_seen (map domain_label domains2)).
Proof.
  unfold Domains.find_common_domains, consumed.
  destruct (Domains.match_loop domains1 domains2)
    as [[common unique1] used_d2]. cbn [snd].
  rewrite index_by_name_grouped, flat_map_map.
  apply flat_map_ext. intros name. cbn [snd].
  by rewrite list_filter_filter.
Qed.

(** ** A comparison with nothing on one side *)

Section EmptySide.
Context {score : Type} `{EqDecision score}.

Lemma site_loop_nil_r (sites1 unique1 : list (Z * string * score))
    (common : list (Z * string * score * score)) :
  fold_left (PsSites.site_step []) sites1 (common, unique1, [])
  = (common, unique1 ++ sites1, []).
Proof.
  revert unique1. induction sites1 as [|[[p r] sc] sites1 IH]; intros unique1.
  - by rewrite app_nil_r.
  - cbn [fold_left PsSites.site_step PsSites.first_match].
    rewrite IH. by rewrite <- app_assoc.
Qed.

Lemma msa_loop_nil_r (mapped1 unique1 : list (Z * Z * string * score))
    (common : list (Z * Z * Z * string * score * score))
    (matched : gset (Z * string)) :
  fold_left (MsaPsSites.msa_step (∅ : gmap (Z * string) (Z * score)))
    mapped1 (common, unique1, matched)
  = (common, unique1 ++ mapped1, matched).
Proof.
  revert unique1.
  induction mapped1 as [|[[[c p] r] sc] mapped1 IH]; intros unique1.
  - by rewrite app_nil_r.
  - cbn [fold_left MsaPsSites.msa_step]. rewrite lookup_empty.
    rewrite IH. by rewrite <- app_assoc.
Qed.

Lemma match_loop_nil_r (domains1 unique1 : list Domains.Domain)
    (common : list Domains.Common) (used_d2 : gset Domains.Domain) :
  fold_left (Domains.match_step []) domains1 (common, unique1, used_d2)
  = (common, unique1 ++ domains1, used_d2).
Proof.
  revert unique1.
  induction domains1 as [|[[[src name] s] e] domains1 IH]; intros unique1.
  - by rewrite app_nil_r.
  - cbn [fold_left Domains.match_step Domains.bucket_lookup].
    rewrite IH. by rewrite <- app_assoc.
Qed.

End EmptySide.

(** X15.  Compared with an empty list, every entry of the other list is
    reported unique and none common : the sites sorted by position or by
    column, the domains of the first protein in their order, those of the
    second protein label by label. *)
Theorem comparison_with_an_empty_list {score : Type} `{EqDecision score}
    (sites : list (Z * string * score))
    (mapped : list (Z * Z * string * score))
    (domains : list Domains.Domain) :
  (PsSites.find_common_sites sites []
   = ([], sort_by_key (λ x, x.1.1) sites, [])
   ∧ PsSites.find_common_sites [] sites
     = ([], [], sort_by_key (λ x, x.1.1) sites))
  ∧ (MsaPsSites.find_common_sites_msa mapped []
     = ([], sort_by_key (λ x, x.1.1.1) mapped, [])
     ∧ MsaPsSites.find_common_sites_msa [] mapped
       = ([], [], sort_by_key (λ x, x.1.1.1) mapped))
  ∧ (Domains.find_common_domains domains [] = ([], domains, [])
     ∧ Domains.find_common_domains [] domains
       = ([], [],
          flat_map (λ name, filter (λ d, domain_label d = name) domains)
            (first_seen (map domain_label domains)))).
Proof.
  repeat split.
  - unfold PsSites.find_common_sites, PsSites.site_loop.
    by rewrite site_loop_nil_r.
  - unfold MsaPsSites.find_common_sites_msa, MsaPsSites.msa_loop.
    cbn [MsaPsSites.build_index fold_left]. by rewrite msa_loop_nil_r.
  - unfold MsaPsSites.find_common_sites_msa, MsaPsSites.msa_loop.
    cbn [fold_left]. do 2 f_equal.
    induction mapped as [|s mapped IH]; [done|].
    rewrite filter_cons, decide_True by set_solver. by rewrite IH.
  - unfold Domains.find_common_domains, Domains.match_loop.
    cbn [Domains.index_by_name fold_left]. by rewrite match_loop_nil_r.
  - unfold Domains.find_common_domains, Domains.match_loop.
    cbn [fold_left]. f_equal.
    rewrite index_by_name_grouped, flat_map_map.
    apply flat_map_ext. intros name. cbn [snd].
    rewrite list_filter_filter. apply list_filter_iff. set_solver.
Qed.

(** ** The summary of the disagreements *)

Section SummaryFacts.
Implicit Types (common : list Domains.Common) (name : string).

Lemma is_max_over_unique delta name common d d' :
  is_max_over delta name common d → is_max_over delta name common d' → d = d'.
Proof.
  intros [(c & Hc & Hn & <-) Hle] [(c' & Hc' & Hn' & <-) Hle'].
  specialize (Hle c' Hc' Hn'). specialize (Hle' c Hc Hn). lia.
Qed.

Lemma is_max_over_covered delta name common common' d :
  (∀ c, c ∈ common → ∃ c', c' ∈ common' ∧ label c' = label c
                            ∧ delta c' = delta c) →
  (∀ c', c' ∈ common' → ∃ c, c ∈ common ∧ label c = label c'
                              ∧ delta c = delta c') →
  is_max_over delta name common d → is_max_over delta name common' d.
Proof.
  intros Hto Hfrom [(c & Hc & Hn & Hd) Hle]. split.
  - destruct (Hto c Hc) as (c' & Hc' & Hn' & Hd').
    exists c'. split; [done|]. split; congruence.
  - intros c' Hc' Hn'. destruct (Hfrom c' Hc') as (c0 & Hc0 & Hn0 & <-).
    apply Hle; congruence.
Qed.

(** Two lists of records with the same labelled disagreements have the
    same summary. *)
Lemma summarize_distances_covered common common' :
  (∀ c, c ∈ common → ∃ c', c' ∈ common' ∧ label c' = label c
                            ∧ delta_start c' = delta_start c
                            ∧ delta_end c' = delta_end c) →
  (∀ c', c' ∈ common' → ∃ c, c ∈ common ∧ label c = label c'
                              ∧ delta_start c = delta_start c'
                              ∧ delta_end c = delta_end c') →
  Domains.summarize_distances common = Domains.summarize_distances common'.
Proof.
  intros Hto Hfrom. apply map_eq. intros name.
  pose proof (summarize_distances_inv common name) as H1.
  pose proof (summarize_distances_inv common' name) as H2.
  destruct (Domains.summarize_distances common !! name) as [[ds de]|];
    destruct (Domains.summarize_distances common' !! name) as [[ds' de']|].
  - destruct H1 as [Hs He], H2 as [Hs' He']. f_equal. f_equal.
    + apply (is_max_over_unique delta_start name common'); [|done].
      apply (is_max_over_covered _ _ common); [naive_solver..|done].
    + apply (is_max_over_unique delta_end name common'); [|done].
      apply (is_max_over_covered _ _ common); [naive_solver..|done].
  - destruct H1 as [[(c & Hc & Hn & _) _] _].
    destruct (Hto c Hc) as (c' & Hc' & Hn' & _).
    destruct (H2 c' Hc'). congruence.
  - destruct H2 as [[(c' & Hc' & Hn' & _) _] _].
    destruct (Hfrom c' Hc') as (c & Hc & Hn & _).
    destruct (H1 c Hc). congruence.
  - done.
Qed.

Lemma swap_record_deltas (c : Domains.Common) :
  label (swap_record c) = label c
  ∧ delta_start (swap_record c) = delta_start c
  ∧ delta_end (swap_record c) = delta_end c.
Proof.
  destruct c as [[[[name [s1 e1]] [s2 e2]] src1] src2].
  unfold label, delta_start, delta_end. simpl.
  split; [done|]. split; lia.
Qed.

End SummaryFacts.

(** X16.  The summary does not depend on which protein comes first, nor
    on the order of the paired records, and its values are never
    negative. *)
Theorem summarize_distances_symmetric (common common' : list Domains.Common) :
  Domains.summarize_distances (map swap_record common)
  = Domains.summarize_distances common
  ∧ (common ≡ₚ common' →
     Domains.summarize_distances common = Domains.summarize_distances common')
  ∧ (∀ name ds de,
       Domains.summarize_distances common !! name = Some (ds, de) →
       0 ≤ ds ∧ 0 ≤ de).
Proof.
  split; [|split].
  - apply summarize_distances_covered.
    + intros c' (c & -> & Hc)%list_elem_of_fmap. exists c. split; [done|].
      destruct (swap_record_deltas c) as (-> & -> & ->). done.
    + intros c Hc. exists (swap_record c).
      split; [by apply list_elem_of_fmap; exists c|].
      apply swap_record_deltas.
  - intros Hp. apply summarize_distances_covered.
    + intros c Hc. exists c. by rewrite <- Hp.
    + intros c Hc. exists c. by rewrite Hp.
  - intros name ds de Hlook.
    pose proof (summarize_distances_inv common name) as Hinv.
    rewrite Hlook in Hinv.
    destruct Hinv as [[(c & _ & _ & <-) _] [(c' & _ & _ & <-) _]].
    unfold delta_start, delta_end. lia.
Qed.

Section OrderedSummary.
Implicit Types (summary : list (string * (Z * Z))) (name : string).

Lemma update_entry_keys name f summary :
  map fst (DomainsRest.update_entry name f summary)
  = if decide (name ∈ map fst summary) then map fst summary
    else map fst summary ++ [name].
Proof.
  induction summary as [|[k v] summary IH]; [done|].
  cbn [DomainsRest.update_entry map fst].
  destruct (decide (k = name)) as [->|Hne].
  - by rewrite decide_True by (by left).
  - cbn [map fst]. rewrite IH.
    destruct (decide (name ∈ map fst summary)) as [Hin|Hout].
    + by rewrite decide_True by (by right).
    + rewrite decide_False; [done|]. rewrite elem_of_cons. naive_solver.
Qed.

Lemma update_entry_to_map name f summary :
  list_to_map (DomainsRest.update_entry name f summary)
  =@{gmap string (Z * Z)}
    <[name := f (default (0, 0)
                   ((list_to_map summary : gmap string (Z * Z)) !! name))]>
      (list_to_map summary).
Proof.
  induction summary as [|[k v] summary IH]; [done|].
  cbn [DomainsRest.update_entry].
  destruct (decide (k = name)) as [->|Hne].
  - rewrite !list_to_map_cons.
    by rewrite lookup_insert_eq, insert_insert_eq.
  - rewrite !list_to_map_cons.
    rewrite IH, lookup_insert_ne by done.
    by rewrite insert_insert_ne.
Qed.

Lemma summarize_step_keys summary (c : Domains.Common) :
  map fst (DomainsRest.summarize_step summary c)
  = if decide (label c ∈ map fst summary) then map fst summary
    else map fst summary ++ [label c].
Proof.
  destruct c as [[[[name [s1 e1]] [s2 e2]] src1] src2].
  unfold DomainsRest.summarize_step, label. cbn [fst].
  rewrite !update_entry_keys.
  destruct (decide (name ∈ map fst summary)) as [Hin|Hout].
  - by rewrite decide_True.
  - rewrite decide_True; [done|]. apply elem_of_app. right. by left.
Qed.

Lemma summarize_step_to_map summary (c : Domains.Common) :
  list_to_map (DomainsRest.summarize_step summary c)
  = Domains.summarize_step (list_to_map summary) c.
Proof.
  destruct c as [[[[name [s1 e1]] [s2 e2]] src1] src2].
  unfold DomainsRest.summarize_step, Domains.summarize_step, Domains.entry.
  by rewrite !update_entry_to_map.
Qed.

End OrderedSummary.

(** X17.  The summary has one entry per label of the paired records, in
    the order in which the labels first occur among them; read as a map
    it is the summary whose values are the greatest disagreements. *)
Theorem summarize_distances_first_seen (common : list Domains.Common) :
  map fst (DomainsRest.summarize_distances common)
  = first_seen (map label common)
  ∧ NoDup (map fst (DomainsRest.summarize_distances common))
  ∧ list_to_map (DomainsRest.summarize_distances common)
    = Domains.summarize_distances common.
Proof.
  assert (map fst (DomainsRest.summarize_distances common)
          = first_seen (map label common)) as Hkeys.
  { unfold DomainsRest.summarize_distances.
    induction common as [|c common IH] using rev_ind; [done|].
    rewrite fold_left_snoc, summarize_step_keys, IH, map_app. cbn [map].
    rewrite first_seen_snoc.
    destruct (decide (label c ∈ map label common)) as [Hin|Hout].
    - by rewrite decide_True by (by apply first_seen_elem_of).
    - by rewrite decide_False by (by rewrite first_seen_elem_of). }
  split; [done|]. split; [rewrite Hkeys; apply first_seen_NoDup|].
  clear Hkeys.
  unfold DomainsRest.summarize_distances, Domains.summarize_distances.
  induction common as [|c common IH] using rev_ind; [done|].
  by rewrite !fold_left_snoc, summarize_step_to_map, IH.
Qed.

(** ** Reading the alignment *)

Section ParseFasta.
Implicit Types (lines : list string) (records : gmap string (list string)).
Implicit Types (current : option string) (seen : list string).


Lemma header_names_cons raw_line lines :
  header_names (raw_line :: lines)
  = match classify raw_line with
    | Header h => h :: header_names lines
    | _ => header_names lines
    end.
Proof. unfold header_names. simpl. by destruct (classify raw_line). Qed.

Lemma body_of_None h lines :
  body_of h lines = None ↔ h ∉ header_names lines.
Proof.
  induction lines as [|raw_line lines IH].
  { split; [intros _; apply not_elem_of_nil|done]. }
  cbn [body_of]. rewrite header_names_cons.
  destruct (classify raw_line) as [|s|text]; [done| |done].
  rewrite elem_of_cons. destruct (decide (s = h)); naive_solver.
Qed.




End ParseFasta.




(** ** The reports *)

Lemma categories_of_rows {A score : Type} (row_of : A → list (cell score))
    (name : cell score) (l : list A) :
  (∀ x, category (row_of x) = Some name) →
  map category (map row_of l) = repeat (Some name) (length l).
Proof.
  intros Hrow. induction l as [|x l IH]; [done|].
  simpl. by rewrite Hrow, IH.
Qed.

Lemma widths_of_rows {A score : Type} (row_of : A → list (cell score))
    (width : nat) (l : list A) :
  (∀ x, length (row_of x) = width) →
  Forall (λ row, length row = width) (map row_of l).
Proof.
  intros Hrow. apply Forall_forall.
  intros row (x & -> & _)%list_elem_of_fmap. apply Hrow.
Qed.

(** X20.  Each report is a table : every row has as many cells as the
    header row, ten for the domains, five for the raw sites, seven for
    the aligned sites.  After the header row come the common rows, then
    the unique rows of the first protein, then those of the second, and
    for the domains the summary rows last. *)
Theorem reports_are_tables {score : Type} (header1 header2 : string)
    (pairs : list Domains.Common) (only1 only2 : list Domains.Domain)
    (summary : list (string * (Z * Z)))
    (common : list (Z * string * score * score))
    (unique1 unique2 : list (Z * string * score))
    (common_msa : list (Z * Z * Z * string * score * score))
    (unique1_msa unique2_msa : list (Z * Z * string * score)) :
  (Forall (λ row, length row = 10%nat)
     (DomainsRest.save_to_tsv header1 header2 pairs only1 only2 summary)
   ∧ map category
       (DomainsRest.save_to_tsv header1 header2 pairs only1 only2 summary)
     = Some (CStr "Category")
       :: repeat (Some (CStr "Common")) (length pairs)
       ++ repeat (Some (CStr ("Unique_to_" ++ header1))) (length only1)
       ++ repeat (Some (CStr ("Unique_to_" ++ header2))) (length only2)
       ++ repeat (Some (CStr "Summary")) (length summary))
  ∧ (Forall (λ row, length row = 5%nat)
       (PsSitesRest.save_to_tsv header1 header2 common unique1 unique2)
     ∧ map category
         (PsSitesRest.save_to_tsv header1 header2 common unique1 unique2)
       = Some (CStr "Category")
         :: repeat (Some (CStr "Common")) (length common)
         ++ repeat (Some (CStr ("Unique_to_" ++ header1))) (length unique1)
         ++ repeat (Some (CStr ("Unique_to_" ++ header2))) (length unique2))
  ∧ (Forall (λ row, length row = 7%nat)
       (MsaPsSitesRest.save_to_tsv header1 header2
          common_msa unique1_msa unique2_msa)
     ∧ map category
         (MsaPsSitesRest.save_to_tsv header1 header2
            common_msa unique1_msa unique2_msa)
       = Some (CStr "Category")
         :: repeat (Some (CStr "Common")) (length common_msa)
         ++ repeat (Some (CStr ("Unique_to_" ++ header1)))
              (length unique1_msa)
         ++ repeat (Some (CStr ("Unique_to_" ++ header2)))
              (length unique2_msa)).
Proof.
  split; [|split]; split.
  - unfold DomainsRest.save_to_tsv. constructor; [done|].
    rewrite !Forall_app. repeat split; apply widths_of_rows.
    + by intros [[[[name [s1 e1]] [s2 e2]] src1] src2].
    + by intros [[[predictor domain] s] e].
    + by intros [[[predictor domain] s] e].
    + by intros [name [ds de]].
  - unfold DomainsRest.save_to_tsv. cbn [map]. rewrite !map_app. f_equal.
    repeat f_equal; apply categories_of_rows.
    + by intros [[[[name [s1 e1]] [s2 e2]] src1] src2].
    + by intros [[[predictor domain] s] e].
    + by intros [[[predictor domain] s] e].
    + by intros [name [ds de]].
  - unfold PsSitesRest.save_to_tsv. constructor; [done|].
    rewrite !Forall_app. repeat split; apply widths_of_rows.
    + by intros [[[pos res] sc1] sc2].
    + by intros [[pos res] sc].
    + by intros [[pos res] sc].
  - unfold PsSitesRest.save_to_tsv. cbn [map]. rewrite !map_app. f_equal.
    repeat f_equal; apply categories_of_rows.
    + by intros [[[pos res] sc1] sc2].
    + by intros [[pos res] sc].
    + by intros [[pos res] sc].
  - unfold MsaPsSitesRest.save_to_tsv. constructor; [done|].
    rewrite !Forall_app. repeat split; apply widths_of_rows.
    + by intros [[[[[col raw1] raw2] res] sc1] sc2].
    + by intros [[[col raw] res] sc].
    + by intros [[[col raw] res] sc].
  - unfold MsaPsSitesRest.save_to_tsv. cbn [map]. rewrite !map_app. f_equal.
    repeat f_equal; apply categories_of_rows.
    + by intros [[[[[col raw1] raw2] res] sc1] sc2].
    + by intros [[[col raw] res] sc].
    + by intros [[[col raw] res] sc].
Qed.

(** ** The comparison of the domains, end to end *)

Lemma for_header_nonempty {A} (h : string) (x : A)
    (contributions : list (string * A)) :
  (h, x) ∈ contributions → for_header h contributions ≠ [].
Proof.
  intros Hin Hnil.
  assert (x ∈ for_header h contributions) as Hx.
  { unfold for_header. apply list_elem_of_omap. exists (h, x).
    split; [done|]. simpl. by rewrite decide_True. }
  rewrite Hnil in Hx. by apply elem_of_nil in Hx.
Qed.

Lemma find_common_domains_nonempty (domains1 domains2 : list Domains.Domain) :
  domains1 ≠ [] ∨ domains2 ≠ [] →
  Domains.find_common_domains domains1 domains2 ≠ ([], [], []).
Proof.
  intros Hne Hnil.
  destruct (match_loop_inv domains1 domains2) as (Hp & _).
  rewrite <- find_common_domains_loop, Hnil in Hp. simpl in Hp.
  apply Permutation_nil in Hp. subst domains1.
  pose proof (find_common_domains_unique2 [] domains2) as Hu.
  rewrite Hnil in Hu. simpl in Hu.
  destruct Hne as [|Hne]; [done|]. apply Hne.
  destruct domains2 as [|d domains2]; [done|].
  rewrite filter_cons, decide_True in Hu by (unfold consumed; set_solver).
  by apply Permutation_nil_cons in Hu.
Qed.

(** X21.  [compare_domains] fails when the headers are not two, and,
    with two headers, when no row of the file contributes a domain to
    either of them.  Otherwise it writes the report of the domains the
    rows contribute to the two headers, and the report has at least one
    row below the header row. *)
Theorem compare_domains_outcome (int_of_string : string → option Z)
    (rows : list (list string)) (headers : list string) :
  match DomainsRest.compare_domains int_of_string rows headers with
  | Raise e =>
      (length headers ≠ 2%nat
       ∧ e = ValueError "Provide exactly two sequence headers.")
      ∨ (length headers = 2%nat
         ∧ domain_contributions int_of_string rows headers = []
         ∧ e = ValueError "No domains found for headers: ")
  | Ok report =>
      ∃ header1 header2 common only1 only2,
        headers = [header1; header2]
        ∧ Domains.find_common_domains
            (for_header header1
               (domain_contributions int_of_string rows headers))
            (for_header header2
               (domain_contributions int_of_string rows headers))
          = (common, only1, only2)
        ∧ report = DomainsRest.save_to_tsv header1 header2
                     common only1 only2
                     (DomainsRest.summarize_distances common)
        ∧ (2 ≤ length report)%nat
  end.
Proof.
  destruct headers as [|header1 [|header2 [|header3 headers]]];
    try (left; split; [simpl; lia|done]).
  assert (fold_left (DomainsRest.extract_row int_of_string
                       (list_to_set [header1; header2])) rows ∅ = ∅
          ↔ domain_contributions int_of_string rows [header1; header2] = [])
    as Hempty by apply grouping_empty, domain_row_appends.
  assert (∀ h,
            default []
              (fold_left (DomainsRest.extract_row int_of_string
                            (list_to_set [header1; header2])) rows ∅ !! h)
            = for_header h
                (domain_contributions int_of_string rows [header1; header2]))
    as Hlook.
  { intros h.
    rewrite (grouping_lookup _ _ rows ∅ h (domain_row_appends _ _)).
    by rewrite lookup_empty. }
  assert (∀ h x,
            (h, x) ∈ domain_contributions int_of_string rows
                       [header1; header2] →
            h = header1 ∨ h = header2) as Hheaders.
  { intros h x (row & _ & Hrow)%list_elem_of_omap.
    apply row_domain_header in Hrow. set_solver. }
  unfold DomainsRest.compare_domains, DomainsRest.extract_headers.
  destruct (decide (fold_left _ rows ∅ = ∅)) as [Hnone|Hsome].
  - right. split; [done|]. split; [by apply Hempty|done].
  - rewrite !Hlook.
    destruct (Domains.find_common_domains _ _)
      as [[common only1] only2] eqn:Hfound.
    exists header1, header2, common, only1, only2.
    split; [done|]. split; [done|]. split; [done|].
    assert ((common, only1, only2) ≠ ([], [], [])) as Hne.
    { rewrite <- Hfound. apply find_common_domains_nonempty.
      destruct (domain_contributions int_of_string rows [header1; header2])
        as [|[h x] contributions]; [by destruct Hsome; apply Hempty|].
      destruct (Hheaders h x) as [->| ->]; [by left|..].
      - left. apply (for_header_nonempty _ x). by left.
      - right. apply (for_header_nonempty _ x). by left. }
    unfold DomainsRest.save_to_tsv. cbn [length].
    rewrite !length_app, !length_map.
    destruct common, only1, only2; simpl; try lia. done.
Qed.

(** ** The comparison in alignment coordinates, end to end *)




(** ** The comparison on raw positions, end to end *)


(** ** The order of the report in alignment coordinates *)

Section MsaLoopLists.
Context {score : Type} `{EqDecision score}.
Implicit Types (mapped : list (Z * Z * string * score)).

(** The loop lists the matched and the unmatched entries of the first
    list in order. *)
Lemma msa_loop_lists mapped1 mapped2 :
  map MsaPsSites.first_of (MsaPsSites.msa_loop mapped1 mapped2).1.1
  = List.filter
      (λ a, bool_decide
              (is_Some (MsaPsSites.build_index mapped2 !! msa_key a)))
      mapped1
  ∧ (MsaPsSites.msa_loop mapped1 mapped2).1.2
    = List.filter
        (λ a, bool_decide (MsaPsSites.build_index mapped2 !! msa_key a = None))
        mapped1.
Proof.
  unfold MsaPsSites.msa_loop.
  induction mapped1 as [|[[[col raw] res] sc] mapped1 IH] using rev_ind;
    [done|].
  rewrite fold_left_snoc, !List.filter_app.
  destruct (fold_left _ mapped1 _) as [[common unique1] matched].
  simpl in IH. destruct IH as [<- <-].
  unfold MsaPsSites.msa_step. cbn [List.filter]. unfold msa_key. cbn [fst snd].
  destruct (MsaPsSites.build_index mapped2 !! (col, res)) as [[raw2 sc2]|];
    simpl.
  - rewrite map_app, app_nil_r. done.
  - rewrite app_nil_r. done.
Qed.

Lemma filter_bool_decide {A} (P : A → Prop) `{∀ x, Decision (P x)}
    (l : list A) :
  filter P l = List.filter (λ x, bool_decide (P x)) l.
Proof.
  induction l as [|x l IH]; [done|].
  rewrite filter_cons. cbn [List.filter]. rewrite <- IH.
  by destruct (decide (P x)) as [HP|HP];
    [rewrite bool_decide_true|rewrite bool_decide_false].
Qed.

Lemma filter_filter_bool {A} (p q : A → bool) (l : list A) :
  List.filter p (List.filter q l) = List.filter (λ x, p x && q x) l.
Proof.
  induction l as [|x l IH]; [done|]. cbn [List.filter].
  destruct (q x); cbn [List.filter]; rewrite ?IH, ?andb_true_r, ?andb_false_r;
    [done|]. by destruct (p x).
Qed.

Lemma map_filter_first_of (k : Z)
    (common : list (Z * Z * Z * string * score * score)) :
  map MsaPsSites.first_of (List.filter (λ c, common_col_of c =? k) common)
  = List.filter (λ a, msa_col_of a =? k) (map MsaPsSites.first_of common).
Proof.
  induction common as [|[[[[[col raw1] raw2] res] sc1] sc2] common IH];
    [done|].
  cbn [List.filter map]. unfold common_col_of, msa_col_of.
  cbn [fst snd MsaPsSites.first_of].
  destruct (col =? k); cbn [map]; [f_equal|]; exact IH.
Qed.

End MsaLoopLists.

(** X24.  In alignment coordinates the rows of one column keep the order
    of the input lists and each entry has its own row : the common rows of
    a column are the entries of the first list whose column and residue
    occur in the second list, the unique rows of a list are its entries
    whose column and residue do not occur in the other list. *)
Theorem find_common_sites_msa_stable {score : Type} `{EqDecision score}
    (mapped1 mapped2 : list (Z * Z * string * score)) (k : Z) :
  map MsaPsSites.first_of
    (List.filter (λ c, common_col_of c =? k)
       (MsaPsSites.find_common_sites_msa mapped1 mapped2).1.1)
  = List.filter
      (λ a, (msa_col_of a =? k)
            && bool_decide (Exists (λ b, msa_key b = msa_key a) mapped2))
      mapped1
  ∧ List.filter (λ a, msa_col_of a =? k)
      (MsaPsSites.find_common_sites_msa mapped1 mapped2).1.2
    = List.filter
        (λ a, (msa_col_of a =? k)
              && bool_decide (Forall (λ b, msa_key b ≠ msa_key a) mapped2))
        mapped1
  ∧ List.filter (λ b, msa_col_of b =? k)
      (MsaPsSites.find_common_sites_msa mapped1 mapped2).2
    = List.filter
        (λ b, (msa_col_of b =? k)
              && bool_decide (Forall (λ a, msa_key a ≠ msa_key b) mapped1))
        mapped2.
Proof.
  unfold MsaPsSites.find_common_sites_msa.
  destruct (msa_loop_lists mapped1 mapped2) as [Hc Hu].
  pose proof (msa_loop_inv (MsaPsSites.build_index mapped2) mapped1) as Hinv.
  unfold MsaPsSites.msa_loop in *.
  destruct (fold_left _ mapped1 _) as [[common unique1] matched].
  specialize (Hinv _ _ _ eq_refl) as (_ & _ & Hmatched & _).
  cbn [fst snd] in *.
  split; [|split].
  - change (sort_by_key _ common) with (sort_by_key common_col_of common).
    rewrite (sort_by_key_stable common_col_of), map_filter_first_of, Hc.
    rewrite filter_filter_bool. apply List.filter_ext. intros a. f_equal.
    apply bool_decide_ext. rewrite Exists_exists.
    destruct (MsaPsSites.build_index mapped2 !! msa_key a) as [v|] eqn:Hidx.
    + split; [intros _|by eauto].
      destruct (decide (Exists (λ b, msa_key b = msa_key a) mapped2))
        as [He|Hne]; [by apply Exists_exists in He|].
      assert (MsaPsSites.build_index mapped2 !! msa_key a = None) as Hnone.
      { apply build_index_None. intros b Hb Hk. apply Hne, Exists_exists.
        eauto. }
      congruence.
    + split; [by intros [? [=]]|]. intros (b & Hb & Hk).
      by destruct (proj1 (build_index_None _ _) Hidx b Hb).
  - change (sort_by_key _ unique1) with (sort_by_key msa_col_of unique1).
    rewrite (sort_by_key_stable msa_col_of), Hu.
    rewrite filter_filter_bool. apply List.filter_ext. intros a. f_equal.
    apply bool_decide_ext. rewrite Forall_forall. apply build_index_None.
  - change (sort_by_key _ ?l) with (sort_by_key msa_col_of l).
    rewrite (sort_by_key_stable msa_col_of), filter_bool_decide.
    rewrite filter_filter_bool. apply List.filter_ext_in.
    intros b Hb%list_elem_of_In. f_equal.
    apply bool_decide_ext. rewrite Forall_forall.
    change (b.1.1.1, b.1.2) with (msa_key b). rewrite Hmatched. split.
    + intros Hnot a Ha Hk. apply Hnot. exists a. split; [done|].
      split; [done|].
      destruct (MsaPsSites.build_index mapped2 !! msa_key b) eqn:Hidx;
        [eauto|].
      by destruct (proj1 (build_index_None _ _) Hidx b Hb).
    + intros Hall (a & Ha & Hk & _). by apply (Hall a).
Qed.

(** ** The order of the domain report *)

(** X25.  The domain report is not sorted : the common records and the
    unique domains of the first protein each keep the order of the first
    list. *)
Theorem find_common_domains_keeps_order
    (domains1 domains2 : list Domains.Domain) :
  sublist
    (map Domains.first_of (Domains.find_common_domains domains1 domains2).1.1)
    domains1
  ∧ sublist (Domains.find_common_domains domains1 domains2).1.2 domains1.
Proof.
  rewrite find_common_domains_loop.
  induction domains1 as [|d1 domains1 IH] using rev_ind.
  - split; constructor.
  - destruct IH as [IHc IHu]. rewrite match_loop_snoc_cases.
    destruct (candidates_for d1 domains1 domains2) as [|c cs]; cbn [fst snd].
    + split; [by apply sublist_inserts_r|by apply sublist_app].
    + split; [|by apply sublist_inserts_r].
      rewrite map_app. apply sublist_app; [done|].
      destruct d1 as [[[src name] s] e]. done.
Qed.
